(** * A compact-trie inverted index with boolean queries and Z-score ranking

    Shallow embedding of [compact_trie.py] (the radix tree, its insertion,
    lookup and line-oriented persistence), of [RI.py] (construction of the
    retriever, tokenizer, shunting-yard, postfix evaluation, Z-score ranking
    and [search]), of [indexer.py] (terms of a text, the two passes of
    [index_corpus] and the files it reads and writes) and of the pure part
    of [app.py] (page links and pages of results), followed by the
    properties proved about them.

    Conventions of the embedding.
    - A Python [str] is a [list ascii]; a character is read as a code point
      in 0..255.
    - A Python [int] is a [Z]; a Python [float] is a binary64 value of
      [SpecFloat.spec_float].
    - A Python [dict] keyed by characters is an association list in
      insertion order with at most one entry per key; so are the dicts whose
      order of iteration matters. A dict read from a JSON file is given by
      its content.
    - A call either returns, raises, or never returns: see [outcome].
    - Files are given by their content, [None] for a file that is missing;
      a write succeeds.
    - The depth of recursion the interpreter allows is a parameter: see
      [Interpreter]. *)

From Stdlib Require Import ZArith List Ascii String Bool Lia Arith.
From Stdlib Require Import Sorting.Permutation.
From Stdlib Require Import Floats.SpecFloat.
From stdpp Require Import gmap strings list sorting.

Set Warnings "-register-all".

(* ===================================================================== *)
(** * Python primitives *)
(* ===================================================================== *)

Module Py.

Definition str := list ascii.

(** String literals of the sources, written as Rocq strings. *)
Definition s (lit : string) : str := list_ascii_of_string lit.

(** The exceptions the modelled code can raise. *)
Inductive exn :=
| ValueError (msg : str)
| IndexError
| OverflowError
| ZeroDivisionError.

(** What a call does: it returns a value, raises, or loops forever. *)
Inductive outcome (A : Type) :=
| Returns (a : A)
| Raises (e : exn)
| Loops.
Arguments Returns {A} a.
Arguments Raises {A} e.
Arguments Loops {A}.

Definition bind {A B} (m : outcome A) (k : A -> outcome B) : outcome B :=
  match m with
  | Returns a => k a
  | Raises e => Raises e
  | Loops => Loops
  end.

(** The room the interpreter leaves for recursion: [call_depth] is the
    number of nested calls of a recursive function that can be entered and
    run, from where the program calls it, before [RecursionError] is
    raised. CPython allows 1000 frames unless [sys.setrecursionlimit] says
    otherwise, those of the callers and of a comprehension in the body
    included. *)
Class Interpreter := { call_depth : nat }.

(** [try: body / except ValueError: handler] *)
Definition except_ValueError {A} (body handler : outcome A) : outcome A :=
  match body with
  | Raises (ValueError _) => handler
  | _ => body
  end.

(** [str == str] *)
Definition str_eqb (a b : str) : bool := bool_decide (a = b).

(** ** dict with character keys *)

Section Dict.
Context {V : Type}.

Definition dict := list (ascii * V).

(** [d.get(k)], [None] when [k not in d] *)
Fixpoint dict_get (k : ascii) (d : list (ascii * V)) : option V :=
  match d with
  | [] => None
  | (k', v) :: r => if Ascii.eqb k k' then Some v else dict_get k r
  end.

(** [d[k] = v]: an existing key keeps its position, a new one goes last *)
Fixpoint dict_set (k : ascii) (v : V) (d : list (ascii * V)) : list (ascii * V) :=
  match d with
  | [] => [(k, v)]
  | (k', v') :: r =>
      if Ascii.eqb k k' then (k', v) :: r else (k', v') :: dict_set k v r
  end.

Definition dict_keys (d : list (ascii * V)) : list ascii := map fst d.

End Dict.

(** [f(d[k])] when [k in d]; the function is applied to the stored value
    itself, so a recursive [f] on a node's children is structural. *)
Section DictWith.
Context {V R : Type} (f : V -> R).

Fixpoint dict_with (k : ascii) (d : list (ascii * V)) : option R :=
  match d with
  | [] => None
  | (k', v) :: r => if Ascii.eqb k k' then Some (f v) else dict_with k r
  end.

End DictWith.

(** ** str methods *)

(** [c.isspace()] for a code point below 256 *)
Definition is_space (c : ascii) : bool :=
  let n := nat_of_ascii c in
  ((9 <=? n) && (n <=? 13) || (28 <=? n) && (n <=? 32)
   || (n =? 133) || (n =? 160))%nat.

(** [c.lower()] for a code point below 256 *)
Definition lower_char (c : ascii) : ascii :=
  let n := nat_of_ascii c in
  if ((65 <=? n) && (n <=? 90)
      || (192 <=? n) && (n <=? 222) && negb (n =? 215))%nat
  then ascii_of_nat (n + 32) else c.

(** [x.lower()] *)
Definition lower (x : str) : str := map lower_char x.

(** [x.replace(old, new)] for a one-character [old] *)
Definition replace (old : ascii) (new : str) (x : str) : str :=
  flat_map (fun c => if Ascii.eqb c old then new else [c]) x.

(** [x.split()]: the maximal runs of non-space characters. [cur] is the run
    being read, last character first. *)
Fixpoint split_ws_from (cur : str) (x : str) : list str :=
  match x with
  | [] => match cur with [] => [] | _ :: _ => [rev cur] end
  | c :: r =>
      if is_space c then
        match cur with
        | [] => split_ws_from [] r
        | _ :: _ => rev cur :: split_ws_from [] r
        end
      else split_ws_from (c :: cur) r
  end.

Definition split_ws (x : str) : list str := split_ws_from [] x.

(** [x.lstrip()], [x.rstrip()], [x.strip()] *)
Fixpoint lstrip (x : str) : str :=
  match x with
  | c :: r => if is_space c then lstrip r else x
  | [] => []
  end.

Definition rstrip (x : str) : str := rev (lstrip (rev x)).

Definition strip (x : str) : str := rstrip (lstrip x).

(** [x.split(sep)] for a one-character [sep]: always at least one field. *)
Fixpoint split_on (sep : ascii) (x : str) : list str :=
  match x with
  | [] => [[]]
  | c :: r =>
      if Ascii.eqb c sep then [] :: split_on sep r
      else match split_on sep r with
           | field :: fields => (c :: field) :: fields
           | [] => [[c]]
           end
  end.

(** [sep.join(parts)] *)
Fixpoint join (sep : str) (parts : list str) : str :=
  match parts with
  | [] => []
  | [x] => x
  | x :: rest => x ++ sep ++ join sep rest
  end.

(** ** int to and from text *)

(** The decimal digit of a value in 0..9 *)
Definition digit_char (d : Z) : ascii := ascii_of_nat (48 + Z.to_nat d).

(** The value of a decimal digit *)
Definition digit_value (c : ascii) : option Z :=
  let n := nat_of_ascii c in
  if ((48 <=? n) && (n <=? 57))%nat then Some (Z.of_nat (n - 48)) else None.

(** The decimal digits of [n >= 0] put in front of [acc]; one round of
    [fuel] per digit. *)
Fixpoint digits_onto (fuel : nat) (n : Z) (acc : str) : str :=
  match fuel with
  | O => acc
  | S fuel' =>
      let acc' := digit_char (n mod 10) :: acc in
      if (n <? 10)%Z then acc' else digits_onto fuel' (n / 10) acc'
  end.

(** [str(z)] for an int, as an f-string formats it *)
Definition str_of_int (z : Z) : str :=
  let n := Z.abs z in
  let digits := digits_onto (S (Z.to_nat (Z.log2 n))) n [] in
  if (z <? 0)%Z then "-"%char :: digits else digits.

(** The digits of an int literal after a first digit: digits, each
    optionally preceded by one underscore. *)
Fixpoint digits_after (acc : Z) (x : str) : option Z :=
  match x with
  | [] => Some acc
  | c :: r =>
      match digit_value c with
      | Some d => digits_after (10 * acc + d) r
      | None =>
          if Ascii.eqb c "_" then
            match r with
            | c' :: r' =>
                match digit_value c' with
                | Some d => digits_after (10 * acc + d) r'
                | None => None
                end
            | [] => None
            end
          else None
      end
  end.

(** An unsigned int literal: it starts with a digit. *)
Definition digits_literal (x : str) : option Z :=
  match x with
  | c :: r =>
      match digit_value c with
      | Some d => digits_after d r
      | None => None
      end
  | [] => None
  end.

(** [int(x)] for a str: surrounding blanks, an optional sign, decimal
    digits; [ValueError] otherwise. *)
Definition int_of_str (x : str) : outcome Z :=
  let parsed :=
    match strip x with
    | c :: r =>
        if Ascii.eqb c "-" then option_map Z.opp (digits_literal r)
        else if Ascii.eqb c "+" then digits_literal r
        else digits_literal (c :: r)
    | [] => None
    end in
  match parsed with
  | Some z => Returns z
  | None => Raises (ValueError (s "invalid literal for int() with base 10"))
  end.

(** ** Text files *)

Definition newline : ascii := ascii_of_nat 10.

(** The lines of a text stream, each with its terminator; [cur] is the
    line being read, last character first. *)
Fixpoint read_lines_from (cur : str) (x : str) : list str :=
  match x with
  | [] => match cur with [] => [] | _ :: _ => [rev cur] end
  | c :: r =>
      if Ascii.eqb c newline then rev (c :: cur) :: read_lines_from [] r
      else read_lines_from (c :: cur) r
  end.

Definition read_lines (content : str) : list str := read_lines_from [] content.


(** ** float: IEEE 754 binary64 *)

Definition float := spec_float.
Definition prec : Z := 53.
Definition emax : Z := 1024.

Definition float_zero : float := S754_zero false.          (* 0.0 *)
Definition float_one : float := binary_normalize prec emax 1 0 false.   (* 1.0 *)

Definition is_nan (x : float) : bool :=
  match x with S754_nan => true | _ => false end.

(** [float(z)]: the nearest double, ties to even; CPython raises
    [OverflowError] when that is beyond the largest finite double. *)
Definition float_of_int (z : Z) : outcome float :=
  match binary_normalize prec emax z 0 false with
  | S754_infinity _ => Raises OverflowError
  | x => Returns x
  end.

(** [x + y], [x - y] on floats never raise. *)
Definition float_add (x y : float) : float := SFadd prec emax x y.
Definition float_sub (x y : float) : float := SFsub prec emax x y.

(** [x / y] on floats: [ZeroDivisionError] for a zero divisor. *)
Definition float_div (x y : float) : outcome float :=
  match y with
  | S754_zero _ => Raises ZeroDivisionError
  | _ => Returns (SFdiv prec emax x y)
  end.

(** [x < y] on floats *)
Definition float_lt (x y : float) : bool := SFltb x y.

(** Python compares an int with a float by value, without rounding the
    int: the comparison of [z] with [x], [None] when [x] is NaN. *)
Definition int_compare_float (z : Z) (x : float) : option comparison :=
  match x with
  | S754_nan => None
  | S754_infinity true => Some Gt
  | S754_infinity false => Some Lt
  | S754_zero _ => Some (Z.compare z 0)
  | S754_finite sign m e =>
      let v := if sign then Z.neg m else Z.pos m in
      Some (if (0 <=? e)%Z then Z.compare z (v * 2 ^ e)
            else Z.compare (z * 2 ^ (- e)) v)
  end.

(** [z > x] for an int [z] and a float [x] *)
Definition int_gt_float (z : Z) (x : float) : bool :=
  match int_compare_float z x with Some Gt => true | _ => false end.

(** [x <= z] for a float [x] and an int [z] *)
Definition float_le_int (x : float) (z : Z) : bool :=
  match int_compare_float z x with Some (Gt | Eq) => true | _ => false end.

(** [z - x] for an int [z] and a float [x]: the int is converted first. *)
Definition int_sub_float (z : Z) (x : float) : outcome float :=
  bind (float_of_int z) (fun zf => Returns (float_sub zf x)).

(** [x / z] for a float [x] and an int [z] *)
Definition float_div_int (x : float) (z : Z) : outcome float :=
  bind (float_of_int z) (fun zf => float_div x zf).

(** ** list.sort *)

(** [l.sort(key=key)] is stable and compares keys with [<] only. It is
    modelled by a stable insertion sort, with which every stable sort
    agrees when [<] orders the keys totally (no NaN among them). *)
Section Sort.
Context {A K : Type} (key : A -> K) (lt : K -> K -> bool).

Fixpoint sort_insert (x : A) (l : list A) : list A :=
  match l with
  | [] => [x]
  | y :: r => if lt (key y) (key x) then y :: sort_insert x r else x :: y :: r
  end.

Fixpoint sort_stable (l : list A) : list A :=
  match l with
  | [] => []
  | x :: r => sort_insert x (sort_stable r)
  end.

(** [l.sort(key=key, reverse=True)]: CPython reverses the list, sorts it
    and reverses the result, which keeps equal keys in their first order. *)
Definition sort_reverse (l : list A) : list A := rev (sort_stable (rev l)).

End Sort.

(** ** set *)

(** The order in which a [for] loop visits a [set] is the interpreter's:
    each element once, in an order the language leaves open. *)
Class SetIteration := {
  iter_ints : gset Z -> list Z;
  iter_strs : gset str -> list str;
  iter_ints_NoDup : forall x, NoDup (iter_ints x);
  iter_ints_elem : forall x z, z ∈ iter_ints x <-> z ∈ x;
  iter_strs_NoDup : forall x, NoDup (iter_strs x);
  iter_strs_elem : forall x z, z ∈ iter_strs x <-> z ∈ x
}.

End Py.

(* ===================================================================== *)
(** * compact_trie.py *)
(* ===================================================================== *)

Module CompactTrie.
Import Py.

(** [class TrieNode]: label, children keyed by the first character of the
    child's label, terminal flag, inverted index of (DocID, frequency). *)
Inductive TrieNode := Node {
  label : str;
  children : list (ascii * TrieNode);
  is_terminal : bool;
  inverted_index : list (Z * Z)
}.

(** [TrieNode()] *)
Definition new_TrieNode : TrieNode := Node [] [] false [].

(** [class CompactTrie]: the object holds its root. *)
Record CompactTrie := { root : TrieNode }.

(** [CompactTrie()] *)
Definition new_CompactTrie : CompactTrie := {| root := new_TrieNode |}.

(** [_find_mismatch_point(word, label)]: length of the common prefix. *)
Fixpoint _find_mismatch_point (word label : str) : nat :=
  match word, label with
  | a :: word', b :: label' =>
      if Ascii.eqb a b then S (_find_mismatch_point word' label') else 0
  | _, _ => 0
  end.

(** A fresh terminal node holding one posting, as the three creation sites
    of [insert] build it. *)
Definition new_terminal (lbl : str) (doc_id frequency : Z) : TrieNode :=
  Node lbl [] true [(doc_id, frequency)].

(** [s[0]], raising [IndexError] on the empty string. *)
Definition first_char (x : str) : outcome ascii :=
  match x with
  | c :: _ => Returns c
  | [] => Raises IndexError
  end.

(** What one round of the loop of [insert] does with the child found under
    [remaining_word[0]]: the node to store under that key. [descend] is the
    rest of the loop run from the child (case C). *)
Definition insert_child (descend : TrieNode -> str -> outcome TrieNode)
    (remaining_word : str) (doc_id frequency : Z) (child_node : TrieNode)
    : outcome TrieNode :=
  let child_label := label child_node in
  let mismatch_idx := _find_mismatch_point remaining_word child_label in
  if (mismatch_idx =? length remaining_word)%nat
     && (mismatch_idx =? length child_label)%nat then
    (* A. exact match *)
    Returns (Node child_label (children child_node) true
               (inverted_index child_node ++ [(doc_id, frequency)]))
  else if (mismatch_idx =? length remaining_word)%nat then
    (* B. the word is a prefix of the label *)
    let remaining_label := skipn mismatch_idx child_label in
    bind (first_char remaining_label) (fun k =>
    let child_node' := Node remaining_label (children child_node)
                         (is_terminal child_node) (inverted_index child_node) in
    Returns (Node remaining_word (dict_set k child_node' []) true
               [(doc_id, frequency)]))
  else if (mismatch_idx =? length child_label)%nat then
    (* C. the label is a prefix of the word *)
    descend child_node (skipn mismatch_idx remaining_word)
  else if (0 <? mismatch_idx)%nat && (mismatch_idx <? length child_label)%nat then
    (* D. divergence and split *)
    let child_label' := skipn mismatch_idx child_label in
    let child_node' := Node child_label' (children child_node)
                         (is_terminal child_node) (inverted_index child_node) in
    bind (first_char child_label') (fun k1 =>
    let new_word_part := skipn mismatch_idx remaining_word in
    let new_node := new_terminal new_word_part doc_id frequency in
    bind (first_char new_word_part) (fun k2 =>
    Returns (Node (firstn mismatch_idx child_label)
               (dict_set k2 new_node (dict_set k1 child_node' []))
               false [])))
  else
    (* no branch applies: the loop repeats with nothing changed *)
    Loops.

(** The loop of [insert], from [current_node] with [remaining_word] left.
    The result is the subtree at [current_node] after the call. *)
Fixpoint insert_from (doc_id frequency : Z) (current_node : TrieNode)
    (remaining_word : str) {struct current_node} : outcome TrieNode :=
  match remaining_word with
  | [] => Returns current_node
  | char :: _ =>
      match dict_with
              (insert_child (insert_from doc_id frequency)
                 remaining_word doc_id frequency)
              char (children current_node) with
      | None =>
          (* case 1: no path *)
          Returns (Node (label current_node)
                     (dict_set char (new_terminal remaining_word doc_id frequency)
                        (children current_node))
                     (is_terminal current_node) (inverted_index current_node))
      | Some r =>
          bind r (fun child' =>
          Returns (Node (label current_node)
                     (dict_set char child' (children current_node))
                     (is_terminal current_node) (inverted_index current_node)))
      end
  end.

(** [CompactTrie.insert(word, doc_id, frequency)]: the trie after the call. *)
Definition insert (self : CompactTrie) (word : str) (doc_id frequency : Z)
    : outcome CompactTrie :=
  bind (insert_from doc_id frequency (root self) word) (fun r =>
  Returns {| root := r |}).

(** The tail of [find]: what is returned once the loop is left at a node. *)
Definition find_end (current_node : TrieNode) : list (Z * Z) :=
  if is_terminal current_node then inverted_index current_node else [].

(** One round of the loop of [find] at the child found under
    [remaining_word[0]]. *)
Definition find_child (descend : TrieNode -> str -> list (Z * Z))
    (remaining_word : str) (child_node : TrieNode) : list (Z * Z) :=
  let child_label := label child_node in
  let mismatch_idx := _find_mismatch_point remaining_word child_label in
  if (mismatch_idx =? length remaining_word)%nat then
    if (mismatch_idx =? length child_label)%nat then find_end child_node
    else []
  else if (mismatch_idx =? length child_label)%nat then
    descend child_node (skipn mismatch_idx remaining_word)
  else [].

(** The loop of [find] from [current_node]. *)
Fixpoint find_from (current_node : TrieNode) (remaining_word : str)
    {struct current_node} : list (Z * Z) :=
  match remaining_word with
  | [] => find_end current_node
  | char :: _ =>
      match dict_with (find_child find_from remaining_word)
              char (children current_node) with
      | None => []
      | Some r => r
      end
  end.

(** [CompactTrie.find(word)] *)
Definition find (self : CompactTrie) (word : str) : list (Z * Z) :=
  find_from (root self) word.

(** A sequence of [insert] calls, one after the other on the same trie. *)
Fixpoint insert_all (self : CompactTrie) (calls : list (str * Z * Z))
    : outcome CompactTrie :=
  match calls with
  | [] => Returns self
  | (word, doc_id, frequency) :: rest =>
      bind (insert self word doc_id frequency) (fun self' =>
      insert_all self' rest)
  end.

(** ** Persistence *)

(** [sorted(keys)] for characters: by code point. *)
Definition char_lt (a b : ascii) : bool := (nat_of_ascii a <? nat_of_ascii b)%nat.

Definition sorted_keys (keys : list ascii) : list ascii :=
  sort_stable (fun k => k) char_lt keys.

(** [";".join([f"{doc},{freq}" for doc, freq in node.inverted_index])] *)
Definition index_str (inverted_index : list (Z * Z)) : str :=
  join (s ";")
    (map (fun '(doc, freq) => str_of_int doc ++ s "," ++ str_of_int freq)
       inverted_index).

(** The line [pre_order_serialize] writes for a node:
    ["label|is_terminal|num_children|inverted_index_string\n"] *)
Definition node_line (node : TrieNode) : str :=
  label node ++ s "|" ++ (if is_terminal node then s "1" else s "0") ++ s "|"
  ++ str_of_int (Z.of_nat (length (children node))) ++ s "|"
  ++ index_str (inverted_index node) ++ [newline].

(** [pre_order_serialize(node, file_handler)]: the lines written, in order,
    by a call that returns. [node.children[char]] cannot miss, [char] being
    one of the keys. *)
Fixpoint pre_order_serialize (node : TrieNode) : list str :=
  node_line node ::
  flat_map (fun char =>
              match dict_with pre_order_serialize char (children node) with
              | Some lines => lines
              | None => []
              end)
           (sorted_keys (dict_keys (children node))).

(** A [for] loop whose rounds write lines and may raise: the lines written,
    and whether every round returned. The loop ends at the first round that
    raises, and what was written until then stays written. *)
Fixpoint write_loop {A} (round : A -> list str * bool) (items : list A)
    : list str * bool :=
  match items with
  | [] => ([], true)
  | item :: rest =>
      let '(lines, returned) := round item in
      if returned then
        let '(more, returned') := write_loop round rest in (lines ++ more, returned')
      else (lines, false)
  end.

(** [pre_order_serialize(node, file_handler)] with room for [depth] nested
    calls: the lines written, and whether the call returned. Where a call
    would nest deeper than the interpreter allows, [RecursionError] is
    raised before the node's line is written and ends every call around
    it. With room enough the lines are those of [pre_order_serialize]. *)
Fixpoint pre_order_serialize_within (depth : nat) (node : TrieNode)
    : list str * bool :=
  match depth with
  | 0 => ([], false)
  | S depth' =>
      let '(lines, returned) :=
        write_loop (fun char =>
                      match dict_get char (children node) with
                      | Some child_node => pre_order_serialize_within depth' child_node
                      | None => ([], true)
                      end)
                   (sorted_keys (dict_keys (children node))) in
      (node_line node :: lines, returned)
  end.

(** [save_to_file(filename)]: the text the file holds afterwards. The
    [except Exception] clause catches a [RecursionError] of
    [pre_order_serialize]; the [with] statement has closed the file by
    then, with the lines written until the error. *)
Definition save_to_file `{Interpreter} (self : CompactTrie) : str :=
  concat (fst (pre_order_serialize_within call_depth (root self))).

(** A [TrieNode] object while [load_from_file] builds the tree: the stack
    and the parents' [children] hold references to the same objects, so a
    child is a position in the heap. *)
Record HeapNode := {
  h_label : str;
  h_children : list (ascii * nat);
  h_is_terminal : bool;
  h_inverted_index : list (Z * Z)
}.

(** The objects allocated so far, and the stack of
    [(parent_node, remaining_children)] with its top first. *)
Record loader := {
  heap : list HeapNode;
  stack : list (nat * Z)
}.

(** The [for item in index_str.split(';')] loop: the postings appended, and
    whether the loop ended without [ValueError]. *)
Fixpoint parse_items (items : list str) : list (Z * Z) * bool :=
  match items with
  | [] => ([], true)
  | item :: rest =>
      match split_on "," item with
      | [doc_str; freq_str] =>
          match int_of_str doc_str, int_of_str freq_str with
          | Returns doc_id, Returns freq =>
              let '(tail, ok) := parse_items rest in ((doc_id, freq) :: tail, ok)
          | _, _ => ([], false)
          end
      | _ => ([], false)
      end
  end.

(** [if index_str: for item in index_str.split(';'): ...] *)
Definition parse_index (index_str : str) : list (Z * Z) * bool :=
  match index_str with
  | [] => ([], true)
  | _ :: _ => parse_items (split_on ";" index_str)
  end.

(** [parent_node.children[key] = new_node] on the heap *)
Definition attach (parent_node : nat) (key : ascii) (new_node : nat)
    (h : list HeapNode) : list HeapNode :=
  match h !! parent_node with
  | Some p =>
      <[parent_node :=
          {| h_label := h_label p;
             h_children := dict_set key new_node (h_children p);
             h_is_terminal := h_is_terminal p;
             h_inverted_index := h_inverted_index p |}]> h
  | None => h
  end.

(** The first line of the file: the root's fields are assigned one by one,
    so a failure leaves the root with what was assigned before it. The
    result is whether the line was accepted. *)
Definition load_root (first_line : str) : bool * loader :=
  match split_on "|" (strip first_line) with
  | [lbl; is_terminal_str; num_children_str; index_str] =>
      let terminal := str_eqb is_terminal_str (s "1") in
      match int_of_str num_children_str with
      | Returns num_children =>
          let '(postings, ok) := parse_index index_str in
          let root_node := {| h_label := lbl; h_children := [];
                              h_is_terminal := terminal;
                              h_inverted_index := postings |} in
          (ok, {| heap := [root_node];
                  stack := if ok && (0 <? num_children)%Z
                           then [(0, num_children)] else [] |})
      | _ =>
          (false, {| heap := [{| h_label := lbl; h_children := [];
                                 h_is_terminal := terminal;
                                 h_inverted_index := [] |}];
                     stack := [] |})
      end
  | _ =>
      (false, {| heap := [{| h_label := []; h_children := [];
                             h_is_terminal := false; h_inverted_index := [] |}];
                 stack := [] |})
  end.

(** One round of the loop over the remaining lines, the stack not being
    empty. Nothing is attached before the last statement that can raise. *)
Definition load_line (st : loader) (line : str) : outcome loader :=
  match stack st with
  | [] => Returns st
  | (parent_node, remaining_children) :: stack_rest =>
      match split_on "|" (strip line) with
      | [lbl; is_terminal_str; num_children_str; index_str] =>
          bind (int_of_str num_children_str) (fun num_children =>
          let '(postings, ok) := parse_index index_str in
          if negb ok then Raises (ValueError (s "invalid literal for int() with base 10"))
          else
          bind (first_char lbl) (fun key =>
          let new_node := length (heap st) in
          let h := heap st ++ [{| h_label := lbl; h_children := [];
                                  h_is_terminal := str_eqb is_terminal_str (s "1");
                                  h_inverted_index := postings |}] in
          let h := attach parent_node key new_node h in
          let remaining_children := (remaining_children - 1)%Z in
          let stk := if (remaining_children =? 0)%Z then stack_rest
                     else (parent_node, remaining_children) :: stack_rest in
          let stk := if (0 <? num_children)%Z then (new_node, num_children) :: stk
                     else stk in
          Returns {| heap := h; stack := stk |}))
      | _ => Raises (ValueError (s "not enough values to unpack"))
      end
  end.

(** The loop [for line in f], left by [break] when the stack is empty. Any
    exception ends the call with [False] and the objects built so far. *)
Fixpoint load_lines (st : loader) (lines : list str) : bool * loader :=
  match lines with
  | [] => (true, st)
  | line :: rest =>
      match stack st with
      | [] => (true, st)
      | _ :: _ =>
          match load_line st line with
          | Returns st' => load_lines st' rest
          | _ => (false, st)
          end
      end
  end.

(** The tree of objects reachable from a position of the heap; [fuel]
    bounds the depth. *)
Fixpoint heap_tree (fuel : nat) (h : list HeapNode) (a : nat) : TrieNode :=
  match fuel with
  | O => new_TrieNode
  | S fuel' =>
      match h !! a with
      | Some n =>
          Node (h_label n)
               (map (fun kc => (fst kc, heap_tree fuel' h (snd kc))) (h_children n))
               (h_is_terminal n) (h_inverted_index n)
      | None => new_TrieNode
      end
  end.

(** [load_from_file(filename)] on a file with the given content ([None]
    when there is no such file): the returned flag and the trie ([self.root]
    is the first object allocated). *)
Definition load_from_file (content : option str) : bool * CompactTrie :=
  match content with
  | None => (false, new_CompactTrie)
  | Some text =>
      match read_lines text with
      | [] => (false, new_CompactTrie)
      | first_line :: rest =>
          let '(ok, st) := load_root first_line in
          let '(ok, st) := if ok then load_lines st rest else (false, st) in
          (ok, {| root := heap_tree (length (heap st)) (heap st) 0 |})
      end
  end.

End CompactTrie.

(* ===================================================================== *)
(** * RI.py *)
(* ===================================================================== *)

Module RI.
Import Py CompactTrie.

(** [OP_PRECEDENCE] *)
Definition OP_PRECEDENCE : list (str * Z) :=
  [(s "OR", 1%Z); (s "AND", 2%Z); (s "(", 0%Z); (s ")", 0%Z)].

(** [token in OP_PRECEDENCE] *)
Definition is_op (token : str) : bool :=
  existsb (fun kv => str_eqb token (fst kv)) OP_PRECEDENCE.

(** [OP_PRECEDENCE.get(token, 0)]; it is [OP_PRECEDENCE[token]] for a key. *)
Definition precedence (token : str) : Z :=
  match List.find (fun kv => str_eqb token (fst kv)) OP_PRECEDENCE with
  | Some kv => snd kv
  | None => 0%Z
  end.

(** An entry of [global_stats]: [{'mu': .., 'sigma': .., 'df': ..}], with
    mu and sigma floats as the indexer computes them. *)
Record TermStats := { mu : float; sigma : float; df : Z }.

(** [class InformationRetriever] once constructed. *)
Record InformationRetriever := {
  trie : CompactTrie;
  global_stats : gmap str TermStats;
  is_ready : bool
}.

(** [_tokenize_query(query)] *)
Definition _tokenize_query (query : str) : list str :=
  let query := replace ")" (s " ) ") (replace "(" (s " ( ") query) in
  let tokens := split_ws query in
  flat_map (fun token =>
              match strip token with
              | [] => []
              | _ :: _ => if is_op token then [token] else [lower token]
              end) tokens.

(** The loop of [_to_rpn] on [')']: operators go to the output until a
    ['('] is on top of the stack. The top of the stack is the list's head. *)
Fixpoint pop_to_lparen (output operator_stack : list str) : list str * list str :=
  match operator_stack with
  | top :: rest =>
      if negb (str_eqb top (s "(")) then pop_to_lparen (output ++ [top]) rest
      else (output, operator_stack)
  | [] => (output, [])
  end.

(** The loop of [_to_rpn] on [AND] or [OR]. *)
Fixpoint pop_higher (token : str) (output operator_stack : list str)
    : list str * list str :=
  match operator_stack with
  | top :: rest =>
      if negb (str_eqb top (s "(")) && (precedence token <=? precedence top)%Z
      then pop_higher token (output ++ [top]) rest
      else (output, operator_stack)
  | [] => (output, [])
  end.

(** One round of the [for] loop of [_to_rpn]. *)
Definition rpn_step (state : list str * list str) (token : str)
    : list str * list str :=
  let '(output, operator_stack) := state in
  if negb (is_op token) then (output ++ [token], operator_stack)
  else if str_eqb token (s "(") then (output, token :: operator_stack)
  else if str_eqb token (s ")") then
    let '(output, operator_stack) := pop_to_lparen output operator_stack in
    match operator_stack with
    | top :: rest => if str_eqb top (s "(") then (output, rest)
                     else (output, operator_stack)
    | [] => (output, [])
    end
  else
    let '(output, operator_stack) := pop_higher token output operator_stack in
    (output, token :: operator_stack).

(** [_to_rpn(tokens)]: the final loop moves the whole stack to the output,
    top first. *)
Definition _to_rpn (tokens : list str) : list str :=
  let '(output, operator_stack) := fold_left rpn_step tokens ([], []) in
  output ++ operator_stack.

(** [{doc_id for doc_id, tf in index_list}] *)
Definition doc_id_set (index_list : list (Z * Z)) : gset Z :=
  list_to_set (map fst index_list).

(** One round of the [for] loop of [_evaluate_rpn]; the top of the operand
    stack is the list's head. Parentheses that reached the postfix sequence
    match no branch and are skipped. *)
Definition eval_step (self : InformationRetriever) (operand_stack : list (gset Z))
    (token : str) : outcome (list (gset Z)) :=
  if negb (is_op token) then
    Returns (doc_id_set (find (trie self) token) :: operand_stack)
  else if str_eqb token (s "AND") then
    match operand_stack with
    | set2 :: set1 :: rest => Returns (set1 ∩ set2 :: rest)
    | _ => Raises (ValueError (s "Consulta AND mal formada."))
    end
  else if str_eqb token (s "OR") then
    match operand_stack with
    | set2 :: set1 :: rest => Returns (set1 ∪ set2 :: rest)
    | _ => Raises (ValueError (s "Consulta OR mal formada."))
    end
  else Returns operand_stack.

Fixpoint eval_loop (self : InformationRetriever) (operand_stack : list (gset Z))
    (rpn_tokens : list str) : outcome (list (gset Z)) :=
  match rpn_tokens with
  | [] => Returns operand_stack
  | token :: rest =>
      bind (eval_step self operand_stack token) (fun operand_stack =>
      eval_loop self operand_stack rest)
  end.

(** The message ["Consulta Booleana inv\u00e1lida."] *)
Definition invalid_query_message : str :=
  s "Consulta Booleana inv" ++ [ascii_of_nat 225] ++ s "lida.".

(** [_evaluate_rpn(rpn_tokens)] *)
Definition _evaluate_rpn (self : InformationRetriever) (rpn_tokens : list str)
    : outcome (gset Z) :=
  bind (eval_loop self [] rpn_tokens) (fun operand_stack =>
  match operand_stack with
  | [result] => Returns result
  | _ => Raises (ValueError invalid_query_message)
  end).

(** [_calculate_z_score(tf, term)] *)
Definition _calculate_z_score (self : InformationRetriever) (tf : Z) (term : str)
    : outcome float :=
  match global_stats self !! term with
  | None => Returns float_zero
  | Some stats =>
      if float_le_int (sigma stats) 0 then
        Returns (if int_gt_float tf (mu stats) then float_one else float_zero)
      else
        bind (int_sub_float tf (mu stats)) (fun diff =>
        float_div diff (sigma stats))
  end.

(** [next((t for d, t in index_list if d == doc_id), 0)] *)
Definition tf_of (index_list : list (Z * Z)) (doc_id : Z) : Z :=
  match List.find (fun dt => (fst dt =? doc_id)%Z) index_list with
  | Some dt => snd dt
  | None => 0%Z
  end.

(** The inner loop of [_rank_results] for one document: the sum of the
    Z-scores and the number of query terms that occur in it. *)
Fixpoint sum_z_scores (self : InformationRetriever) (doc_id : Z)
    (terms : list str) (total_z_score : float) (term_count : Z)
    : outcome (float * Z) :=
  match terms with
  | [] => Returns (total_z_score, term_count)
  | term :: rest =>
      let tf := tf_of (find (trie self) term) doc_id in
      if (0 <? tf)%Z then
        bind (_calculate_z_score self tf term) (fun z_score =>
        sum_z_scores self doc_id rest
          (float_add total_z_score z_score) (term_count + 1)%Z)
      else sum_z_scores self doc_id rest total_z_score term_count
  end.

(** The relevance of one document, [None] when no query term occurs in it. *)
Definition doc_relevance (self : InformationRetriever) (terms : list str)
    (doc_id : Z) : outcome (option float) :=
  bind (sum_z_scores self doc_id terms float_zero 0) (fun '(total, count) =>
  if (0 <? count)%Z then
    bind (float_div_int total count) (fun relevance => Returns (Some relevance))
  else Returns None).

(** The outer loop of [_rank_results]: [ranked_docs] before it is sorted. *)
Fixpoint ranked_docs (self : InformationRetriever) (terms : list str)
    (doc_ids : list Z) : outcome (list (float * Z)) :=
  match doc_ids with
  | [] => Returns []
  | doc_id :: rest =>
      bind (doc_relevance self terms doc_id) (fun r =>
      bind (ranked_docs self terms rest) (fun tail =>
      Returns match r with
              | Some relevance => (relevance, doc_id) :: tail
              | None => tail
              end))
  end.

(** [_load_data(trie_file, stats_file)] on a trie file with the given
    content ([None] when there is no such file) and a stats file from which
    [json.load] reads the given dict ([None] when the file is missing or is
    not JSON): the returned flag, [self.trie] and [self.global_stats]. *)
Definition _load_data (trie_file : option str)
    (stats_file : option (gmap str TermStats))
    : bool * CompactTrie * gmap str TermStats :=
  let '(loaded, trie) := load_from_file trie_file in
  if negb loaded then (false, trie, ∅)
  else match stats_file with
       | Some stats => (true, trie, stats)
       | None => (false, trie, ∅)
       end.

(** [InformationRetriever(trie_file, stats_file)] *)
Definition new_InformationRetriever (trie_file : option str)
    (stats_file : option (gmap str TermStats)) : InformationRetriever :=
  let '(ok, trie, stats) := _load_data trie_file stats_file in
  {| trie := trie; global_stats := stats; is_ready := ok |}.


Section WithSetIteration.
Context `{SetIteration}.

(** [_rank_results(doc_ids, query_terms)] *)
Definition _rank_results (self : InformationRetriever) (doc_ids : gset Z)
    (query_terms : gset str) : outcome (list Z) :=
  bind (ranked_docs self (iter_strs query_terms) (iter_ints doc_ids)) (fun ranked =>
  Returns (map snd (sort_reverse fst float_lt ranked))).

(** [{t for t in tokens if t not in OP_PRECEDENCE}] *)
Definition query_terms_of (tokens : list str) : gset str :=
  list_to_set (filter (fun t => is_op t = false) tokens).

(** [search(query)]: a [ValueError] raised by the pipeline is caught,
    reported on the console and answered with the empty list. *)
Definition search (self : InformationRetriever) (query : str) : outcome (list Z) :=
  if negb (is_ready self) then Returns []
  else
    let tokens := _tokenize_query query in
    let query_terms := query_terms_of tokens in
    let rpn_tokens := _to_rpn tokens in
    except_ValueError
      (bind (_evaluate_rpn self rpn_tokens) (fun matching_doc_ids =>
       if bool_decide (matching_doc_ids = ∅) then Returns []
       else _rank_results self matching_doc_ids query_terms))
      (Returns []).

(** What [search(query)] prints on the console: the line of its [except]
    clause, [f"ERRO DE CONSULTA: {e}"], when a [ValueError] was caught, and
    nothing otherwise. *)
Definition search_prints (self : InformationRetriever) (query : str) : list str :=
  if negb (is_ready self) then []
  else
    let tokens := _tokenize_query query in
    let query_terms := query_terms_of tokens in
    let rpn_tokens := _to_rpn tokens in
    match bind (_evaluate_rpn self rpn_tokens) (fun matching_doc_ids =>
            if bool_decide (matching_doc_ids = ∅) then Returns []
            else _rank_results self matching_doc_ids query_terms) with
    | Raises (ValueError msg) => [s "ERRO DE CONSULTA: " ++ msg]
    | _ => []
    end.

End WithSetIteration.

End RI.


(* ===================================================================== *)
(** * indexer.py *)
(* ===================================================================== *)

Module Indexer.
Import Py CompactTrie.

(** ** dict with keys of any hashable type, in insertion order *)

Section Items.
Context {K V : Type} `{EqDecision K}.

(** [d.get(k)] *)
Fixpoint item_get (k : K) (d : list (K * V)) : option V :=
  match d with
  | [] => None
  | (k', v) :: r => if decide (k = k') then Some v else item_get k r
  end.

(** [d[k] = v]: an existing key keeps its position, a new one goes last *)
Fixpoint item_set (k : K) (v : V) (d : list (K * V)) : list (K * V) :=
  match d with
  | [] => [(k, v)]
  | (k', v') :: r =>
      if decide (k = k') then (k', v) :: r else (k', v') :: item_set k v r
  end.

End Items.

(** ** Text to terms *)

(** A character of the class [[a-z0-9&-]] *)
Definition in_class (c : ascii) : bool :=
  let n := nat_of_ascii c in
  ((97 <=? n) && (n <=? 122) || (48 <=? n) && (n <=? 57)
   || (n =? 38) || (n =? 45))%nat.

(** [re.findall(r'[a-z0-9&-]+', text)]: the maximal runs of characters of
    the class, from left to right. [cur] is the run being read, last
    character first. *)
Fixpoint findall_from (cur : str) (text : str) : list str :=
  match text with
  | [] => match cur with [] => [] | _ :: _ => [rev cur] end
  | c :: r =>
      if in_class c then findall_from (c :: cur) r
      else match cur with
           | [] => findall_from [] r
           | _ :: _ => rev cur :: findall_from [] r
           end
  end.

Definition findall (text : str) : list str := findall_from [] text.

(** [term_frequency[token] += 1] on a [defaultdict(int)] *)
Definition count_token (term_frequency : list (str * Z)) (token : str)
    : list (str * Z) :=
  let count := match item_get token term_frequency with
               | Some n => n
               | None => 0%Z
               end in
  item_set token (count + 1)%Z term_frequency.

(** [_tokenize_and_calculate_tf(text)]: the items of the dict returned, in
    the order of the first occurrence of each term. *)
Definition _tokenize_and_calculate_tf (text : str) : list (str * Z) :=
  let text := lower text in
  let tokens := findall text in
  fold_left count_token tokens [].

(** ** The indexer *)

(** An entry of [raw_stats]: [{'sum_tf': .., 'sum_tf2': .., 'df': ..}] *)
Record RawStats := { sum_tf : Z; sum_tf2 : Z; df : Z }.

(** [class Indexer]: the attributes that change; the paths are those of the
    files of [Disk] and of the corpus. *)
Record Indexer := {
  trie : CompactTrie;
  doc_map : list (Z * str);
  global_stats : gmap str RI.TermStats;
  total_docs : Z
}.

(** [Indexer(corpus_path, ...)] *)
Definition new_Indexer : Indexer :=
  {| trie := new_CompactTrie; doc_map := []; global_stats := ∅; total_docs := 0 |}.

(** The three files of an index. A file that is missing is [None]; the two
    JSON files are given by the object [json.load] reads from them, the map
    as its items in order ([None] also when the text is not JSON). *)
Record Disk := {
  trie_file : option str;
  map_file : option (list (str * str));
  stats_file : option (gmap str RI.TermStats)
}.

(** [{int(k): v for k, v in doc_map_str.items()}]: [None] when some key is
    not the text of an int, [int] raising [ValueError]. *)
Fixpoint int_keys (items : list (str * str)) (acc : list (Z * str))
    : option (list (Z * str)) :=
  match items with
  | [] => Some acc
  | (k, v) :: rest =>
      match int_of_str k with
      | Returns z => int_keys rest (item_set z v acc)
      | _ => None
      end
  end.

(** [_load_or_create_index_data()]: the returned flag and the indexer
    afterwards. The root is replaced by [load_from_file] whether it
    succeeds or not; a dict is empty exactly when it is false. *)
Definition _load_or_create_index_data (self : Indexer) (disk : Disk)
    : bool * Indexer :=
  let '(loaded, trie) := load_from_file (trie_file disk) in
  if loaded then
    let '(doc_map, total_docs) :=
      match map_file disk with
      | Some items =>
          match int_keys items [] with
          | Some doc_map => (doc_map, Z.of_nat (length doc_map))
          | None => (doc_map self, total_docs self)
          end
      | None => (doc_map self, total_docs self)
      end in
    let global_stats :=
      match stats_file disk with
      | Some stats => stats
      | None => global_stats self
      end in
    (negb (bool_decide (doc_map = [])) && negb (bool_decide (global_stats = ∅)),
     {| trie := trie; doc_map := doc_map; global_stats := global_stats;
        total_docs := total_docs |})
  else
    (false, {| trie := trie; doc_map := doc_map self;
               global_stats := global_stats self; total_docs := total_docs self |}).

(** The three statements that update [raw_stats[term]], after the entry
    was created if it was missing. *)
Definition raw_update (raw_stats : list (str * RawStats)) (term : str) (tf : Z)
    : list (str * RawStats) :=
  let old := match item_get term raw_stats with
             | Some r => r
             | None => {| sum_tf := 0; sum_tf2 := 0; df := 0 |}
             end in
  item_set term {| sum_tf := sum_tf old + tf; sum_tf2 := sum_tf2 old + tf ^ 2;
                   df := df old + 1 |} raw_stats.

(** The loop over [term_frequencies.items()] for one document, inside the
    [try]: the flag tells whether the loop ended without an exception; when
    [insert] raises, the file is given up with what was done before. *)
Fixpoint index_terms (doc_id : Z) (items : list (str * Z)) (trie : CompactTrie)
    (raw_stats : list (str * RawStats))
    : outcome (bool * CompactTrie * list (str * RawStats)) :=
  match items with
  | [] => Returns (true, trie, raw_stats)
  | (term, tf) :: rest =>
      match insert trie term doc_id tf with
      | Returns trie' => index_terms doc_id rest trie' (raw_update raw_stats term tf)
      | Raises _ => Returns (false, trie, raw_stats)
      | Loops => Loops
      end
  end.

(** [x.endswith(suffix)] *)
Definition endswith (x suffix : str) : bool :=
  bool_decide (drop (length x - length suffix) x = suffix).

(** A file met by [os.walk]: its name, its path relative to the corpus,
    and its text ([None] when opening or reading it raises). *)
Record CorpusFile := {
  file_name : str;
  relative_path : str;
  content : option str
}.

(** The state of the first pass of [index_corpus]. *)
Record Pass := {
  self : Indexer;
  doc_id_counter : Z;
  raw_stats : list (str * RawStats)
}.

(** One round of the loop over the files. *)
Definition index_file (st : Pass) (file : CorpusFile) : outcome Pass :=
  if negb (endswith (file_name file) (s ".txt")) then Returns st
  else
    let doc_id := doc_id_counter st in
    let doc_map := item_set doc_id (relative_path file) (doc_map (self st)) in
    match content file with
    | None =>
        Returns {| self := {| trie := trie (self st); doc_map := doc_map;
                              global_stats := global_stats (self st);
                              total_docs := total_docs (self st) |};
                   doc_id_counter := doc_id + 1;
                   raw_stats := raw_stats st |}
    | Some text =>
        bind (index_terms doc_id (_tokenize_and_calculate_tf text)
                (trie (self st)) (raw_stats st))
          (fun '(completed, trie, raw_stats) =>
        Returns {| self := {| trie := trie; doc_map := doc_map;
                              global_stats := global_stats (self st);
                              total_docs := if completed then doc_id
                                            else total_docs (self st) |};
                   doc_id_counter := doc_id + 1;
                   raw_stats := raw_stats |})
    end.

(** The first pass: the loop over the files in the order of [os.walk]. *)
Fixpoint index_files (st : Pass) (files : list CorpusFile) : outcome Pass :=
  match files with
  | [] => Returns st
  | file :: rest => bind (index_file st file) (fun st => index_files st rest)
  end.

(** The float arithmetic of the second pass that is left to the platform:
    [a / b] on ints, [x ** 2] and [math.sqrt(x)] on floats. The first two
    raise [OverflowError] when the result is out of range. *)
Class FloatArith := {
  int_truediv : Z -> Z -> outcome float;
  float_square : float -> outcome float;
  float_sqrt : float -> float
}.

(** [x >= z] for a float [x] and an int [z] *)
Definition float_ge_int (x : float) (z : Z) : bool :=
  match int_compare_float z x with Some (Lt | Eq) => true | _ => false end.

Section WithFloatArith.
Context `{FloatArith} `{Interpreter}.

(** The entry of [final_stats] computed from an entry of [raw_stats]; an
    int [0] stands as the float of the same value. *)
Definition final_entry (data : RawStats) : outcome RI.TermStats :=
  if (0 <? df data)%Z then
    bind (int_truediv (sum_tf data) (df data)) (fun mu =>
    bind (int_truediv (sum_tf2 data) (df data)) (fun mean_tf2 =>
    bind (float_square mu) (fun mu2 =>
    let variance := float_sub mean_tf2 mu2 in
    let sigma := if float_ge_int variance 0 then float_sqrt variance
                 else float_zero in
    Returns {| RI.mu := mu; RI.sigma := sigma; RI.df := df data |})))
  else
    Returns {| RI.mu := float_zero; RI.sigma := float_zero; RI.df := df data |}.

(** The loop of [_calculate_and_save_stats] over [raw_stats.items()] *)
Fixpoint final_stats (raw_stats : list (str * RawStats))
    (acc : gmap str RI.TermStats) : outcome (gmap str RI.TermStats) :=
  match raw_stats with
  | [] => Returns acc
  | (term, data) :: rest =>
      bind (final_entry data) (fun entry => final_stats rest (<[term := entry]> acc))
  end.

(** [{str(k): v for k, v in self.doc_map.items()}] *)
Definition str_keys (doc_map : list (Z * str)) : list (str * str) :=
  fold_left (fun acc kv => item_set (str_of_int (fst kv)) (snd kv) acc) doc_map [].

(** [_calculate_and_save_stats(raw_stats)]: the indexer and the files
    afterwards, the writes succeeding. *)
Definition _calculate_and_save_stats (self : Indexer)
    (raw_stats : list (str * RawStats)) : outcome (Indexer * Disk) :=
  bind (final_stats raw_stats ∅) (fun stats =>
  Returns ({| trie := trie self; doc_map := doc_map self; global_stats := stats;
              total_docs := total_docs self |},
           {| trie_file := Some (save_to_file (trie self));
              map_file := Some (str_keys (doc_map self));
              stats_file := Some stats |})).

(** [index_corpus()] over the files of the corpus in the order of
    [os.walk]: the indexer and the files afterwards. *)
Definition index_corpus (self : Indexer) (disk : Disk) (files : list CorpusFile)
    : outcome (Indexer * Disk) :=
  let '(ready, self) := _load_or_create_index_data self disk in
  if ready then Returns (self, disk)
  else
    bind (index_files {| self := self; doc_id_counter := 1; raw_stats := [] |} files)
      (fun st => _calculate_and_save_stats (Indexer.self st) (Indexer.raw_stats st)).

End WithFloatArith.

End Indexer.


(* ===================================================================== *)
(** * app.py *)
(* ===================================================================== *)

Module App.
Import Py.

(** [RESULTS_PER_PAGE] *)
Definition RESULTS_PER_PAGE : Z := 10.

(** An entry of a pagination range: a page number or the string ['...']. *)
Inductive page_item :=
| Page (n : Z)
| Dots.

(** [range(a, b)], as the list of its values *)
Definition range (a b : Z) : list Z :=
  map (fun i => (a + Z.of_nat i)%Z) (seq 0 (Z.to_nat (b - a))).

(** [i in pages] for an int [i]: no int equals a string *)
Definition page_in (i : Z) (pages : list page_item) : bool :=
  existsb (fun p => match p with Page n => (n =? i)%Z | Dots => false end) pages.

(** ['...' in pages] *)
Definition dots_in (pages : list page_item) : bool :=
  existsb (fun p => match p with Page _ => false | Dots => true end) pages.

(** [get_pagination_range(current_page, total_pages, window)]; the route
    calls it with the default window, 2. *)
Definition get_pagination_range (current_page total_pages window : Z)
    : list page_item :=
  if (total_pages <=? 2 * window + 5)%Z then map Page (range 1 (total_pages + 1))
  else
    let pages := if (window + 2 <? current_page)%Z then [Page 1; Dots] else [] in
    let start := Z.max 1 (current_page - window) in
    let end_ := Z.min total_pages (current_page + window) in
    let pages :=
      fold_left (fun pages i => if negb (page_in i pages) then pages ++ [Page i]
                                else pages)
                (range start (end_ + 1)) pages in
    if (current_page <? total_pages - window - 1)%Z then
      if negb (dots_in pages) then pages ++ [Dots; Page total_pages]
      else if negb (page_in total_pages pages) then pages ++ [Page total_pages]
      else pages
    else pages.

(** [l[start:stop]] for ints: a negative index counts from the end, and
    both are brought into the bounds of the list. *)
Definition slice {A} (l : list A) (start stop : Z) : list A :=
  let n := Z.of_nat (length l) in
  let clamp := fun i => if (i <? 0)%Z then Z.max (i + n) 0 else Z.min i n in
  firstn (Z.to_nat (clamp stop - clamp start)) (skipn (Z.to_nat (clamp start)) l).

(** The pagination of the route [search], from the results that have a
    snippet and the page asked for: the results of the page, the number of
    pages and the page links. *)
Definition paginate {A} (valid_results : list A) (page : Z)
    : list A * Z * list page_item :=
  let total_results := Z.of_nat (length valid_results) in
  let total_pages := ((total_results + RESULTS_PER_PAGE - 1) / RESULTS_PER_PAGE)%Z in
  let start_index := ((page - 1) * RESULTS_PER_PAGE)%Z in
  let end_index := (start_index + RESULTS_PER_PAGE)%Z in
  let results_for_page := slice valid_results start_index end_index in
  let pagination_range :=
    if (1 <? total_pages)%Z then get_pagination_range page total_pages 2 else [] in
  (results_for_page, total_pages, pagination_range).

(** The page numbers of a range, and the number of its ['...']. *)
Definition numbers (pages : list page_item) : list Z :=
  flat_map (fun p => match p with Page n => [n] | Dots => [] end) pages.

Definition dots (pages : list page_item) : nat :=
  length (List.filter (fun p => match p with Page _ => false | Dots => true end) pages).

End App.


(* ===================================================================== *)
(** * Vocabulary of the trie properties *)
(* ===================================================================== *)

Module TrieSpec.
Import Py CompactTrie.

(** [w[len(p):]] when [w.startswith(p)] *)
Fixpoint strip_prefix (p w : str) : option str :=
  match p, w with
  | [], _ => Some w
  | a :: p', b :: w' => if Ascii.eqb a b then strip_prefix p' w' else None
  | _ :: _, [] => None
  end.

(** The structural invariant every node below the root keeps: a non-empty
    label, one entry per key, every child stored under the first character
    of its label, and a non-terminal node is a branching point without
    postings. *)
Inductive wf_node : TrieNode -> Prop :=
| wf_node_intro n :
    label n <> [] ->
    NoDup (dict_keys (children n)) ->
    Forall (fun kc => head (label (snd kc)) = Some (fst kc) /\ wf_node (snd kc))
           (children n) ->
    (is_terminal n = false ->
       inverted_index n = [] /\ 2 <= length (children n)) ->
    wf_node n.

(** The children of a node, as [wf_node] wants them. *)
Definition wf_children (cs : list (ascii * TrieNode)) : Prop :=
  NoDup (dict_keys cs) /\
  Forall (fun kc => head (label (snd kc)) = Some (fst kc) /\ wf_node (snd kc)) cs.

(** The invariant of the root: empty label, never terminal, no postings. *)
Definition wf_root (r : TrieNode) : Prop :=
  label r = [] /\ is_terminal r = false /\ inverted_index r = [] /\
  wf_children (children r).

(** The postings recorded for [word] by a sequence of calls, in call order. *)
Fixpoint postings_of (word : str) (calls : list (str * Z * Z)) : list (Z * Z) :=
  match calls with
  | [] => []
  | (w, doc_id, frequency) :: rest =>
      if str_eqb w word then (doc_id, frequency) :: postings_of word rest
      else postings_of word rest
  end.

(** [word] is the term of one of the calls. *)
Definition inserted (word : str) (calls : list (str * Z * Z)) : Prop :=
  exists doc_id frequency, In (word, doc_id, frequency) calls.

(** [p] is a strict prefix of [w]. *)
Definition strict_prefix (p w : str) : Prop :=
  exists rest, rest <> [] /\ w = p ++ rest.

(** The first characters of the labels of a node's children are pairwise
    distinct; a child with an empty label has none. *)
Definition siblings_distinct (cs : list (ascii * TrieNode)) : bool :=
  bool_decide (NoDup (map (fun kc => head (label (snd kc))) cs)).

(** The three structural invariants of the specification, at a node below
    the root and in its whole subtree. *)
Fixpoint node_invariants (n : TrieNode) : bool :=
  negb (bool_decide (label n = []))
  && (is_terminal n || (2 <=? length (children n))%nat)
  && siblings_distinct (children n)
  && forallb (fun kc => node_invariants (snd kc)) (children n).

(** The same for a whole trie; the root is exempt from the label and
    branching conditions. *)
Definition trie_invariants (t : CompactTrie) : bool :=
  siblings_distinct (children (root t))
  && forallb (fun kc => node_invariants (snd kc)) (children (root t)).

(** What [find] returns along the edge into [child]. *)
Definition edge_find (child : TrieNode) (q : str) : list (Z * Z) :=
  match strip_prefix (label child) q with
  | Some rest => find_from child rest
  | None => []
  end.

(** The posting [find] gains for the word just inserted, and for no other. *)
Definition gained (w : str) (d f : Z) (q : str) : list (Z * Z) :=
  if str_eqb q w then [(d, f)] else [].

(** What one [insert] of a non-empty word leaves at the node it started from. *)
Definition insert_post (d f : Z) (n : TrieNode) (w : str) (n' : TrieNode) : Prop :=
  label n' = label n /\ is_terminal n' = is_terminal n /\
  inverted_index n' = inverted_index n /\
  wf_children (children n') /\
  length (children n) <= length (children n') /\
  forall q, find_from n' q = find_from n q ++ gained w d f q.

(** Every terminal node of the subtree holds at least one posting. *)
Inductive occupied : TrieNode -> Prop :=
| occupied_intro n :
    (is_terminal n = true -> inverted_index n <> []) ->
    Forall (fun kc => occupied (snd kc)) (children n) ->
    occupied n.

End TrieSpec.

(* ===================================================================== *)
(** * Vocabulary of the query properties *)
(* ===================================================================== *)

Module QuerySpec.
Import Py CompactTrie RI.

(** A token that is not a key of [OP_PRECEDENCE]: a search term. *)
Definition is_term (token : str) : bool := negb (is_op token).

(** A token that is neither ["("] nor [")"]. *)
Definition not_paren (token : str) : bool :=
  negb (str_eqb token (s "(")) && negb (str_eqb token (s ")")).

(** A character that is neither ['('] nor [')']. *)
Definition plain_char (c : ascii) : bool :=
  negb (Ascii.eqb c "(") && negb (Ascii.eqb c ")").

(** The query with blanks put around every parenthesis, as the two
    [replace] calls of [_tokenize_query] leave it. *)
Definition spaced (query : str) : str :=
  flat_map (fun c => if Ascii.eqb c "(" then s " ( "
                     else if Ascii.eqb c ")" then s " ) " else [c]) query.

(** A token as [split] yields them from a spaced query: not empty, without
    blank, and a parenthesis only when it is nothing else. *)
Definition split_token (t : str) : Prop :=
  t <> [] /\ Forall (fun c => is_space c = false) t /\
  (t = s "(" \/ t = s ")" \/ Forall (fun c => plain_char c = true) t).

(** A token as [_tokenize_query] returns them: a key of [OP_PRECEDENCE], or
    a term that lower-casing leaves as it is. *)
Definition query_token (t : str) : Prop :=
  split_token t /\ (is_op t = true \/ lower t = t).

(** Some query term occurs in the document with a positive frequency. *)
Definition has_query_term (self : InformationRetriever) (terms : list str)
    (doc_id : Z) : bool :=
  existsb (fun term => (0 <? tf_of (find (trie self) term) doc_id)%Z) terms.

(** ** Boolean queries *)

(** A query as the grammar [E := T | E OR T], [T := F | T AND F],
    [F := term | ( E )] reads a token sequence: [AND] binds tighter than
    [OR], both associate to the left, parentheses group. *)
Inductive query :=
| QTerm (t : str)
| QAnd (a b : query)
| QOr (a b : query)
| QParen (q : query).

(** The binding strength of the outermost construct: that of [OR] and
    [AND] in [OP_PRECEDENCE], and 3 for an atom. *)
Definition level (q : query) : Z :=
  match q with
  | QOr _ _ => 1
  | QAnd _ _ => 2
  | QTerm _ | QParen _ => 3
  end.

(** The trees the grammar yields: a term is no key of [OP_PRECEDENCE], the
    right operand of [OR] is no [OR], the left operand of [AND] is no [OR]
    and its right operand is an atom. *)
Fixpoint grammatical (q : query) : bool :=
  match q with
  | QTerm t => negb (is_op t)
  | QAnd a b =>
      grammatical a && grammatical b && (2 <=? level a)%Z && (3 <=? level b)%Z
  | QOr a b => grammatical a && grammatical b && (2 <=? level b)%Z
  | QParen q => grammatical q
  end.

(** The tokens of a query, as written. *)
Fixpoint tokens_of (q : query) : list str :=
  match q with
  | QTerm t => [t]
  | QAnd a b => tokens_of a ++ [s "AND"] ++ tokens_of b
  | QOr a b => tokens_of a ++ [s "OR"] ++ tokens_of b
  | QParen q => [s "("] ++ tokens_of q ++ [s ")"]
  end.

(** The query in postfix notation. *)
Fixpoint postfix (q : query) : list str :=
  match q with
  | QTerm t => [t]
  | QAnd a b => postfix a ++ postfix b ++ [s "AND"]
  | QOr a b => postfix a ++ postfix b ++ [s "OR"]
  | QParen q => postfix q
  end.

(** The documents a query denotes over an index: those listed for a term,
    intersection for [AND], union for [OR]. *)
Fixpoint denote (self : InformationRetriever) (q : query) : gset Z :=
  match q with
  | QTerm t => doc_id_set (find (trie self) t)
  | QAnd a b => denote self a ∩ denote self b
  | QOr a b => denote self a ∪ denote self b
  | QParen q => denote self q
  end.

(** The operator stack does not give way to an operator of strength [l]:
    it is empty, or its top is a left parenthesis or binds less than [l]. *)
Definition stops_at (l : Z) (operator_stack : list str) : Prop :=
  match operator_stack with
  | [] => True
  | top :: _ => top = s "(" \/ (precedence top < l)%Z
  end.

(** Operators waiting on the stack, each [AND] or [OR] and binding at least
    as much as [l]. *)
Definition pending (l : Z) (ops : list str) : Prop :=
  Forall (fun t => (t = s "AND" \/ t = s "OR") /\ (l <= precedence t)%Z) ops.


(** A call that does not raise [ValueError]. *)
Definition no_ValueError {A} (m : outcome A) : Prop :=
  match m with
  | Raises (ValueError _) => False
  | _ => True
  end.

(** The query terms of a token sequence that occur in a document with a
    positive frequency. *)
Definition term_in_doc (self : InformationRetriever) (tokens : list str)
    (doc_id : Z) : Prop :=
  exists term, In term tokens /\ is_op term = false /\
               (0 < tf_of (find (trie self) term) doc_id)%Z.


End QuerySpec.


(* ===================================================================== *)
(** * Vocabulary of the ranking properties *)
(* ===================================================================== *)

Module RankSpec.
Import Py.

(** [a] stands in [l] at some position and [b] at a later one. *)
Fixpoint before {A} (l : list A) (a b : A) : Prop :=
  match l with
  | [] => False
  | x :: r => (x = a /\ In b r) \/ before r a b
  end.

(** A float that is not NaN, placed in a lexicographic order of integer
    triples: sign class, then exponent, then mantissa. *)
Definition float_code (x : float) : Z * Z * Z :=
  match x with
  | S754_nan => (0, 0, 0)
  | S754_infinity true => (-2, 0, 0)
  | S754_infinity false => (2, 0, 0)
  | S754_zero _ => (0, 0, 0)
  | S754_finite true m e => (-1, - e, Z.neg m)
  | S754_finite false m e => (1, e, Z.pos m)
  end%Z.

Definition lex_lt (a b : Z * Z * Z) : Prop :=
  (fst (fst a) < fst (fst b) \/
   (fst (fst a) = fst (fst b) /\
    (snd (fst a) < snd (fst b) \/
     (snd (fst a) = snd (fst b) /\ snd a < snd b))))%Z.

End RankSpec.


(* ===================================================================== *)
(** * Vocabulary of the persistence properties *)
(* ===================================================================== *)

Module PersistSpec.
Import Py CompactTrie TrieSpec.

(** A character a term may hold for its trie to be written and read back:
    not the field separator of a line, and not a blank ([strip] removes
    blanks at the ends of a line, and the line terminator is one). The
    term alphabet [a-z0-9&-] of the data model is within it. *)
Definition serializable_char (c : ascii) : bool :=
  negb (is_space c) && negb (Ascii.eqb c "|").

Definition serializable (w : str) : Prop :=
  Forall (fun c => serializable_char c = true) w.

(** The characters of the term alphabet [a-z0-9&-]. *)
Definition term_char (c : ascii) : bool :=
  let n := nat_of_ascii c in
  ((97 <=? n) && (n <=? 122) || (48 <=? n) && (n <=? 57)
   || (n =? 38) || (n =? 45))%nat.

(** Every label of the subtree is made of characters satisfying [P]. *)
Inductive labels_in (P : ascii -> Prop) : TrieNode -> Prop :=
| labels_in_intro n :
    Forall P (label n) ->
    Forall (fun kc => labels_in P (snd kc)) (children n) ->
    labels_in P n.

(** What writing and reading back needs of a node below the root. *)
Inductive ser_node : TrieNode -> Prop :=
| ser_node_intro n :
    label n <> [] ->
    serializable (label n) ->
    NoDup (dict_keys (children n)) ->
    Forall (fun kc => head (label (snd kc)) = Some (fst kc) /\ ser_node (snd kc))
           (children n) ->
    ser_node n.

Definition ser_children (cs : list (ascii * TrieNode)) : Prop :=
  NoDup (dict_keys cs) /\
  Forall (fun kc => head (label (snd kc)) = Some (fst kc) /\ ser_node (snd kc)) cs.

(** The same tree with the children of every node in ascending key order,
    the order in which they are written. *)
Fixpoint norm (n : TrieNode) : TrieNode :=
  Node (label n)
       (sort_stable fst char_lt
          (map (fun kc => (fst kc, norm (snd kc))) (children n)))
       (is_terminal n) (inverted_index n).

(** The lines of a tree whose children are taken in the order they are
    stored. *)
Fixpoint preorder_lines (n : TrieNode) : list str :=
  node_line n :: flat_map (fun kc => preorder_lines (snd kc)) (children n).

(** The number of nodes on the longest path from a node down to a leaf:
    the nested calls [pre_order_serialize] needs for the tree. *)
Fixpoint height (n : TrieNode) : nat :=
  S (list_max (map (fun kc => height (snd kc)) (children n))).

(** An interpreter with room for a thousand nested calls, the limit CPython
    starts with. *)
Definition ThousandCalls : Interpreter := {| call_depth := 1000 |}.



(** The number of nodes of a tree. *)
Fixpoint size (n : TrieNode) : nat :=
  S (list_sum (map (fun kc => size (snd kc)) (children n))).

(** The references a node holds when its children are allocated one
    subtree after the other from [base]. *)
Fixpoint child_refs (cs : list (ascii * TrieNode)) (base : nat)
    : list (ascii * nat) :=
  match cs with
  | [] => []
  | kc :: r => (fst kc, base) :: child_refs r (base + size (snd kc))
  end.

(** The objects of a tree allocated in pre-order from [base]. *)
Fixpoint alloc_node (n : TrieNode) (base : nat) {struct n} : list HeapNode :=
  {| h_label := label n;
     h_children := child_refs (children n) (S base);
     h_is_terminal := is_terminal n;
     h_inverted_index := inverted_index n |}
  :: (fix forest (cs : list (ascii * TrieNode)) (b : nat) {struct cs} :=
        match cs with
        | [] => []
        | kc :: r => alloc_node (snd kc) b ++ forest r (b + size (snd kc))
        end) (children n) (S base).

Fixpoint alloc_forest (cs : list (ascii * TrieNode)) (base : nat)
    : list HeapNode :=
  match cs with
  | [] => []
  | kc :: r => alloc_node (snd kc) base ++ alloc_forest r (base + size (snd kc))
  end.

(** A character of the text of an int: a digit or the minus sign. *)
Definition int_char (c : ascii) : bool :=
  match digit_value c with Some _ => true | None => Ascii.eqb c "-" end.

(** The text of one posting, of the terminal flag, and of a node's line
    without its terminator. *)
Definition item_text (p : Z * Z) : str :=
  let '(doc, freq) := p in str_of_int doc ++ s "," ++ str_of_int freq.

Definition flag_text (terminal : bool) : str := if terminal then s "1" else s "0".

Definition line_body (n : TrieNode) : str :=
  label n ++ "|"%char :: flag_text (is_terminal n) ++ "|"%char ::
  str_of_int (Z.of_nat (length (children n))) ++ "|"%char ::
  index_str (inverted_index n).

(** The object allocated for a node, with the given references. *)
Definition hnode (n : TrieNode) (refs : list (ascii * nat)) : HeapNode :=
  {| h_label := label n; h_children := refs;
     h_is_terminal := is_terminal n; h_inverted_index := inverted_index n |}.

(** An object with its references replaced. *)
Definition with_children (p : HeapNode) (refs : list (ascii * nat)) : HeapNode :=
  {| h_label := h_label p; h_children := refs;
     h_is_terminal := h_is_terminal p; h_inverted_index := h_inverted_index p |}.

(** The stack after one child of [(p, r)] has been counted. *)
Definition counted (p : nat) (r : Z) (stk : list (nat * Z)) : list (nat * Z) :=
  if (r - 1 =? 0)%Z then stk else (p, (r - 1)%Z) :: stk.

(** Reading the lines of the tree [m] below the object on top of the stack
    allocates [m] in pre-order, attaches it there and counts it. *)
Definition loads (m : TrieNode) : Prop :=
  forall st p r stk key more,
    head (label m) = Some key ->
    stack st = (p, r) :: stk ->
    p < length (heap st) ->
    load_lines st (preorder_lines m ++ more) =
    load_lines
      {| heap := attach p key (length (heap st)) (heap st)
                 ++ alloc_node m (length (heap st));
         stack := counted p r stk |} more.


(** A line [pre_order_serialize] writes for a node below the root. *)
Definition is_node_line (line : str) : Prop :=
  exists m key,
    serializable (label m) /\ head (label m) = Some key /\ line = node_line m.


End PersistSpec.


(* ===================================================================== *)
(** * Vocabulary of the indexing properties *)
(* ===================================================================== *)

Module IndexSpec.
Import Py CompactTrie Indexer.

(** The documents of a corpus: the files whose name ends in [.txt], numbered
    from [first] in the order of the walk, each with its text. *)
Fixpoint numbered (first : Z) (files : list CorpusFile) : list (Z * option str) :=
  match files with
  | [] => []
  | file :: rest =>
      if endswith (file_name file) (s ".txt")
      then (first, content file) :: numbered (first + 1) rest
      else numbered first rest
  end.

(** The number of times a token is in a list. *)
Definition occ (term : str) (tokens : list str) : Z :=
  Z.of_nat (length (List.filter (fun t => bool_decide (t = term)) tokens)).

(** The number of maximal runs of [[a-z0-9&-]] of the lower-cased text that
    are the term. *)
Definition occurrences (term : str) (text : str) : Z :=
  occ term (findall (lower text)).

(** What a document adds to the postings of a term: nothing when it cannot
    be read or does not hold the term, its number and the number of
    occurrences otherwise. *)
Definition doc_posting (term : str) (doc : Z * option str) : list (Z * Z) :=
  match snd doc with
  | Some text =>
      if (0 <? occurrences term text)%Z then [(fst doc, occurrences term text)]
      else []
  | None => []
  end.

(** The postings of a term over the documents, in their order. *)
Definition corpus_postings (term : str) (docs : list (Z * option str))
    : list (Z * Z) :=
  flat_map (doc_posting term) docs.

(** Every term of every readable document of the corpus is shorter than
    [n] characters. *)
Definition terms_shorter (n : nat) (files : list CorpusFile) : bool :=
  forallb (fun doc =>
             match snd doc with
             | Some text => forallb (fun term => length term <? n) (findall (lower text))
             | None => true
             end)
          (numbered 1 files).

(** The sums and the count a posting list gives. *)
Definition stats_of (postings : list (Z * Z)) : option RawStats :=
  match postings with
  | [] => None
  | _ :: _ =>
      Some {| sum_tf := fold_right Z.add 0%Z (map snd postings);
              sum_tf2 := fold_right Z.add 0%Z (map (fun p => snd p ^ 2)%Z postings);
              df := Z.of_nat (length postings) |}
  end.

(** A dict of counts agrees with a list of tokens. *)
Definition counts (term_frequency : list (str * Z)) (tokens : list str) : Prop :=
  NoDup (map fst term_frequency) /\
  forall term,
    item_get term term_frequency =
    if (0 <? occ term tokens)%Z then Some (occ term tokens) else None.

(** What the first pass has reached after some documents, starting from
    the trie [trie0]: the trie is well formed, [find] returns what it
    returned on [trie0] followed by the postings of the documents, and
    [raw_stats] holds their sums and counts. *)
Definition indexed (trie0 : CompactTrie) (docs : list (Z * option str))
    (st : Pass) : Prop :=
  TrieSpec.wf_root (root (trie (self st))) /\
  PersistSpec.labels_in (fun c => PersistSpec.serializable_char c = true)
    (root (trie (self st))) /\
  (forall term,
     find (trie (self st)) term = find trie0 term ++ corpus_postings term docs) /\
  NoDup (map fst (raw_stats st)) /\
  (forall term,
     item_get term (raw_stats st) = stats_of (corpus_postings term docs)).

(** An entry of [raw_stats] after one more document with the term. *)
Definition bump (old : option RawStats) (tf : Z) : RawStats :=
  let r := match old with
           | Some r => r
           | None => {| sum_tf := 0; sum_tf2 := 0; df := 0 |}
           end in
  {| sum_tf := sum_tf r + tf; sum_tf2 := sum_tf2 r + tf ^ 2; df := df r + 1 |}.

(** The [insert] calls of one document. *)
Definition calls_of (doc_id : Z) (items : list (str * Z)) : list (str * Z * Z) :=
  map (fun kv => (fst kv, doc_id, snd kv)) items.

(** The paths of the documents of a corpus under their numbers. *)
Fixpoint numbered_paths (first : Z) (files : list CorpusFile) : list (Z * str) :=
  match files with
  | [] => []
  | file :: rest =>
      if endswith (file_name file) (s ".txt")
      then (first, relative_path file) :: numbered_paths (first + 1) rest
      else numbered_paths first rest
  end.

(** Binary64 arithmetic on which the examples run: the quotient of the
    converted ints, the rounded product and the rounded square root. *)
Definition DoubleArith : FloatArith := {|
  int_truediv := fun a b =>
    bind (float_of_int a) (fun x => bind (float_of_int b) (fun y => float_div x y));
  float_square := fun x => Returns (SFmul prec emax x x);
  float_sqrt := fun x => SFsqrt prec emax x
|}.

(** A corpus of three files: two documents and a file that is none. *)
Definition small_corpus : list CorpusFile :=
  [ {| file_name := s "001.txt"; relative_path := s "rock/001.txt";
       content := Some (s "Rock & roll: rock-n-roll, ROCK!") |};
    {| file_name := s "notes.md"; relative_path := s "notes.md";
       content := Some (s "rock") |};
    {| file_name := s "002.txt"; relative_path := s "jazz/002.txt";
       content := Some (s "Jazz; not rock.") |} ].

(** A disk without any file of an index. *)
Definition empty_disk : Disk :=
  {| trie_file := None; map_file := None; stats_file := None |}.

(** The indexer and the disk after [index_corpus] on that corpus. *)
Definition small_run : outcome (Indexer * Disk) :=
  Eval vm_compute in @index_corpus DoubleArith PersistSpec.ThousandCalls new_Indexer empty_disk small_corpus.

Definition small_indexer : Indexer :=
  match small_run with Returns (self, _) => self | _ => new_Indexer end.

Definition small_disk : Disk :=
  match small_run with Returns (_, disk) => disk | _ => empty_disk end.

(** The disk of that run once the document map is removed, and the
    indexer and the disk after [index_corpus] on the same corpus from it. *)
Definition small_disk_without_map : Disk :=
  {| trie_file := trie_file small_disk; map_file := None;
     stats_file := stats_file small_disk |}.

Definition small_rerun : outcome (Indexer * Disk) :=
  Eval vm_compute in
    @index_corpus DoubleArith PersistSpec.ThousandCalls new_Indexer small_disk_without_map small_corpus.

Definition small_reindexer : Indexer :=
  match small_rerun with Returns (self, _) => self | _ => new_Indexer end.

Definition small_redisk : Disk :=
  match small_rerun with Returns (_, disk) => disk | _ => empty_disk end.

End IndexSpec.


(* ===================================================================== *)
(** * Vocabulary of the properties of tries read from any file *)
(* ===================================================================== *)

Module LoadSpec.
Import Py CompactTrie.

(** Every child in the subtree is stored under the first character of its
    label, unless it has no label. *)
Inductive keyed : TrieNode -> Prop :=
| keyed_intro n :
    Forall (fun kc => (label (snd kc) = [] \/ head (label (snd kc)) = Some (fst kc))
                      /\ keyed (snd kc))
           (children n) ->
    keyed n.

(** The objects of a heap refer to objects allocated after them, each
    under the first character of its label. *)
Definition heap_ok (h : list HeapNode) : Prop :=
  forall a n,
    h !! a = Some n ->
    Forall (fun kc => a < snd kc /\
                      exists m, h !! snd kc = Some m /\
                                head (h_label m) = Some (fst kc))
           (h_children n).

(** A loader whose heap is so, and whose stack refers to objects of it. *)
Definition loader_ok (st : loader) : Prop :=
  heap_ok (heap st) /\ Forall (fun pr => fst pr < length (heap st)) (stack st).

End LoadSpec.


(* ===================================================================== *)
(** * Vocabulary of the properties of the whole system *)
(* ===================================================================== *)

Module SystemSpec.
Import Py QuerySpec IndexSpec.

(** A text satisfies a query: a term when it is one of the maximal runs of
    [[a-z0-9&-]] of the lower-cased text, [AND] as conjunction, [OR] as
    disjunction. *)
Fixpoint satisfies (q : query) (text : str) : bool :=
  match q with
  | QTerm t => (0 <? occurrences t text)%Z
  | QAnd a b => satisfies a text && satisfies b text
  | QOr a b => satisfies a text || satisfies b text
  | QParen q => satisfies q text
  end.

End SystemSpec.

(* ===================================================================== *)
(** * Concrete indexes and iteration orders used by the examples *)
(* ===================================================================== *)

Module Scenario.
Import Py CompactTrie RI.

(** The trie a sequence of [insert] calls builds from the empty one. *)
Definition trie_of (calls : list (str * Z * Z)) : CompactTrie :=
  match insert_all new_CompactTrie calls with
  | Returns t => t
  | _ => new_CompactTrie
  end.

(** A loaded retriever over the given postings and statistics. *)
Definition retriever (calls : list (str * Z * Z))
    (stats : list (str * TermStats)) : InformationRetriever :=
  {| trie := trie_of calls; global_stats := list_to_map stats; is_ready := true |}.

(** Terms [a], [b], [c] in the documents [{1,2,3}], [{2,3,4}], [{3,5}]. *)
Definition abc_index : InformationRetriever :=
  retriever [(s "a", 1, 1); (s "a", 2, 1); (s "a", 3, 1);
             (s "b", 2, 1); (s "b", 3, 1); (s "b", 4, 1);
             (s "c", 3, 1); (s "c", 5, 1)]%Z [].

(** The order of the slots of an 8-slot hash table holding small
    non-negative ints under the hash [z mod 8]: CPython lays out a [set] of
    fewer than five such ints without collision this way, so that
    [list({1, 8})] is [[8, 1]]. *)
Definition slot_le (a b : Z) : Prop :=
  (a mod 8 < b mod 8 \/ (a mod 8 = b mod 8 /\ a <= b))%Z.

#[local] Instance slot_le_dec a b : Decision (slot_le a b).
Proof. unfold slot_le. apply _. Defined.

Definition slot_order (x : gset Z) : list Z := merge_sort slot_le (elements x).

Lemma slot_order_NoDup x : NoDup (slot_order x).
Proof.
  unfold slot_order. rewrite merge_sort_Permutation. apply NoDup_elements.
Qed.

Lemma slot_order_elem x z : z ∈ slot_order x <-> z ∈ x.
Proof.
  unfold slot_order. rewrite merge_sort_Permutation. apply elem_of_elements.
Qed.

Definition SlotIteration : SetIteration := {|
  iter_ints := slot_order;
  iter_strs := elements;
  iter_ints_NoDup := slot_order_NoDup;
  iter_ints_elem := slot_order_elem;
  iter_strs_NoDup := NoDup_elements;
  iter_strs_elem := fun x z => elem_of_elements x z
|}.

(** The float that the decimal [4.0], [3.0], ... of a stats file denotes. *)
Definition float_lit (z : Z) : float := binary_normalize prec emax z 0 false.

(** Term [t] in document 1 with tf 10 and in document 2 with tf 2, with
    mu = 4 and sigma = 3. *)
Definition ranking_index : InformationRetriever :=
  retriever [(s "t", 1, 10); (s "t", 2, 2)]%Z
            [(s "t", {| mu := float_lit 4; sigma := float_lit 3; df := 2 |})].

(** Term [a] twice in each of the documents 1 and 8, with the statistics
    the indexer derives from that: mu = 2, sigma = 0. *)
Definition tie_index : InformationRetriever :=
  retriever [(s "a", 1, 2); (s "a", 8, 2)]%Z
            [(s "a", {| mu := float_lit 2; sigma := float_zero; df := 2 |})].

End Scenario.


(* ===================================================================== *)
(** * Proofs: the compact trie *)
(* ===================================================================== *)

Module TrieProofs.
Import Py CompactTrie TrieSpec.

(** Induction over a node with the hypothesis available at every child. *)
Lemma TrieNode_children_ind (P : TrieNode -> Prop) :
  (forall l cs t ii, Forall (fun kc => P (snd kc)) cs -> P (Node l cs t ii)) ->
  forall n, P n.
Proof.
  intros step. fix IH 1. intros [l cs t ii]. apply step.
  induction cs as [|[k c] r IHr]; constructor; [apply IH | exact IHr].
Qed.

(** ** dict *)

Lemma dict_with_get {V R} (f : V -> R) k d :
  dict_with f k d = option_map f (dict_get k d).
Proof.
  induction d as [|[k' v] r IH]; simpl; [reflexivity|].
  destruct (Ascii.eqb k k'); [reflexivity | exact IH].
Qed.

Lemma dict_get_set_eq {V} k (v : V) d : dict_get k (dict_set k v d) = Some v.
Proof.
  induction d as [|[k' v'] r IH]; simpl.
  - now rewrite Ascii.eqb_refl.
  - destruct (Ascii.eqb k k') eqn:E; simpl; rewrite E; [reflexivity | exact IH].
Qed.

Lemma dict_get_set_ne {V} k k' (v : V) d :
  k <> k' -> dict_get k' (dict_set k v d) = dict_get k' d.
Proof.
  intros Hne. induction d as [|[k0 v0] r IH]; simpl.
  - destruct (Ascii.eqb k' k) eqn:E; [apply Ascii.eqb_eq in E; congruence | reflexivity].
  - destruct (Ascii.eqb k k0) eqn:E; simpl.
    + apply Ascii.eqb_eq in E. subst k0.
      destruct (Ascii.eqb k' k) eqn:E'; [apply Ascii.eqb_eq in E'; congruence | reflexivity].
    + destruct (Ascii.eqb k' k0); [reflexivity | exact IH].
Qed.

Lemma dict_get_None_keys {V} k (d : list (ascii * V)) :
  dict_get k d = None <-> ~ In k (dict_keys d).
Proof.
  induction d as [|[k' v] r IH]; simpl; [tauto|].
  destruct (Ascii.eqb k k') eqn:E.
  - apply Ascii.eqb_eq in E. subst. split; [discriminate | tauto].
  - apply Ascii.eqb_neq in E. rewrite IH. split; [intros H [H1|H1]; [congruence|tauto] | tauto].
Qed.

Lemma dict_get_In {V} k (v : V) d : dict_get k d = Some v -> In (k, v) d.
Proof.
  induction d as [|[k' v'] r IH]; simpl; [discriminate|].
  destruct (Ascii.eqb k k') eqn:E.
  - apply Ascii.eqb_eq in E. intros [= ->]. subst. now left.
  - intros H. right. now apply IH.
Qed.

Lemma dict_keys_set_new {V} k (v : V) d :
  dict_get k d = None -> dict_keys (dict_set k v d) = dict_keys d ++ [k].
Proof.
  induction d as [|[k' v'] r IH]; simpl; [reflexivity|].
  destruct (Ascii.eqb k k') eqn:E; [discriminate|]. intros H. simpl. now rewrite IH.
Qed.

Lemma dict_keys_set_old {V} k (v v0 : V) d :
  dict_get k d = Some v0 -> dict_keys (dict_set k v d) = dict_keys d.
Proof.
  induction d as [|[k' v'] r IH]; simpl; [discriminate|].
  destruct (Ascii.eqb k k') eqn:E; [reflexivity|]. intros H. simpl. now rewrite IH.
Qed.

Lemma dict_set_Forall {V} (P : ascii * V -> Prop) k v d :
  Forall P d -> P (k, v) -> Forall P (dict_set k v d).
Proof.
  intros Hd Hv. induction Hd as [|[k' v'] r Hx Hr IH]; simpl.
  - now constructor.
  - destruct (Ascii.eqb k k') eqn:E.
    + apply Ascii.eqb_eq in E. subst. now constructor.
    + now constructor.
Qed.

Lemma dict_set_length_new {V} k (v : V) d :
  dict_get k d = None -> length (dict_set k v d) = S (length d).
Proof.
  intros H. pose proof (dict_keys_set_new k v d H) as E.
  apply (f_equal (@length _)) in E. unfold dict_keys in E.
  rewrite length_app, !length_map in E. simpl in E. lia.
Qed.

Lemma dict_set_length_old {V} k (v v0 : V) d :
  dict_get k d = Some v0 -> length (dict_set k v d) = length d.
Proof.
  intros H. pose proof (dict_keys_set_old k v v0 d H) as E.
  apply (f_equal (@length _)) in E. unfold dict_keys in E.
  now rewrite !length_map in E.
Qed.

(** ** Common prefixes *)

(** The shape of two strings around their mismatch point. *)
Lemma mismatch_view (w l : str) :
  exists p w' l',
    w = p ++ w' /\ l = p ++ l' /\ _find_mismatch_point w l = length p /\
    match w', l' with
    | a :: _, b :: _ => a <> b
    | _, _ => True
    end.
Proof.
  revert l. induction w as [|a w IH]; intros l.
  - exists [], [], l. simpl. auto.
  - destruct l as [|b l].
    + exists [], (a :: w), []. simpl. auto.
    + simpl. destruct (Ascii.eqb a b) eqn:E.
      * apply Ascii.eqb_eq in E. subst b.
        destruct (IH l) as (p & w' & l' & -> & -> & Hm & Hd).
        exists (a :: p), w', l'. simpl. rewrite Hm. auto.
      * apply Ascii.eqb_neq in E. exists [], (a :: w), (b :: l). simpl. auto.
Qed.

Lemma strip_prefix_app p r : strip_prefix p (p ++ r) = Some r.
Proof.
  induction p as [|a p IH]; simpl; [now destruct r|].
  now rewrite Ascii.eqb_refl.
Qed.

Lemma strip_prefix_Some p w r : strip_prefix p w = Some r -> w = p ++ r.
Proof.
  revert w. induction p as [|a p IH]; intros w; simpl.
  - destruct w; now intros [= ->].
  - destruct w as [|b w]; [discriminate|].
    destruct (Ascii.eqb a b) eqn:E; [|discriminate].
    apply Ascii.eqb_eq in E. subst b. intros H. now rewrite (IH _ H).
Qed.

Lemma strip_prefix_app_l p l w :
  strip_prefix (p ++ l) (p ++ w) = strip_prefix l w.
Proof.
  induction p as [|a p IH]; simpl; [reflexivity|].
  now rewrite Ascii.eqb_refl.
Qed.

Lemma strip_prefix_nil_l w : strip_prefix [] w = Some w.
Proof. now destruct w. Qed.


Lemma strip_prefix_longer p l : l <> [] -> strip_prefix (p ++ l) p = None.
Proof.
  intros Hl. destruct (strip_prefix (p ++ l) p) as [r|] eqn:E; [|reflexivity].
  apply strip_prefix_Some in E. apply (f_equal (@length _)) in E.
  rewrite !length_app in E. destruct l; [contradiction|]. simpl in E. lia.
Qed.

(** ** [find] as a walk along stripped prefixes *)

Lemma find_from_unfold n w :
  find_from n w =
  match w with
  | [] => find_end n
  | c :: _ =>
      match dict_get c (children n) with
      | None => []
      | Some child => find_child find_from w child
      end
  end.
Proof.
  destruct n as [l cs t ii]; destruct w as [|c w]; simpl; [reflexivity|].
  rewrite dict_with_get. now destruct (dict_get c cs).
Qed.

Lemma find_child_spec child w :
  find_child find_from w child =
  match strip_prefix (label child) w with
  | Some rest => find_from child rest
  | None => []
  end.
Proof.
  unfold find_child.
  destruct (mismatch_view w (label child)) as (p & w' & l' & Hw & Hl & Hm & Hd).
  rewrite Hm, Hl, Hw. rewrite !length_app.
  rewrite strip_prefix_app_l, skipn_app, skipn_all, Nat.sub_diag. simpl.
  destruct w' as [|a w'], l' as [|b l']; simpl.
  - rewrite Nat.add_0_r, Nat.eqb_refl. now rewrite find_from_unfold.
  - rewrite Nat.add_0_r, Nat.eqb_refl.
    destruct (Nat.eqb_spec (length p) (length p + S (length l'))); [lia | reflexivity].
  - rewrite Nat.add_0_r, Nat.eqb_refl.
    destruct (Nat.eqb_spec (length p) (length p + S (length w'))); [lia | reflexivity].
  - destruct (Nat.eqb_spec (length p) (length p + S (length w'))); [lia|].
    destruct (Nat.eqb_spec (length p) (length p + S (length l'))); [lia|].
    destruct (Ascii.eqb b a) eqn:E; [|reflexivity].
    apply Ascii.eqb_eq in E. congruence.
Qed.

#[local] Arguments find_from : simpl never.

(** The label of the node [find] starts from plays no part. *)
Lemma find_from_label l l' cs t ii w :
  find_from (Node l cs t ii) w = find_from (Node l' cs t ii) w.
Proof. now rewrite (find_from_unfold (Node l cs t ii)), (find_from_unfold (Node l' cs t ii)). Qed.

Lemma find_from_step n c w :
  find_from n (c :: w) =
  match dict_get c (children n) with
  | None => []
  | Some child =>
      match strip_prefix (label child) (c :: w) with
      | Some rest => find_from child rest
      | None => []
      end
  end.
Proof.
  rewrite find_from_unfold. destruct (dict_get c (children n)); [|reflexivity].
  apply find_child_spec.
Qed.

Lemma strip_prefix_None_app p l q :
  strip_prefix p q = None -> strip_prefix (p ++ l) q = None.
Proof.
  revert q. induction p as [|a p IH]; intros q; simpl.
  - now destruct q.
  - destruct q as [|b q]; [reflexivity|].
    destruct (Ascii.eqb a b); [apply IH | reflexivity].
Qed.

Lemma str_eqb_eq (a b : str) : str_eqb a b = true <-> a = b.
Proof. unfold str_eqb. apply bool_decide_eq_true. Qed.

Lemma str_eqb_refl (a : str) : str_eqb a a = true.
Proof. now apply str_eqb_eq. Qed.

Lemma str_eqb_neq (a b : str) : a <> b -> str_eqb a b = false.
Proof. unfold str_eqb. intros H. now apply bool_decide_eq_false. Qed.

(** ** One round of [insert] at an existing child *)

Lemma insert_from_nil d f n : insert_from d f n [] = Returns n.
Proof. now destruct n. Qed.

Lemma insert_from_unfold d f n c w :
  insert_from d f n (c :: w) =
  match dict_get c (children n) with
  | None =>
      Returns (Node (label n)
                 (dict_set c (new_terminal (c :: w) d f) (children n))
                 (is_terminal n) (inverted_index n))
  | Some child =>
      bind (insert_child (insert_from d f) (c :: w) d f child) (fun child' =>
      Returns (Node (label n) (dict_set c child' (children n))
                 (is_terminal n) (inverted_index n)))
  end.
Proof.
  destruct n as [l cs t ii]; simpl. rewrite dict_with_get.
  now destruct (dict_get c cs).
Qed.

#[local] Arguments insert_from : simpl never.

(** The four cases of the source, and the round that changes nothing, read
    off the shapes of what is left of the word and of the label after their
    common prefix [p]. *)
Lemma insert_child_cases descend w d f child :
  exists p w' l',
    w = p ++ w' /\ label child = p ++ l' /\
    insert_child descend w d f child =
    match w', l' with
    | [], [] =>
        Returns (Node (label child) (children child) true
                   (inverted_index child ++ [(d, f)]))
    | [], b :: _ =>
        Returns (Node w [(b, Node l' (children child) (is_terminal child)
                               (inverted_index child))] true [(d, f)])
    | _ :: _, [] => descend child w'
    | a :: _, b :: _ =>
        match p with
        | [] => Loops
        | _ :: _ =>
            Returns (Node p [(b, Node l' (children child) (is_terminal child)
                                   (inverted_index child));
                             (a, new_terminal w' d f)] false [])
        end
    end /\
    match w', l' with
    | a :: _, b :: _ => a <> b
    | _, _ => True
    end.
Proof.
  destruct (mismatch_view w (label child)) as (p & w' & l' & Hw & Hl & Hm & Hd).
  exists p, w', l'. split; [exact Hw|]. split; [exact Hl|]. split; [|exact Hd].
  unfold insert_child. rewrite Hm, Hl. subst w. rewrite !length_app.
  rewrite !skipn_app, !skipn_all, Nat.sub_diag, firstn_app, firstn_all, Nat.sub_diag.
  simpl. rewrite app_nil_r.
  destruct w' as [|a w'], l' as [|b l']; simpl.
  - rewrite Nat.add_0_r, Nat.eqb_refl. simpl. now rewrite app_nil_r.
  - rewrite Nat.add_0_r, Nat.eqb_refl.
    destruct (Nat.eqb_spec (length p) (length p + S (length l'))); [lia|]. simpl.
    now rewrite app_nil_r.
  - rewrite Nat.add_0_r, Nat.eqb_refl.
    destruct (Nat.eqb_spec (length p) (length p + S (length w'))); [lia|]. reflexivity.
  - destruct (Nat.eqb_spec (length p) (length p + S (length w'))); [lia|].
    destruct (Nat.eqb_spec (length p) (length p + S (length l'))); [lia|]. simpl.
    destruct p as [|x p]; simpl; [reflexivity|].
    destruct (Nat.ltb_spec (S (length p)) (S (length p + S (length l')))); [|lia].
    simpl. destruct (Ascii.eqb a b) eqn:E; [apply Ascii.eqb_eq in E; congruence|].
    reflexivity.
Qed.

(** ** The effect of [insert] on [find], edge by edge *)

Lemma find_from_edge n c q :
  find_from n (c :: q) =
  match dict_get c (children n) with
  | None => []
  | Some child => edge_find child (c :: q)
  end.
Proof. apply find_from_step. Qed.

Lemma find_from_children l l' cs t t' ii ii' c q :
  find_from (Node l cs t ii) (c :: q) = find_from (Node l' cs t' ii') (c :: q).
Proof. now rewrite !find_from_edge. Qed.

Lemma gained_head_ne w d f c q c' :
  c <> c' -> gained (c :: w) d f (c' :: q) = [].
Proof.
  intros H. unfold gained. rewrite str_eqb_neq; [reflexivity | congruence].
Qed.

Lemma gained_app p w d f rest :
  gained (p ++ w) d f (p ++ rest) = gained w d f rest.
Proof.
  unfold gained. destruct (decide (rest = w)) as [->|Hne].
  - now rewrite !str_eqb_refl.
  - rewrite !str_eqb_neq; [reflexivity | exact Hne |].
    intros E. now apply app_inv_head in E.
Qed.

Lemma gained_self p d f rest :
  gained p d f (p ++ rest) = gained [] d f rest.
Proof. rewrite <- (app_nil_r p) at 1. apply gained_app. Qed.

Lemma gained_not_prefix w d f q :
  strip_prefix w q = None -> gained w d f q = [].
Proof.
  intros H. unfold gained. rewrite str_eqb_neq; [reflexivity|].
  intros ->. pose proof (strip_prefix_app w []) as E. rewrite app_nil_r in E. congruence.
Qed.

(** Replacing the child under [c] changes [find] only through that edge. *)
Lemma find_from_replace l cs t ii c child child' w d f :
  dict_get c cs = Some child ->
  (forall q, edge_find child' q = edge_find child q ++ gained (c :: w) d f q) ->
  forall q,
    find_from (Node l (dict_set c child' cs) t ii) q =
    find_from (Node l cs t ii) q ++ gained (c :: w) d f q.
Proof.
  intros Hget Hedge [|c' q].
  - rewrite !find_from_unfold. unfold gained. rewrite str_eqb_neq by discriminate.
    now rewrite app_nil_r.
  - rewrite !find_from_edge. simpl. destruct (decide (c = c')) as [<-|Hne].
    + rewrite dict_get_set_eq, Hget. apply Hedge.
    + rewrite dict_get_set_ne by exact Hne. rewrite gained_head_ne by exact Hne.
      now rewrite app_nil_r.
Qed.

(** Case A: the word ends exactly at the child. *)
Lemma edge_exact w cs t ii d f :
  (t = false -> ii = []) ->
  forall q,
    edge_find (Node w cs true (ii ++ [(d, f)])) q =
    edge_find (Node w cs t ii) q ++ gained w d f q.
Proof.
  intros Hii q. unfold edge_find. simpl.
  destruct (strip_prefix w q) as [rest|] eqn:E.
  - apply strip_prefix_Some in E. subst q.
    rewrite gained_self.
    destruct rest as [|x rest].
    + rewrite !find_from_unfold. unfold find_end, gained. simpl.
      rewrite ?str_eqb_refl. destruct t; [reflexivity|]. now rewrite Hii.
    + rewrite (find_from_children w w cs true t _ ii). unfold gained.
      rewrite ?str_eqb_neq by discriminate. now rewrite app_nil_r.
  - now rewrite gained_not_prefix.
Qed.

(** Case B: the word stops inside the label, which is cut in two. *)
Lemma edge_prefix w b l' cs t ii d f :
  forall q,
    edge_find (Node w [(b, Node (b :: l') cs t ii)] true [(d, f)]) q =
    edge_find (Node (w ++ b :: l') cs t ii) q ++ gained w d f q.
Proof.
  intros q. unfold edge_find. simpl.
  destruct (strip_prefix w q) as [rest|] eqn:E.
  - apply strip_prefix_Some in E. subst q.
    rewrite strip_prefix_app_l, gained_self.
    destruct rest as [|x rest].
    + rewrite find_from_unfold. unfold find_end, gained. simpl.
      rewrite ?str_eqb_refl; reflexivity.
    + rewrite find_from_edge. unfold gained. rewrite ?str_eqb_neq by discriminate.
      rewrite app_nil_r. simpl.
      destruct (Ascii.eqb x b) eqn:Ex.
      * apply Ascii.eqb_eq in Ex. subst x. unfold edge_find. simpl.
        rewrite Ascii.eqb_refl.
        destruct (strip_prefix l' rest); [|reflexivity]. apply find_from_label.
      * rewrite Ascii.eqb_sym, Ex. reflexivity.
  - rewrite strip_prefix_None_app by exact E. now rewrite gained_not_prefix.
Qed.

(** Case C: the word goes on below the child. *)
Lemma edge_descend p w' d f child child' :
  label child = p -> label child' = p ->
  (forall q, find_from child' q = find_from child q ++ gained w' d f q) ->
  forall q, edge_find child' q = edge_find child q ++ gained (p ++ w') d f q.
Proof.
  intros Hl Hl' Hfind q. unfold edge_find. rewrite Hl, Hl'.
  destruct (strip_prefix p q) as [rest|] eqn:E.
  - apply strip_prefix_Some in E. subst q. rewrite gained_app. apply Hfind.
  - rewrite gained_not_prefix; [reflexivity|]. now apply strip_prefix_None_app.
Qed.

(** Case D: word and label part ways inside the label. *)
Lemma edge_split p a w' b l' cs t ii d f :
  a <> b ->
  forall q,
    edge_find (Node p [(b, Node (b :: l') cs t ii);
                       (a, new_terminal (a :: w') d f)] false []) q =
    edge_find (Node (p ++ b :: l') cs t ii) q ++ gained (p ++ a :: w') d f q.
Proof.
  intros Hab q. unfold edge_find. simpl.
  destruct (strip_prefix p q) as [rest|] eqn:E.
  - apply strip_prefix_Some in E. subst q.
    rewrite strip_prefix_app_l, gained_app.
    destruct rest as [|x rest].
    + rewrite find_from_unfold. unfold find_end, gained. simpl.
      rewrite ?str_eqb_neq by discriminate; reflexivity.
    + rewrite find_from_edge. simpl.
      destruct (Ascii.eqb x b) eqn:Ex.
      * apply Ascii.eqb_eq in Ex. subst x. rewrite Ascii.eqb_refl.
        rewrite gained_head_ne by exact Hab. rewrite app_nil_r.
        unfold edge_find. simpl. rewrite Ascii.eqb_refl.
        destruct (strip_prefix l' rest); [|reflexivity]. apply find_from_label.
      * rewrite (Ascii.eqb_sym b x), Ex.
        destruct (Ascii.eqb x a) eqn:Ea.
        -- apply Ascii.eqb_eq in Ea. subst x.
           unfold edge_find, new_terminal. simpl. rewrite Ascii.eqb_refl.
           destruct (strip_prefix w' rest) as [r2|] eqn:E2.
           ++ apply strip_prefix_Some in E2. subst rest.
              rewrite (gained_self (a :: w') d f r2
                         : gained (a :: w') d f (a :: w' ++ r2) = _).
              destruct r2 as [|y r2].
              ** rewrite find_from_unfold. unfold find_end, gained. simpl.
                 rewrite ?str_eqb_refl; reflexivity.
              ** rewrite find_from_edge. simpl. unfold gained.
                 rewrite ?str_eqb_neq by discriminate; reflexivity.
           ++ rewrite gained_not_prefix; [reflexivity|]. simpl.
              now rewrite Ascii.eqb_refl.
        -- apply Ascii.eqb_neq in Ea.
           rewrite gained_head_ne by congruence. reflexivity.
  - rewrite strip_prefix_None_app by exact E.
    rewrite gained_not_prefix; [reflexivity|]. now apply strip_prefix_None_app.
Qed.

(** Case 1: a new leaf under a key the node did not have. *)
Lemma find_from_add l cs t ii c w d f :
  dict_get c cs = None ->
  forall q,
    find_from (Node l (dict_set c (new_terminal (c :: w) d f) cs) t ii) q =
    find_from (Node l cs t ii) q ++ gained (c :: w) d f q.
Proof.
  intros Hget [|c' q].
  - rewrite !find_from_unfold. unfold gained. rewrite ?str_eqb_neq by discriminate.
    now rewrite app_nil_r.
  - rewrite !find_from_edge. simpl. destruct (decide (c = c')) as [<-|Hne].
    + rewrite dict_get_set_eq, Hget. unfold edge_find, new_terminal. simpl.
      rewrite Ascii.eqb_refl.
      destruct (strip_prefix w q) as [rest|] eqn:E.
      * apply strip_prefix_Some in E. subst q.
        rewrite (gained_self (c :: w) d f rest
                 : gained (c :: w) d f (c :: w ++ rest) = _).
        destruct rest as [|x rest].
        -- rewrite find_from_unfold. reflexivity.
        -- rewrite find_from_edge. reflexivity.
      * rewrite gained_not_prefix; [reflexivity|]. simpl. now rewrite Ascii.eqb_refl.
    + rewrite dict_get_set_ne by exact Hne. rewrite gained_head_ne by exact Hne.
      now rewrite app_nil_r.
Qed.

(** ** [insert] keeps the invariant and adds exactly one posting *)

Lemma wf_node_inv n :
  wf_node n ->
  label n <> [] /\ wf_children (children n) /\
  (is_terminal n = false -> inverted_index n = [] /\ 2 <= length (children n)).
Proof. intros H. inversion H; subst. unfold wf_children. auto. Qed.

Lemma wf_children_set_new c child cs :
  wf_children cs -> dict_get c cs = None ->
  head (label child) = Some c -> wf_node child ->
  wf_children (dict_set c child cs).
Proof.
  intros [Hnd Hall] Hget Hhd Hwf. split.
  - rewrite dict_keys_set_new by exact Hget.
    apply NoDup_app. repeat split; [exact Hnd | | apply NoDup_singleton].
    intros x Hx Hx'. apply list_elem_of_In in Hx, Hx'.
    destruct Hx' as [<-|[]]. apply dict_get_None_keys in Hget. contradiction.
  - apply dict_set_Forall; [exact Hall | simpl; auto].
Qed.

Lemma wf_children_set_old c child child0 cs :
  wf_children cs -> dict_get c cs = Some child0 ->
  head (label child) = Some c -> wf_node child ->
  wf_children (dict_set c child cs).
Proof.
  intros [Hnd Hall] Hget Hhd Hwf. split.
  - now rewrite (dict_keys_set_old c child child0 cs Hget).
  - apply dict_set_Forall; [exact Hall | simpl; auto].
Qed.

Lemma wf_children_get c child cs :
  wf_children cs -> dict_get c cs = Some child ->
  head (label child) = Some c /\ wf_node child.
Proof.
  intros [_ Hall] Hget. apply dict_get_In in Hget.
  rewrite List.Forall_forall in Hall. apply (Hall _ Hget).
Qed.

Lemma wf_new_terminal w d f : w <> [] -> wf_node (new_terminal w d f).
Proof.
  intros Hw. constructor; simpl; [exact Hw | constructor | constructor | discriminate].
Qed.

Lemma wf_relabel b l' l cs t ii :
  wf_node (Node l cs t ii) -> wf_node (Node (b :: l') cs t ii).
Proof.
  intros H. apply wf_node_inv in H as (_ & [Hnd Hall] & Ht).
  constructor; simpl; [discriminate | exact Hnd | exact Hall | exact Ht].
Qed.

Lemma insert_from_correct d f n :
  wf_children (children n) ->
  forall w, w <> [] ->
  exists n', insert_from d f n w = Returns n' /\ insert_post d f n w n'.
Proof.
  induction n as [l cs t ii IH] using TrieNode_children_ind.
  intros Hcs [|c w] Hw; [contradiction|]. clear Hw. simpl in Hcs.
  rewrite insert_from_unfold. simpl.
  destruct (dict_get c cs) as [child|] eqn:Hget.
  - destruct (wf_children_get _ _ _ Hcs Hget) as [Hhd Hwf].
    pose proof (wf_node_inv _ Hwf) as (Hlbl & Hkids & Hterm).
    assert (IHc : forall w', w' <> [] ->
              exists n', insert_from d f child w' = Returns n' /\
                         insert_post d f child w' n').
    { rewrite List.Forall_forall in IH. apply dict_get_In in Hget.
      apply (IH _ Hget). exact Hkids. }
    (* every case stores some [child'] under [c]; what is needed of it *)
    assert (Hstore : forall child',
              head (label child') = Some c -> wf_node child' ->
              (forall q, edge_find child' q =
                         edge_find child q ++ gained (c :: w) d f q) ->
              insert_post d f (Node l cs t ii) (c :: w)
                (Node l (dict_set c child' cs) t ii)).
    { intros child' Hhd' Hwf' Hedge. unfold insert_post. simpl.
      repeat split.
      - apply (wf_children_set_old c child' child cs Hcs Hget Hhd' Hwf').
      - apply (wf_children_set_old c child' child cs Hcs Hget Hhd' Hwf').
      - now rewrite (dict_set_length_old c child' child cs Hget).
      - now apply find_from_replace with (child := child). }
    destruct (insert_child_cases (insert_from d f) (c :: w) d f child)
      as (p & w' & l' & Ew & El & Eins & Hd).
    rewrite Eins. clear Eins.
    destruct child as [cl ccs ct cii]. simpl in *.
    (* the common prefix is not empty: the child sits under the word's
       first character *)
    destruct p as [|x p].
    { simpl in Ew, El. subst w' l'. destruct cl as [|y cl]; [contradiction|].
      simpl in Hhd. injection Hhd as ->. contradiction. }
    simpl in Ew. injection Ew as <- Ew.
    destruct w' as [|a w'], l' as [|b l'].
    + (* A *)
      rewrite app_nil_r in Ew, El. subst w cl.
      eexists; split; [reflexivity|]. apply Hstore.
      * reflexivity.
      * constructor; simpl; [discriminate | apply Hkids | apply Hkids | discriminate].
      * apply edge_exact. intros Hf. now apply Hterm.
    + (* B *)
      rewrite app_nil_r in Ew. subst w cl.
      eexists; split; [reflexivity|]. apply Hstore.
      * reflexivity.
      * constructor; simpl.
        -- discriminate.
        -- apply NoDup_singleton.
        -- constructor; [|constructor]. simpl. split; [reflexivity|].
           now apply wf_relabel with (l := (c :: p) ++ b :: l').
        -- discriminate.
      * apply (edge_prefix (c :: p)).
    + (* C *)
      rewrite app_nil_r in El. subst w cl.
      destruct (IHc (a :: w') ltac:(discriminate))
        as (child' & Eq & Hl' & Ht' & Hi' & Hk' & Hlen & Hfind).
      rewrite Eq. simpl in *. eexists; split; [reflexivity|]. apply Hstore.
      * now rewrite Hl'.
      * constructor.
        -- now rewrite Hl'.
        -- apply Hk'.
        -- apply Hk'.
        -- rewrite Ht', Hi'. intros Hf. destruct (Hterm Hf) as [-> Hge]. split; [reflexivity | lia].
      * apply (edge_descend (c :: p) (a :: w') d f (Node (c :: p) ccs ct cii) child');
          [reflexivity | exact Hl' | exact Hfind].
    + (* D *)
      subst w cl.
      eexists; split; [reflexivity|]. apply Hstore.
      * reflexivity.
      * constructor; simpl.
        -- discriminate.
        -- apply NoDup_cons. split; [|apply NoDup_singleton].
           intros Hin. apply list_elem_of_In in Hin. destruct Hin as [->|[]]. contradiction.
        -- constructor; [|constructor; [|constructor]]; simpl.
           ++ split; [reflexivity|].
              now apply wf_relabel with (l := (c :: p) ++ b :: l').
           ++ split; [reflexivity|]. now apply wf_new_terminal.
        -- intros _. split; [reflexivity | lia].
      * apply (edge_split (c :: p) a w' b l'). exact Hd.
  - eexists; split; [reflexivity|]. unfold insert_post. simpl.
    repeat split.
    + apply wf_children_set_new; [exact Hcs | exact Hget | reflexivity |].
      now apply wf_new_terminal.
    + apply wf_children_set_new; [exact Hcs | exact Hget | reflexivity |].
      now apply wf_new_terminal.
    + rewrite (dict_set_length_new c _ cs Hget). lia.
    + now apply find_from_add.
Qed.

(** ** Whole tries and sequences of calls *)

Lemma wf_root_new : wf_root (root new_CompactTrie).
Proof.
  unfold wf_root, wf_children. simpl. repeat split; constructor.
Qed.

Lemma find_nil_root t : wf_root (root t) -> find t [] = [].
Proof.
  intros (_ & Ht & _). unfold find. rewrite find_from_unfold.
  unfold find_end. now rewrite Ht.
Qed.

Lemma insert_nil t d f : insert t [] d f = Returns t.
Proof. unfold insert. rewrite insert_from_nil. now destruct t. Qed.

Lemma insert_correct t w d f :
  wf_root (root t) -> w <> [] ->
  exists t', insert t w d f = Returns t' /\ wf_root (root t') /\
             forall q, find t' q = find t q ++ gained w d f q.
Proof.
  intros (Hl & Ht & Hi & Hk) Hw.
  destruct (insert_from_correct d f (root t) Hk w Hw)
    as (r & Eq & Hl' & Ht' & Hi' & Hk' & _ & Hfind).
  exists {| root := r |}. unfold insert. rewrite Eq. simpl.
  split; [reflexivity|]. split; [|exact Hfind].
  unfold wf_root. simpl. rewrite Hl', Ht', Hi'. auto.
Qed.

Lemma insert_all_correct calls :
  forall t, wf_root (root t) ->
  exists t', insert_all t calls = Returns t' /\ wf_root (root t') /\
             forall q, q <> [] -> find t' q = find t q ++ postings_of q calls.
Proof.
  induction calls as [|[[w d] f] calls IH]; intros t Hwf.
  - exists t. simpl. split; [reflexivity|]. split; [exact Hwf|].
    intros q _. now rewrite app_nil_r.
  - simpl. destruct w as [|c w].
    + rewrite insert_nil. simpl. destruct (IH t Hwf) as (t' & E & Hwf' & Hfind).
      exists t'. split; [exact E|]. split; [exact Hwf'|].
      intros q Hq. rewrite str_eqb_neq by congruence. now apply Hfind.
    + destruct (insert_correct t (c :: w) d f Hwf ltac:(discriminate))
        as (t1 & E1 & Hwf1 & Hfind1).
      rewrite E1. simpl. destruct (IH t1 Hwf1) as (t' & E & Hwf' & Hfind).
      exists t'. split; [exact E|]. split; [exact Hwf'|].
      intros q Hq. rewrite (Hfind q Hq), Hfind1, <- app_assoc. f_equal.
      unfold gained. destruct (decide (q = c :: w)) as [->|Hne].
      * now rewrite !str_eqb_refl.
      * rewrite (str_eqb_neq q) by exact Hne.
        rewrite (str_eqb_neq (c :: w)) by congruence. reflexivity.
Qed.

Lemma find_new q : find new_CompactTrie q = [].
Proof.
  unfold find. rewrite find_from_unfold. destruct q; reflexivity.
Qed.

Lemma postings_of_In w d f calls : In (w, d, f) calls -> In (d, f) (postings_of w calls).
Proof.
  induction calls as [|[[w' d'] f'] calls IH]; simpl; [tauto|].
  intros [E|H].
  - injection E as -> -> ->. rewrite str_eqb_refl. now left.
  - destruct (str_eqb w' w); [right|]; now apply IH.
Qed.

Lemma postings_of_absent w calls : ~ inserted w calls -> postings_of w calls = [].
Proof.
  induction calls as [|[[w' d'] f'] calls IH]; simpl; [reflexivity|].
  intros Hno. destruct (str_eqb w' w) eqn:E.
  - apply str_eqb_eq in E. subst. exfalso. apply Hno. exists d', f'. now left.
  - apply IH. intros (d & f & H). apply Hno. exists d, f. now right.
Qed.

(** ** The invariants as the specification words them *)

Lemma wf_children_distinct cs : wf_children cs -> siblings_distinct cs = true.
Proof.
  intros [Hnd Hall]. unfold siblings_distinct. apply bool_decide_eq_true.
  assert (E : map (fun kc : ascii * TrieNode => head (label (snd kc))) cs
              = map Some (dict_keys cs)).
  { unfold dict_keys. rewrite map_map. apply map_ext_in. intros kc Hin.
    rewrite List.Forall_forall in Hall. apply (Hall _ Hin). }
  rewrite E. apply (NoDup_fmap_2 Some). exact Hnd.
Qed.

Lemma wf_node_invariants n : wf_node n -> node_invariants n = true.
Proof.
  induction n as [l cs t ii IH] using TrieNode_children_ind.
  intros Hwf. apply wf_node_inv in Hwf as (Hl & Hk & Ht). simpl in *.
  rewrite (wf_children_distinct cs Hk).
  assert (Hkids : forallb (fun kc => node_invariants (snd kc)) cs = true).
  { apply forallb_forall. intros kc Hin. destruct Hk as [_ Hall].
    rewrite List.Forall_forall in IH, Hall. apply (IH _ Hin). apply (Hall _ Hin). }
  rewrite Hkids, !andb_true_r.
  apply andb_true_intro. split.
  - apply negb_true_iff. now apply bool_decide_eq_false.
  - destruct t; [reflexivity|]. destruct (Ht eq_refl) as [_ Hge]. clear -Hge.
    destruct cs as [|x [|y r]]; simpl in *; [lia | lia | reflexivity].
Qed.

Lemma wf_root_invariants t : wf_root (root t) -> trie_invariants t = true.
Proof.
  intros (_ & _ & _ & Hk). unfold trie_invariants.
  rewrite (wf_children_distinct _ Hk). simpl.
  apply forallb_forall. intros kc Hin. apply wf_node_invariants.
  destruct Hk as [_ Hall]. rewrite List.Forall_forall in Hall. apply (Hall _ Hin).
Qed.

(** ** The claims on the trie *)

(** C3. After any sequence of [insert] calls with non-empty terms on an
    empty trie, the calls all return and: [find(term)] contains [(d, f)] for
    every inserted triple; [find] of a non-empty term never inserted is
    empty; and [find] of a strict prefix of an inserted term that was not
    itself inserted is empty. *)
Theorem lookup_completeness (calls : list (str * Z * Z)) :
  Forall (fun call => fst (fst call) <> []) calls ->
  exists t,
    insert_all new_CompactTrie calls = Returns t /\
    (forall term d f, In (term, d, f) calls -> In (d, f) (find t term)) /\
    (forall term, term <> [] -> ~ inserted term calls -> find t term = []) /\
    (forall term w, inserted w calls -> strict_prefix term w ->
                    ~ inserted term calls -> find t term = []).
Proof.
  intros Hne.
  destruct (insert_all_correct calls new_CompactTrie wf_root_new)
    as (t & E & Hwf & Hfind).
  exists t. split; [exact E|].
  assert (Habsent : forall term, ~ inserted term calls -> find t term = []).
  { intros [|c term] Hno; [now apply find_nil_root|].
    rewrite Hfind by discriminate. rewrite find_new. simpl.
    now apply postings_of_absent. }
  split; [|split].
  - intros term d f Hin.
    assert (Hterm : term <> []).
    { rewrite List.Forall_forall in Hne. apply (Hne _ Hin). }
    rewrite (Hfind term Hterm), find_new. simpl. now apply postings_of_In.
  - intros term _ Hno. now apply Habsent.
  - intros term w _ _ Hno. now apply Habsent.
Qed.

(** C3 at the two insertions of the specification's first scenario. *)
Lemma lookup_completeness_witness :
  exists t,
    insert_all new_CompactTrie [(s "carro", 1, 3); (s "carga", 2, 1)]%Z = Returns t /\
    (forall term d f,
        In (term, d, f) [(s "carro", 1, 3); (s "carga", 2, 1)]%Z ->
        In (d, f) (find t term)) /\
    (forall term, term <> [] ->
        ~ inserted term [(s "carro", 1, 3); (s "carga", 2, 1)]%Z -> find t term = []) /\
    (forall term w, inserted w [(s "carro", 1, 3); (s "carga", 2, 1)]%Z ->
        strict_prefix term w ->
        ~ inserted term [(s "carro", 1, 3); (s "carga", 2, 1)]%Z -> find t term = []).
Proof.
  apply (lookup_completeness [(s "carro", 1, 3); (s "carga", 2, 1)]%Z).
  repeat constructor; discriminate.
Defined.

(** C4. After any sequence of [insert] calls with non-empty terms on an
    empty trie, no two siblings have labels with the same first character,
    no node below the root has an empty label, and every non-terminal node
    below the root has at least two children. *)
Theorem insert_keeps_invariants (calls : list (str * Z * Z)) :
  Forall (fun call => fst (fst call) <> []) calls ->
  exists t,
    insert_all new_CompactTrie calls = Returns t /\ trie_invariants t = true.
Proof.
  intros _.
  destruct (insert_all_correct calls new_CompactTrie wf_root_new)
    as (t & E & Hwf & _).
  exists t. split; [exact E | now apply wf_root_invariants].
Qed.

(** C4 after the three insertions of the specification's scenarios 1 and 2. *)
Lemma insert_keeps_invariants_witness :
  exists t,
    insert_all new_CompactTrie
      [(s "carro", 1, 3); (s "carga", 2, 1); (s "car", 5, 2)]%Z = Returns t /\
    trie_invariants t = true.
Proof.
  apply (insert_keeps_invariants
           [(s "carro", 1, 3); (s "carga", 2, 1); (s "car", 5, 2)]%Z).
  repeat constructor; discriminate.
Defined.

(** C10. [insert] with the empty term returns and leaves any trie as it was;
    and on every trie built by [insert] calls from an empty one, the root is
    not terminal and [find] of the empty term is the empty list. *)
Theorem empty_term_total :
  (forall t d f, insert t [] d f = Returns t) /\
  (forall calls, exists t,
      insert_all new_CompactTrie calls = Returns t /\
      is_terminal (root t) = false /\ find t [] = []).
Proof.
  split; [apply insert_nil|]. intros calls.
  destruct (insert_all_correct calls new_CompactTrie wf_root_new)
    as (t & E & Hwf & _).
  exists t. split; [exact E|]. split; [apply Hwf | now apply find_nil_root].
Qed.

(** X2. [find] after any sequence of [insert] calls on an empty trie: for
    a non-empty term it is exactly the list of the [(doc_id, frequency)]
    pairs inserted for that term, in call order; a pair inserted twice is
    listed twice, and the calls for other terms leave it alone. *)
Theorem find_returns_postings (calls : list (str * Z * Z)) :
  exists t,
    insert_all new_CompactTrie calls = Returns t /\
    forall term, term <> [] -> find t term = postings_of term calls.
Proof.
  destruct (insert_all_correct calls new_CompactTrie wf_root_new)
    as (t & E & _ & Hfind).
  exists t. split; [exact E|]. intros term Hterm.
  rewrite (Hfind term Hterm), find_new. reflexivity.
Qed.

End TrieProofs.

(* ===================================================================== *)
(** * Proofs: the query pipeline *)
(* ===================================================================== *)

Module QueryProofs.
Import Py CompactTrie RI QuerySpec RankSpec Scenario TrieProofs.

Lemma str_eqb_neq_s (a b : str) : a <> b -> str_eqb a b = false.
Proof. unfold str_eqb. intros Hne. now apply bool_decide_eq_false. Qed.

(** ** The evaluator, one token at a time *)

Lemma eval_step_term self st token :
  is_op token = false ->
  eval_step self st token = Returns (doc_id_set (find (trie self) token) :: st).
Proof. intros H. unfold eval_step. now rewrite H. Qed.

Lemma eval_step_and self set2 set1 rest :
  eval_step self (set2 :: set1 :: rest) (s "AND") = Returns (set1 ∩ set2 :: rest).
Proof. reflexivity. Qed.

Lemma eval_step_or self set2 set1 rest :
  eval_step self (set2 :: set1 :: rest) (s "OR") = Returns (set1 ∪ set2 :: rest).
Proof. reflexivity. Qed.

Lemma eval_step_lparen self st : eval_step self st (s "(") = Returns st.
Proof. reflexivity. Qed.

Lemma eval_step_rparen self st : eval_step self st (s ")") = Returns st.
Proof. reflexivity. Qed.

Lemma eval_loop_app self st pre post :
  eval_loop self st (pre ++ post) =
  bind (eval_loop self st pre) (fun st' => eval_loop self st' post).
Proof.
  revert st. induction pre as [|token pre IH]; intros st; simpl; [reflexivity|].
  destruct (eval_step self st token); simpl; [apply IH | reflexivity | reflexivity].
Qed.

(** ** Parentheses *)

Lemma pop_to_lparen_none output stack :
  Forall (fun t => t <> s "(") stack ->
  pop_to_lparen output stack = (output ++ stack, []).
Proof.
  revert output. induction stack as [|top rest IH]; intros output Hall;
    cbn [pop_to_lparen].
  - now rewrite app_nil_r.
  - inversion Hall as [|? ? Htop Hrest]; subst.
    rewrite (str_eqb_neq_s _ _ Htop). cbn [negb].
    rewrite IH by exact Hrest. now rewrite <- app_assoc.
Qed.

(** C2, as the code has it. Parentheses are not checked for balance: a
    right parenthesis met while the stack holds no left parenthesis moves
    every operator to the output and is dropped; the evaluator skips a
    parenthesis token in the postfix sequence; and the query ["(a OR b"]
    becomes [a b OR (] and evaluates to the union of the documents of [a]
    and of [b]. *)
Theorem unbalanced_parentheses_tolerated :
  (forall output stack,
      Forall (fun t => t <> s "(") stack ->
      rpn_step (output, stack) (s ")") = (output ++ stack, [])) /\
  (forall self st,
      eval_step self st (s "(") = Returns st /\
      eval_step self st (s ")") = Returns st) /\
  _to_rpn (_tokenize_query (s "(a OR b")) = [s "a"; s "b"; s "OR"; s "("] /\
  (forall self,
      _evaluate_rpn self (_to_rpn (_tokenize_query (s "(a OR b")))
      = Returns (doc_id_set (find (trie self) (s "a"))
                 ∪ doc_id_set (find (trie self) (s "b")))).
Proof.
  split; [|split; [|split]].
  - intros output stack Hall. unfold rpn_step.
    change (is_op (s ")")) with true. cbn [negb].
    change (str_eqb (s ")") (s "(")) with false.
    change (str_eqb (s ")") (s ")")) with true. cbn iota.
    now rewrite pop_to_lparen_none.
  - intros self st. split; reflexivity.
  - vm_compute. reflexivity.
  - intros self.
    assert (E : _to_rpn (_tokenize_query (s "(a OR b"))
                = [s "a"; s "b"; s "OR"; s "("]) by (vm_compute; reflexivity).
    rewrite E. unfold _evaluate_rpn. cbn [eval_loop].
    rewrite eval_step_term by reflexivity. cbn [bind].
    rewrite eval_step_term by reflexivity. cbn [bind].
    rewrite eval_step_or. cbn [bind]. rewrite eval_step_lparen. reflexivity.
Qed.

(** C2 as stated fails: on the index with [a] in [{1,2,3}] and [b] in
    [{2,3,4}], the query ["(a OR b"] is evaluated to [{1,2,3,4}] and
    [search] answers with those documents; ["a OR b)"] likewise. *)
Lemma unbalanced_parentheses_accepted :
  _evaluate_rpn abc_index (_to_rpn (_tokenize_query (s "(a OR b")))
    = Returns {[1; 2; 3; 4]}%Z /\
  _evaluate_rpn abc_index (_to_rpn (_tokenize_query (s "a OR b)")))
    = Returns {[1; 2; 3; 4]}%Z /\
  @search SlotIteration abc_index (s "(a OR b") = Returns [1; 2; 3; 4]%Z.
Proof. vm_compute. repeat split; reflexivity. Qed.

(** ** Errors of the evaluator *)

Lemma search_unfold `{SetIteration} self query :
  is_ready self = true ->
  search self query =
  except_ValueError
    (bind (_evaluate_rpn self (_to_rpn (_tokenize_query query)))
       (fun matching_doc_ids =>
          if bool_decide (matching_doc_ids = ∅) then Returns []
          else _rank_results self matching_doc_ids
                 (query_terms_of (_tokenize_query query))))
    (Returns []).
Proof. intros Hready. unfold search. rewrite Hready. reflexivity. Qed.

Lemma search_not_ready `{SetIteration} self query :
  is_ready self = false -> search self query = Returns [].
Proof. intros Hready. unfold search. now rewrite Hready. Qed.

Lemma search_of_ValueError `{SetIteration} self query msg :
  _evaluate_rpn self (_to_rpn (_tokenize_query query)) = Raises (ValueError msg) ->
  search self query = Returns [].
Proof.
  intros E. destruct (is_ready self) eqn:Hready.
  - rewrite search_unfold by exact Hready. now rewrite E.
  - now apply search_not_ready.
Qed.

Lemma eval_step_underflow_message self st op :
  op = s "AND" \/ op = s "OR" -> length st < 2 ->
  eval_step self st op = Raises (ValueError (s "Consulta " ++ op ++ s " mal formada.")).
Proof.
  intros [-> | ->] Hlen; destruct st as [|x [|y st]]; simpl in Hlen; try lia;
    reflexivity.
Qed.

Lemma search_prints_unfold `{SetIteration} self query :
  is_ready self = true ->
  search_prints self query =
  match bind (_evaluate_rpn self (_to_rpn (_tokenize_query query)))
          (fun matching_doc_ids =>
             if bool_decide (matching_doc_ids = ∅) then Returns []
             else _rank_results self matching_doc_ids
                    (query_terms_of (_tokenize_query query))) with
  | Raises (ValueError msg) => [s "ERRO DE CONSULTA: " ++ msg]
  | _ => []
  end.
Proof. intros Hready. unfold search_prints. rewrite Hready. reflexivity. Qed.

(** C6. When the postfix sequence reaches [AND] or [OR] with fewer than two
    operand sets on the stack, [_evaluate_rpn] raises [ValueError] with the
    message of that operator, whatever follows it. [search] on a query with
    such a postfix sequence catches the exception: it prints the message
    behind ["ERRO DE CONSULTA: "] and returns the empty list, which is what
    it returns for a query that matches nothing. [search] leaves the
    retriever as it is, so in a sequence of calls the others return what
    they return without this one. *)
Theorem operator_underflow `{SetIteration} (self : InformationRetriever)
    (pre post : list str) (op : str) (st : list (gset Z)) :
  op = s "AND" \/ op = s "OR" ->
  eval_loop self [] pre = Returns st ->
  length st < 2 ->
  _evaluate_rpn self (pre ++ op :: post)
  = Raises (ValueError (s "Consulta " ++ op ++ s " mal formada.")) /\
  forall query,
    is_ready self = true ->
    _to_rpn (_tokenize_query query) = pre ++ op :: post ->
    search self query = Returns [] /\
    search_prints self query
    = [s "ERRO DE CONSULTA: Consulta " ++ op ++ s " mal formada."] /\
    forall before after,
      map (search self) (before ++ query :: after)
      = map (search self) before ++ Returns [] :: map (search self) after.
Proof.
  intros Hop Hpre Hlen.
  assert (Hraise : _evaluate_rpn self (pre ++ op :: post)
                   = Raises (ValueError (s "Consulta " ++ op ++ s " mal formada."))).
  { unfold _evaluate_rpn. rewrite eval_loop_app, Hpre. cbn [bind eval_loop].
    now rewrite (eval_step_underflow_message self st op Hop Hlen). }
  split; [exact Hraise|].
  intros query Hready Hq. rewrite <- Hq in Hraise.
  assert (Hsearch : search self query = Returns []).
  { rewrite search_unfold by exact Hready. now rewrite Hraise. }
  split; [exact Hsearch|]. split.
  - rewrite search_prints_unfold by exact Hready. now rewrite Hraise.
  - intros before after. rewrite map_app. cbn [map]. now rewrite Hsearch.
Qed.

(** C6 on the query ["a AND"]. *)
Lemma operator_underflow_witness :
  _evaluate_rpn abc_index [s "a"; s "AND"]
  = Raises (ValueError (s "Consulta AND mal formada.")) /\
  @search SlotIteration abc_index (s "a AND") = Returns [] /\
  @search_prints SlotIteration abc_index (s "a AND")
  = [s "ERRO DE CONSULTA: Consulta AND mal formada."] /\
  forall before after,
    map (@search SlotIteration abc_index) (before ++ s "a AND" :: after)
    = map (@search SlotIteration abc_index) before
      ++ Returns [] :: map (@search SlotIteration abc_index) after.
Proof.
  destruct (@operator_underflow SlotIteration abc_index [s "a"] [] (s "AND")
              [doc_id_set (find (trie abc_index) (s "a"))])
    as [Hraise Hquery].
  - left. reflexivity.
  - reflexivity.
  - simpl. lia.
  - split; [exact Hraise|]. apply (Hquery (s "a AND")); reflexivity.
Defined.

(** C6 as stated fails: the error of ["a AND"] does not show in what
    [search] returns. The evaluator raises, and [search] returns the list
    it returns for the term [d], which is in no document and whose
    evaluation raises nothing. *)
Lemma operator_underflow_not_surfaced :
  _evaluate_rpn abc_index (_to_rpn (_tokenize_query (s "a AND")))
  = Raises (ValueError (s "Consulta AND mal formada.")) /\
  _evaluate_rpn abc_index (_to_rpn (_tokenize_query (s "d"))) = Returns ∅ /\
  @search SlotIteration abc_index (s "a AND") = Returns [] /\
  @search SlotIteration abc_index (s "d") = Returns [] /\
  @search_prints SlotIteration abc_index (s "d") = [].
Proof. vm_compute. repeat split; reflexivity. Qed.

(** C9. On a loaded index, a query with no token makes [search] return the
    empty list, by way of an error: the empty postfix sequence leaves no
    set on the operand stack, [_evaluate_rpn] raises [ValueError], and
    [search] catches it, prints the message behind ["ERRO DE CONSULTA: "]
    and returns the empty list. *)
Theorem empty_query `{SetIteration} (self : InformationRetriever) (query : str) :
  is_ready self = true ->
  _tokenize_query query = [] ->
  _evaluate_rpn self (_to_rpn (_tokenize_query query))
  = Raises (ValueError invalid_query_message) /\
  search_prints self query = [s "ERRO DE CONSULTA: " ++ invalid_query_message] /\
  search self query = Returns [].
Proof.
  intros Hready Htok.
  rewrite search_unfold, search_prints_unfold by exact Hready.
  rewrite Htok. repeat split; reflexivity.
Qed.

(** C9 on a query of blanks. *)
Lemma empty_query_witness :
  _evaluate_rpn abc_index (_to_rpn (_tokenize_query (s "   ")))
  = Raises (ValueError invalid_query_message) /\
  @search_prints SlotIteration abc_index (s "   ")
  = [s "ERRO DE CONSULTA: " ++ invalid_query_message] /\
  @search SlotIteration abc_index (s "   ") = Returns [].
Proof.
  apply (@empty_query SlotIteration abc_index (s "   ")); reflexivity.
Defined.

(** C9 as stated fails: the empty query is answered through the error
    path of [search], the evaluator raising and the message being
    printed. *)
Lemma empty_query_is_an_error :
  _evaluate_rpn abc_index (_to_rpn (_tokenize_query (s "")))
  = Raises (ValueError invalid_query_message) /\
  @search_prints SlotIteration abc_index (s "") <> [] /\
  @search_prints SlotIteration abc_index (s "   ") <> [].
Proof. vm_compute. repeat split; discriminate. Qed.

(** ** Z-score *)

Lemma float_one_value : float_one = S754_finite false 4503599627370496 (-52).
Proof. reflexivity. Qed.

Lemma float_le_int_zero_nonzero x :
  float_le_int x 0 = false -> forall sign, x <> S754_zero sign.
Proof. intros H sign ->. discriminate H. Qed.

(** X7. [_calculate_z_score(tf, term)] returns 0.0 when the term has no
    statistics; when [sigma <= 0] it returns 1.0 if [tf > mu] and 0.0
    otherwise, which is never NaN; otherwise it is [(tf - mu) / sigma]: the
    division does not raise, and whenever [tf] converts to a float the result
    is the rounded quotient of the rounded difference. *)
Theorem z_score_cases (self : InformationRetriever) (tf : Z) (term : str) :
  (global_stats self !! term = None ->
     _calculate_z_score self tf term = Returns float_zero) /\
  (forall stats,
     global_stats self !! term = Some stats ->
     float_le_int (sigma stats) 0 = true ->
     exists z,
       _calculate_z_score self tf term = Returns z /\
       z = (if int_gt_float tf (mu stats) then float_one else float_zero) /\
       is_nan z = false) /\
  (forall stats,
     global_stats self !! term = Some stats ->
     float_le_int (sigma stats) 0 = false ->
     _calculate_z_score self tf term
       = bind (int_sub_float tf (mu stats)) (fun diff => float_div diff (sigma stats)) /\
     forall tf_float,
       float_of_int tf = Returns tf_float ->
       _calculate_z_score self tf term
         = Returns (SFdiv prec emax (float_sub tf_float (mu stats)) (sigma stats))).
Proof.
  unfold _calculate_z_score. split; [|split].
  - intros ->. reflexivity.
  - intros stats -> ->. eexists. split; [reflexivity|]. split; [reflexivity|].
    now destruct (int_gt_float tf (mu stats)).
  - intros stats -> Hs. rewrite Hs. split; [reflexivity|].
    intros tf_float Htf. unfold int_sub_float. rewrite Htf. cbn [bind].
    pose proof (float_le_int_zero_nonzero _ Hs) as Hnz.
    unfold float_div. destruct (sigma stats); try reflexivity.
    now destruct (Hnz s0).
Qed.

(** X7 on the ranking scenario of the specification: tf = 10, mu = 4 and
    sigma = 3 give the Z-score 2.0. *)
Lemma z_score_cases_witness :
  _calculate_z_score ranking_index 10 (s "t") = Returns (float_lit 2).
Proof.
  destruct (z_score_cases ranking_index 10 (s "t")) as (_ & _ & Hdiv).
  destruct (Hdiv {| mu := float_lit 4; sigma := float_lit 3; df := 2 |}
              eq_refl eq_refl) as [_ Hq].
  exact (Hq (float_lit 10) eq_refl).
Defined.

(** ** The order of floats *)

Lemma float_lt_code x y :
  is_nan x = false -> is_nan y = false ->
  (float_lt x y = true <-> lex_lt (float_code x) (float_code y)).
Proof.
  unfold float_lt, SFltb, SFcompare, lex_lt.
  destruct x as [sx|sx| |sx mx ex], y as [sy|sy| |sy my ey];
    try discriminate; intros _ _;
    try destruct sx; try destruct sy; cbn [float_code fst snd];
    try (split; [discriminate | lia]);
    try (split; [lia | reflexivity]).
  - change (Pos.compare_cont Eq mx my) with (Pos.compare mx my).
    destruct (Z.compare_spec ex ey); [destruct (Pos.compare_spec mx my)| |];
      cbn [CompOpp]; (split; [try discriminate; lia | try reflexivity; lia]).
  - change (Pos.compare_cont Eq mx my) with (Pos.compare mx my).
    destruct (Z.compare_spec ex ey); [destruct (Pos.compare_spec mx my)| |];
      (split; [try discriminate; lia | try reflexivity; lia]).
Qed.

Lemma float_lt_asym x y : float_lt x y = true -> float_lt y x = false.
Proof.
  intros Hxy.
  destruct (is_nan x) eqn:Hx; [destruct x; discriminate|].
  destruct (is_nan y) eqn:Hy; [destruct x, y; discriminate|].
  apply (float_lt_code x y Hx Hy) in Hxy.
  destruct (float_lt y x) eqn:Hyx; [|reflexivity].
  apply (float_lt_code y x Hy Hx) in Hyx. unfold lex_lt in *. lia.
Qed.

Lemma float_lt_negtrans x y z :
  is_nan x = false -> is_nan y = false -> is_nan z = false ->
  float_lt x y = false -> float_lt y z = false -> float_lt x z = false.
Proof.
  intros Hx Hy Hz Hxy Hyz.
  destruct (float_lt x z) eqn:Hxz; [|reflexivity].
  apply (float_lt_code x z Hx Hz) in Hxz.
  assert (Nxy : ~ lex_lt (float_code x) (float_code y)).
  { intros Hc. apply (float_lt_code x y Hx Hy) in Hc. congruence. }
  assert (Nyz : ~ lex_lt (float_code y) (float_code z)).
  { intros Hc. apply (float_lt_code y z Hy Hz) in Hc. congruence. }
  unfold lex_lt in *. lia.
Qed.

(** ** Positions in a list *)

Lemma before_In {A} (l : list A) a b : before l a b -> In a l /\ In b l.
Proof.
  induction l as [|x r IH]; simpl; [tauto|].
  intros [[-> Hb]|H]; [tauto|]. destruct (IH H). tauto.
Qed.

Lemma before_app {A} (l1 l2 : list A) a b :
  before (l1 ++ l2) a b <->
  before l1 a b \/ before l2 a b \/ (In a l1 /\ In b l2).
Proof.
  induction l1 as [|x r IH]; simpl.
  - tauto.
  - rewrite IH, in_app_iff. tauto.
Qed.

Lemma before_rev {A} (l : list A) a b : before (rev l) a b <-> before l b a.
Proof.
  induction l as [|x r IH]; simpl; [tauto|].
  rewrite before_app, IH. simpl. rewrite <- in_rev. tauto.
Qed.

Lemma before_map {A B} (f : A -> B) (l : list A) c d :
  before (map f l) c d -> exists a b, f a = c /\ f b = d /\ before l a b.
Proof.
  induction l as [|x r IH]; simpl; [tauto|].
  intros [[<- Hd]|H].
  - apply in_map_iff in Hd as (b & <- & Hb). exists x, b. auto.
  - destruct (IH H) as (a & b & Ha & Hb & Hab). exists a, b. auto.
Qed.

(** ** A stable sort keeps ties in place *)

Section StableSort.
Context {A K : Type} (key : A -> K) (lt : K -> K -> bool) (ok : K -> Prop).
Hypothesis lt_asym : forall x y, lt x y = true -> lt y x = false.
Hypothesis lt_negtrans : forall x y z, ok x -> ok y -> ok z ->
  lt x y = false -> lt y z = false -> lt x z = false.

(** Where [sort_insert] puts the new element: after the elements smaller
    than it, before the first that is not. *)
Lemma sort_insert_split x l :
  exists l1 l2,
    l = l1 ++ l2 /\ sort_insert key lt x l = l1 ++ x :: l2 /\
    Forall (fun y => lt (key y) (key x) = true) l1 /\
    match l2 with
    | y :: _ => lt (key y) (key x) = false
    | [] => True
    end.
Proof.
  induction l as [|y r IH]; simpl.
  - exists [], []. simpl. auto.
  - destruct (lt (key y) (key x)) eqn:E.
    + destruct IH as (l1 & l2 & -> & -> & Hall & Hhd).
      exists (y :: l1), l2. simpl. auto.
    + exists [], (y :: r). simpl. auto.
Qed.

Lemma sort_stable_Permutation l : Permutation (sort_stable key lt l) l.
Proof.
  induction l as [|x r IH]; simpl; [constructor|].
  destruct (sort_insert_split x (sort_stable key lt r))
    as (l1 & l2 & E & -> & _).
  rewrite <- IH, E. symmetry. apply Permutation_middle.
Qed.

(** In the ascending sort, a later element is never smaller than an earlier
    one, and two elements that tie keep the order they had. *)
Lemma sort_stable_before l :
  Forall (fun a => ok (key a)) l ->
  forall a b,
    before (sort_stable key lt l) a b ->
    lt (key b) (key a) = false /\
    (lt (key a) (key b) = false -> before l a b).
Proof.
  induction l as [|x r IH]; intros Hok a b; simpl; [tauto|].
  inversion Hok as [|? ? Hx Hr]; subst.
  specialize (IH Hr).
  pose proof (sort_stable_Permutation r) as Hperm.
  assert (Hoks : Forall (fun a => ok (key a)) (sort_stable key lt r)).
  { rewrite List.Forall_forall in *. intros y Hy. apply Hr.
    apply (Permutation_in _ Hperm Hy). }
  destruct (sort_insert_split x (sort_stable key lt r))
    as (l1 & l2 & E & -> & Hsmall & Hhd).
  rewrite E in IH, Hperm, Hoks.
  assert (Hold : before (l1 ++ l2) a b ->
                 lt (key b) (key a) = false /\
                 (lt (key a) (key b) = false -> (x = a /\ In b r) \/ before r a b)).
  { intros Hb. destruct (IH a b Hb) as [H1 H2]. split; [exact H1|]. auto. }
  rewrite before_app. simpl.
  intros [H1 | [[[-> Hb] | H2] | [Ha [-> | Hb]]]].
  - apply Hold. apply before_app. auto.
  - (* the new element stands before [b] *)
    split.
    + destruct l2 as [|y0 l2]; [destruct Hb|].
      apply Forall_app in Hoks as [_ Hoks2].
      rewrite List.Forall_forall in Hoks2.
      destruct Hb as [<- | Hb]; [exact Hhd|].
      apply (lt_negtrans (key b) (key y0) (key a)).
      * apply Hoks2. now right.
      * apply Hoks2. now left.
      * exact Hx.
      * apply (IH y0 b). apply before_app. right. left. simpl. auto.
      * exact Hhd.
    + intros _. left. split; [reflexivity|].
      apply (Permutation_in _ Hperm). apply in_app_iff. auto.
  - apply Hold. apply before_app. auto.
  - (* [a] is one of the smaller elements the new one went past *)
    rewrite List.Forall_forall in Hsmall. specialize (Hsmall a Ha).
    split; [now apply lt_asym | congruence].
  - apply Hold. apply before_app. auto.
Qed.

Lemma sort_reverse_Permutation l : Permutation (sort_reverse key lt l) l.
Proof.
  unfold sort_reverse.
  rewrite <- Permutation_rev, sort_stable_Permutation. symmetry. apply Permutation_rev.
Qed.

(** In the descending sort, a later element is never greater than an
    earlier one, and two elements that tie keep the order they had. *)
Lemma sort_reverse_before l :
  Forall (fun a => ok (key a)) l ->
  forall a b,
    before (sort_reverse key lt l) a b ->
    lt (key a) (key b) = false /\
    (lt (key b) (key a) = false -> before l a b).
Proof.
  intros Hok a b Hb. unfold sort_reverse in Hb.
  apply (proj1 (before_rev _ _ _)) in Hb.
  assert (Hok' : Forall (fun a => ok (key a)) (rev l)).
  { rewrite List.Forall_forall in *. intros y Hy. apply Hok. now apply in_rev. }
  destruct (sort_stable_before (rev l) Hok' b a Hb) as [H1 H2].
  split; [exact H1|]. intros Ht. apply (proj1 (before_rev l b a)). now apply H2.
Qed.

End StableSort.

(** ** Ranking *)

Lemma ranked_docs_spec self terms ids ranked :
  ranked_docs self terms ids = Returns ranked ->
  (forall r d, In (r, d) ranked ->
     In d ids /\ doc_relevance self terms d = Returns (Some r)) /\
  (forall r1 d1 r2 d2, before ranked (r1, d1) (r2, d2) -> before ids d1 d2).
Proof.
  revert ranked. induction ids as [|doc_id rest IH]; intros ranked; simpl.
  - intros [= <-]. simpl. tauto.
  - destruct (doc_relevance self terms doc_id) as [rel| |] eqn:Erel;
      simpl; try discriminate.
    destruct (ranked_docs self terms rest) as [tail| |]; simpl; try discriminate.
    destruct (IH tail eq_refl) as [IHin IHbefore].
    intros [= <-]. destruct rel as [relevance|].
    + split.
      * intros r d [[= <- <-] | Hin]; [auto|].
        destruct (IHin r d Hin). auto.
      * intros r1 d1 r2 d2. simpl. intros [[[= <- <-] Hin] | Hb].
        -- left. split; [reflexivity|]. apply (IHin r2 d2 Hin).
        -- right. now apply (IHbefore r1 d1 r2 d2).
    + split.
      * intros r d Hin. destruct (IHin r d Hin). auto.
      * intros r1 d1 r2 d2 Hb. right. now apply (IHbefore r1 d1 r2 d2).
Qed.

(** X6. The order of the answer. When the boolean filter of [search] yields
    candidates and no relevance is NaN, [search] returns the candidates that
    contain a query term, ordered so that a later one never has a greater
    relevance than an earlier one; two candidates whose relevances tie keep
    the order in which the loop over the candidate set visited them.
    [search] is a function of the index, the query and that order of visit,
    so two runs in which the sets are visited alike return the same list. *)
Theorem ranking_order `{SetIteration} (self : InformationRetriever)
    (query : str) (docs : gset Z) (ranked : list (float * Z)) :
  is_ready self = true ->
  _evaluate_rpn self (_to_rpn (_tokenize_query query)) = Returns docs ->
  docs <> ∅ ->
  ranked_docs self (iter_strs (query_terms_of (_tokenize_query query)))
    (iter_ints docs) = Returns ranked ->
  Forall (fun rd => is_nan (fst rd) = false) ranked ->
  exists sorted,
    search self query = Returns (map snd sorted) /\
    Permutation sorted ranked /\
    (forall r d, In (r, d) sorted ->
       d ∈ docs /\
       doc_relevance self (iter_strs (query_terms_of (_tokenize_query query))) d
         = Returns (Some r)) /\
    (forall r1 d1 r2 d2,
       before sorted (r1, d1) (r2, d2) ->
       float_lt r1 r2 = false /\
       (float_lt r2 r1 = false -> before (iter_ints docs) d1 d2)).
Proof.
  intros Hready Heval Hne Hranked Hnan.
  exists (sort_reverse fst float_lt ranked).
  destruct (ranked_docs_spec _ _ _ _ Hranked) as [Hin Hbefore].
  pose proof (sort_reverse_Permutation fst float_lt ranked) as Hperm.
  split; [|split; [exact Hperm|split]].
  - rewrite search_unfold by exact Hready. rewrite Heval. cbn [bind].
    rewrite bool_decide_eq_false_2 by exact Hne.
    unfold _rank_results. rewrite Hranked. reflexivity.
  - intros r d Hsorted. apply (Permutation_in _ Hperm) in Hsorted.
    destruct (Hin r d Hsorted) as [Hd Hrel]. split; [|exact Hrel].
    apply iter_ints_elem. now apply list_elem_of_In.
  - intros r1 d1 r2 d2 Hb.
    destruct (sort_reverse_before fst float_lt (fun r => is_nan r = false)
                float_lt_asym float_lt_negtrans ranked Hnan _ _ Hb) as [H1 H2].
    split; [exact H1|]. intros Htie. apply (Hbefore r1 d1 r2 d2). now apply H2.
Qed.

(** X6 on the ranking scenario of the specification: documents 1 and 2 with the
    Z-scores 2.0 and -0.666..., returned as [[1; 2]]. *)
Lemma ranking_order_witness :
  exists sorted,
    @search SlotIteration ranking_index (s "t") = Returns (map snd sorted) /\
    Permutation sorted
      [(float_lit 2, 1%Z); (S754_finite true 6004799503160661 (-53), 2%Z)] /\
    (forall r d, In (r, d) sorted ->
       d ∈ ({[1; 2]}%Z : gset Z) /\
       doc_relevance ranking_index
         (@iter_strs SlotIteration (query_terms_of (_tokenize_query (s "t")))) d
         = Returns (Some r)) /\
    (forall r1 d1 r2 d2,
       before sorted (r1, d1) (r2, d2) ->
       float_lt r1 r2 = false /\
       (float_lt r2 r1 = false ->
        before (@iter_ints SlotIteration ({[1; 2]}%Z : gset Z)) d1 d2)).
Proof.
  apply (@ranking_order SlotIteration ranking_index (s "t") {[1; 2]}%Z
           [(float_lit 2, 1%Z); (S754_finite true 6004799503160661 (-53), 2%Z)]).
  - reflexivity.
  - vm_compute. reflexivity.
  - intros E. apply (f_equal elements) in E. vm_compute in E. discriminate E.
  - vm_compute. reflexivity.
  - repeat constructor.
Defined.

(** Ties do not follow the document number. Term [a] occurs twice in
    document 1 and twice in document 8, so both have the relevance 0.0; the
    candidate set [{1, 8}]
    is visited in the order 8, 1 of its hash slots, and [search] returns the
    tie in that order, document 8 before document 1. *)
Lemma ties_not_by_doc_id :
  @search SlotIteration tie_index (s "a") = Returns [8; 1]%Z /\
  doc_relevance tie_index [s "a"] 8 = Returns (Some float_zero) /\
  doc_relevance tie_index [s "a"] 1 = Returns (Some float_zero).
Proof. vm_compute. repeat split; reflexivity. Qed.

(** ** What the shunting-yard keeps *)

Lemma pop_to_lparen_split output stack :
  exists moved kept,
    stack = moved ++ kept /\ pop_to_lparen output stack = (output ++ moved, kept) /\
    match kept with
    | top :: _ => top = s "("
    | [] => True
    end.
Proof.
  revert output. induction stack as [|top rest IH]; intros output; cbn [pop_to_lparen].
  - exists [], []. rewrite !app_nil_r. auto.
  - destruct (str_eqb top (s "(")) eqn:E; cbn [negb].
    + exists [], (top :: rest). rewrite !app_nil_r. apply str_eqb_eq in E. auto.
    + destruct (IH (output ++ [top])) as (moved & kept & -> & -> & Hk).
      exists (top :: moved), kept. rewrite <- app_assoc. auto.
Qed.

Lemma pop_higher_split token output stack :
  exists moved kept,
    stack = moved ++ kept /\ pop_higher token output stack = (output ++ moved, kept).
Proof.
  revert output. induction stack as [|top rest IH]; intros output; cbn [pop_higher].
  - exists [], []. rewrite !app_nil_r. auto.
  - destruct (negb (str_eqb top (s "(")) && (precedence token <=? precedence top)%Z).
    + destruct (IH (output ++ [top])) as (moved & kept & -> & ->).
      exists (top :: moved), kept. rewrite <- app_assoc. auto.
    + exists [], (top :: rest). rewrite !app_nil_r. auto.
Qed.

(** What one token does to the output and the stack: a term joins the
    output, a left parenthesis the stack; a right parenthesis moves the
    operators above the nearest left parenthesis to the output and takes
    that parenthesis away; [AND] and [OR] move some operators and join the
    stack. *)
Lemma rpn_step_shape output stack token :
  exists moved kept,
    stack = moved ++ kept /\
    rpn_step (output, stack) token =
    (if negb (is_op token) then (output ++ [token], stack)
     else if str_eqb token (s "(") then (output, token :: stack)
     else if str_eqb token (s ")") then
       (output ++ moved, match kept with _ :: rest => rest | [] => [] end)
     else (output ++ moved, token :: kept)) /\
    (str_eqb token (s ")") = true ->
     match kept with top :: _ => top = s "(" | [] => True end).
Proof.
  unfold rpn_step.
  destruct (pop_to_lparen_split output stack) as (moved & kept & E & Ep & Hk).
  destruct (pop_higher_split token output stack) as (moved' & kept' & E' & Ep').
  rewrite Ep, Ep'.
  destruct (str_eqb token (s ")")) eqn:Er.
  - exists moved, kept. split; [exact E|]. split; [|auto].
    destruct (negb (is_op token)); [reflexivity|].
    destruct (str_eqb token (s "(")); [reflexivity|].
    destruct kept as [|top rest]; [reflexivity|]. subst top. reflexivity.
  - exists moved', kept'. split; [exact E'|]. split; [|discriminate].
    destruct (negb (is_op token)); [reflexivity|].
    destruct (str_eqb token (s "(")); reflexivity.
Qed.

Lemma is_term_op token : is_op token = true -> is_term token = false.
Proof. unfold is_term. now intros ->. Qed.

Lemma filter_terms_ops l :
  Forall (fun t => is_op t = true) l -> List.filter is_term l = [].
Proof.
  induction 1 as [|t l Ht Hl IH]; [reflexivity|].
  cbn [List.filter]. now rewrite (is_term_op t Ht).
Qed.

Lemma op_cases token :
  is_op token = true ->
  token = s "OR" \/ token = s "AND" \/ token = s "(" \/ token = s ")".
Proof.
  unfold is_op, OP_PRECEDENCE. cbn [existsb fst]. intros H.
  repeat (apply orb_true_iff in H as [H|H]; [apply str_eqb_eq in H; auto|]).
  discriminate.
Qed.

Lemma term_not_paren token : is_op token = false -> not_paren token = true.
Proof.
  intros H. unfold not_paren.
  destruct (str_eqb token (s "(")) eqn:E1; [apply str_eqb_eq in E1; subst; discriminate|].
  destruct (str_eqb token (s ")")) eqn:E2; [apply str_eqb_eq in E2; subst; discriminate|].
  reflexivity.
Qed.

Lemma not_paren_filter_lparen rest :
  List.filter not_paren (s "(" :: rest) = List.filter not_paren rest.
Proof. reflexivity. Qed.

Lemma filter_single {A} (f : A -> bool) x :
  List.filter f [x] = if f x then [x] else [].
Proof. reflexivity. Qed.

Lemma filter_cons_false {A} (f : A -> bool) x l :
  f x = false -> List.filter f (x :: l) = List.filter f l.
Proof. intros H. cbn [List.filter]. now rewrite H. Qed.

Lemma filter_cons_true {A} (f : A -> bool) x l :
  f x = true -> List.filter f (x :: l) = x :: List.filter f l.
Proof. intros H. cbn [List.filter]. now rewrite H. Qed.

(** One round of [_to_rpn], seen on the output followed by the stack. *)
Lemma rpn_step_keeps output stack token output' stack' :
  Forall (fun t => is_op t = true) stack ->
  rpn_step (output, stack) token = (output', stack') ->
  Forall (fun t => is_op t = true) stack' /\
  List.filter is_term output' = List.filter is_term output ++ List.filter is_term [token] /\
  Permutation (List.filter not_paren (output' ++ stack'))
              (List.filter not_paren (output ++ stack) ++ List.filter not_paren [token]) /\
  (forall x, In x (output' ++ stack') ->
             In x (output ++ stack) \/ (x = token /\ x <> s ")")).
Proof.
  intros Hops Hstep.
  destruct (rpn_step_shape output stack token) as (moved & kept & E & Eq & Hk).
  rewrite Hstep in Eq. subst stack.
  apply Forall_app in Hops as [Hmoved Hkept].
  rewrite !filter_single.
  assert (Hterms : List.filter is_term moved = []) by now apply filter_terms_ops.
  destruct (is_op token) eqn:Hop; cbn [negb] in Eq.
  - rewrite (is_term_op token Hop).
    destruct (str_eqb token (s "(")) eqn:Hl.
    { (* left parenthesis *)
      injection Eq as -> ->. apply str_eqb_eq in Hl. subst token.
      split; [constructor; [reflexivity | now apply Forall_app]|].
      split; [now rewrite app_nil_r|]. split.
      - change (not_paren (s "(")) with false. rewrite app_nil_r.
        rewrite (List.filter_app _ output (s "(" :: moved ++ kept)).
        rewrite (filter_cons_false not_paren (s "(") (moved ++ kept) eq_refl).
        now rewrite <- List.filter_app.
      - intros x Hx. apply in_app_iff in Hx as [Hx | [<- | Hx]].
        + left. apply in_app_iff. auto.
        + right. split; [reflexivity | discriminate].
        + left. apply in_app_iff. auto. }
    destruct (str_eqb token (s ")")) eqn:Hr.
    { (* right parenthesis *)
      injection Eq as -> ->. apply str_eqb_eq in Hr. subst token.
      specialize (Hk eq_refl). change (not_paren (s ")")) with false.
      rewrite !app_nil_r.
      destruct kept as [|top rest].
      - split; [constructor|]. rewrite List.filter_app, Hterms, !app_nil_r.
        auto.
      - subst top. inversion Hkept as [|? ? _ Hrest]; subst.
        split; [exact Hrest|]. rewrite List.filter_app, Hterms, !app_nil_r.
        split; [reflexivity|]. split.
        + rewrite !List.filter_app.
          rewrite (filter_cons_false not_paren (s "(") rest eq_refl).
          now rewrite app_assoc.
        + intros x Hx. left. rewrite !in_app_iff in *. simpl. tauto. }
    (* AND, OR *)
    injection Eq as -> ->.
    assert (Hnp : not_paren token = true).
    { unfold not_paren. now rewrite Hl, Hr. }
    rewrite Hnp.
    split; [constructor; assumption|]. rewrite List.filter_app, Hterms, !app_nil_r.
    split; [reflexivity|]. split.
    + rewrite !List.filter_app. rewrite (filter_cons_true not_paren token kept Hnp).
      rewrite <- !app_assoc. apply Permutation_app_head, Permutation_app_head.
      apply Permutation_cons_append.
    + intros x Hx. rewrite !in_app_iff in *. simpl in Hx.
      destruct Hx as [[Hx|Hx] | [<- | Hx]]; auto.
      right. split; [reflexivity|]. intros ->. discriminate Hr.
  - (* a term *)
    injection Eq as -> ->. unfold is_term at 3. rewrite Hop. cbn [negb].
    rewrite (term_not_paren token Hop).
    split; [now apply Forall_app|]. rewrite List.filter_app, filter_single.
    unfold is_term at 2. rewrite Hop. cbn [negb]. split; [reflexivity|]. split.
    + rewrite !List.filter_app, filter_single, (term_not_paren token Hop).
      rewrite <- !app_assoc. apply Permutation_app_head.
      etransitivity; [apply Permutation_app_comm|]. now rewrite <- app_assoc.
    + intros x Hx. rewrite !in_app_iff in *. simpl in Hx.
      destruct Hx as [[Hx|[<-|[]]] | Hx]; auto.
      right. split; [reflexivity|]. intros ->. discriminate Hop.
Qed.

Lemma rpn_fold_keeps tokens :
  forall output stack output' stack',
    Forall (fun t => is_op t = true) stack ->
    fold_left rpn_step tokens (output, stack) = (output', stack') ->
    List.filter is_term output' = List.filter is_term output ++ List.filter is_term tokens /\
    Forall (fun t => is_op t = true) stack' /\
    Permutation (List.filter not_paren (output' ++ stack'))
                (List.filter not_paren (output ++ stack) ++ List.filter not_paren tokens) /\
    (forall x, In x (output' ++ stack') ->
               In x (output ++ stack) \/ (In x tokens /\ x <> s ")")).
Proof.
  induction tokens as [|token rest IH]; intros output stack output' stack' Hops.
  - cbn [fold_left]. intros [= <- <-]. rewrite !app_nil_r. auto.
  - cbn [fold_left].
    destruct (rpn_step (output, stack) token) as [o1 s1] eqn:Estep.
    destruct (rpn_step_keeps _ _ _ _ _ Hops Estep) as (Hops1 & Ht1 & Hp1 & Hin1).
    intros Hfold. destruct (IH _ _ _ _ Hops1 Hfold) as (Ht & Hops' & Hp & Hin).
    change (token :: rest) with ([token] ++ rest).
    rewrite (List.filter_app is_term [token] rest).
    rewrite (List.filter_app not_paren [token] rest).
    split; [|split; [exact Hops'|split]].
    + rewrite Ht, Ht1, <- app_assoc. reflexivity.
    + rewrite Hp, Hp1, <- app_assoc. reflexivity.
    + intros x Hx. destruct (Hin x Hx) as [H1 | [H1 H2]].
      * destruct (Hin1 x H1) as [H3 | [-> H3]]; [auto|]. right. split; [now left | exact H3].
      * right. split; [now right | exact H2].
Qed.

(** X5. The shunting-yard loses and invents nothing but parentheses: the
    terms of the postfix sequence are the terms of the input, in the same
    order; its tokens other than parentheses are a rearrangement of those of
    the input, so every [AND] and [OR] is kept; and no right parenthesis
    reaches the postfix sequence. *)
Theorem to_rpn_keeps_tokens (tokens : list str) :
  List.filter is_term (_to_rpn tokens) = List.filter is_term tokens /\
  Permutation (List.filter not_paren (_to_rpn tokens)) (List.filter not_paren tokens) /\
  ~ In (s ")") (_to_rpn tokens).
Proof.
  unfold _to_rpn.
  destruct (fold_left rpn_step tokens ([], [])) as [output stack] eqn:E.
  destruct (rpn_fold_keeps tokens [] [] output stack ltac:(constructor) E)
    as (Hterms & Hops & Hperm & Hin).
  split; [|split].
  - rewrite List.filter_app, Hterms, (filter_terms_ops stack Hops), app_nil_r.
    reflexivity.
  - exact Hperm.
  - intros Hr. destruct (Hin _ Hr) as [[] | [_ Hne]]. now apply Hne.
Qed.

(** ** The shunting-yard on the query grammar *)

Lemma precedence_and : precedence (s "AND") = 2%Z.
Proof. reflexivity. Qed.

Lemma precedence_or : precedence (s "OR") = 1%Z.
Proof. reflexivity. Qed.

Lemma rpn_step_term output stack token :
  is_op token = false -> rpn_step (output, stack) token = (output ++ [token], stack).
Proof. intros H. unfold rpn_step. now rewrite H. Qed.

Lemma rpn_step_lparen output stack :
  rpn_step (output, stack) (s "(") = (output, s "(" :: stack).
Proof. reflexivity. Qed.

Lemma rpn_step_rparen output stack :
  rpn_step (output, stack) (s ")") =
  let '(output, operator_stack) := pop_to_lparen output stack in
  match operator_stack with
  | top :: rest => if str_eqb top (s "(") then (output, rest)
                   else (output, operator_stack)
  | [] => (output, [])
  end.
Proof. reflexivity. Qed.

Lemma rpn_step_and output stack :
  rpn_step (output, stack) (s "AND") =
  let '(output, operator_stack) := pop_higher (s "AND") output stack in
  (output, s "AND" :: operator_stack).
Proof. reflexivity. Qed.

Lemma rpn_step_or output stack :
  rpn_step (output, stack) (s "OR") =
  let '(output, operator_stack) := pop_higher (s "OR") output stack in
  (output, s "OR" :: operator_stack).
Proof. reflexivity. Qed.

Lemma stops_at_mono l l' stack : (l <= l')%Z -> stops_at l stack -> stops_at l' stack.
Proof.
  intros Hl. destruct stack as [|top rest]; [auto|]. simpl.
  intros [H|H]; [now left | right; lia].
Qed.

Lemma pending_mono l l' ops : (l <= l')%Z -> pending l' ops -> pending l ops.
Proof.
  intros Hl. unfold pending. apply List.Forall_impl. intros t [H1 H2].
  split; [exact H1 | lia].
Qed.

Lemma pending_not_lparen l ops :
  pending l ops -> Forall (fun t => str_eqb t (s "(") = false) ops.
Proof.
  unfold pending. apply List.Forall_impl. intros t [[-> | ->] _]; reflexivity.
Qed.

Lemma pop_higher_pending token ops :
  forall output stack,
    pending (precedence token) ops ->
    stops_at (precedence token) stack ->
    pop_higher token output (ops ++ stack) = (output ++ ops, stack).
Proof.
  induction ops as [|t ops IH]; intros output stack Hp Hs.
  - rewrite app_nil_r. cbn [app]. destruct stack as [|top rest]; [reflexivity|].
    cbn [pop_higher]. destruct Hs as [-> | Hlt].
    + reflexivity.
    + replace (precedence token <=? precedence top)%Z with false
        by (symmetry; apply Z.leb_gt; exact Hlt).
      now rewrite andb_false_r.
  - apply Forall_cons_1 in Hp as [[Ht Hle] Hp]. cbn [app pop_higher].
    replace (str_eqb t (s "(")) with false by (destruct Ht as [-> | ->]; reflexivity).
    replace (precedence token <=? precedence t)%Z with true
      by (symmetry; apply Z.leb_le; exact Hle).
    cbn [negb andb]. rewrite (IH (output ++ [t]) stack Hp Hs), <- app_assoc.
    reflexivity.
Qed.

Lemma pop_to_lparen_pending ops :
  forall output stack,
    Forall (fun t => str_eqb t (s "(") = false) ops ->
    pop_to_lparen output (ops ++ s "(" :: stack) = (output ++ ops, s "(" :: stack).
Proof.
  induction ops as [|t ops IH]; intros output stack Hp.
  - rewrite app_nil_r. reflexivity.
  - apply Forall_cons_1 in Hp as [Ht Hp]. cbn [app pop_to_lparen].
    rewrite Ht. cbn [negb]. rewrite (IH (output ++ [t]) stack Hp), <- app_assoc.
    reflexivity.
Qed.

(** Reading the tokens of a query moves its postfix form to the output,
    but for the operators still waiting on the stack above what was there. *)
Lemma rpn_fold_query q :
  grammatical q = true ->
  forall output stack,
    stops_at (level q) stack ->
    exists moved ops,
      fold_left rpn_step (tokens_of q) (output, stack) = (output ++ moved, ops ++ stack) /\
      moved ++ ops = postfix q /\ pending (level q) ops.
Proof.
  induction q as [t | a IHa b IHb | a IHa b IHb | q IH]; cbn [grammatical];
    intros Hg output stack Hs.
  - apply negb_true_iff in Hg. exists [t], [].
    cbn [tokens_of fold_left postfix app]. rewrite (rpn_step_term _ _ _ Hg).
    split; [reflexivity|]. split; [reflexivity | constructor].
  - apply andb_true_iff in Hg as [Hg Hlb]. apply andb_true_iff in Hg as [Hg Hla].
    apply andb_true_iff in Hg as [Hga Hgb].
    apply Z.leb_le in Hla, Hlb. cbn [level] in Hs.
    destruct (IHa Hga output stack (stops_at_mono 2 _ _ Hla Hs))
      as (ma & pa & Ea & Epa & Hpa).
    cbn [tokens_of]. rewrite !fold_left_app, Ea. cbn [fold_left].
    rewrite rpn_step_and, (pop_higher_pending (s "AND") pa);
      [|apply (pending_mono _ (level a)); [rewrite precedence_and; exact Hla | exact Hpa]
       |rewrite precedence_and; exact Hs].
    destruct (IHb Hgb (output ++ ma ++ pa) (s "AND" :: stack)) as (mb & pb & Eb & Epb & Hpb).
    { right. rewrite precedence_and. lia. }
    exists ((ma ++ pa) ++ mb), (pb ++ [s "AND"]).
    rewrite <- !app_assoc in *. cbn [app] in *. split; [exact Eb|]. split.
    + cbn [postfix]. rewrite <- Epa, <- Epb, <- !app_assoc. reflexivity.
    + apply Forall_app. split.
      * apply (pending_mono _ (level b)); [cbn [level]; lia | exact Hpb].
      * constructor; [|constructor]. split; [now left | rewrite precedence_and; cbn; lia].
  - apply andb_true_iff in Hg as [Hg Hlb]. apply andb_true_iff in Hg as [Hga Hgb].
    apply Z.leb_le in Hlb. cbn [level] in Hs.
    assert (Hla : (1 <= level a)%Z) by (destruct a; cbn; lia).
    destruct (IHa Hga output stack (stops_at_mono 1 _ _ Hla Hs))
      as (ma & pa & Ea & Epa & Hpa).
    cbn [tokens_of]. rewrite !fold_left_app, Ea. cbn [fold_left].
    rewrite rpn_step_or, (pop_higher_pending (s "OR") pa);
      [|apply (pending_mono _ (level a)); [rewrite precedence_or; exact Hla | exact Hpa]
       |rewrite precedence_or; exact Hs].
    destruct (IHb Hgb (output ++ ma ++ pa) (s "OR" :: stack)) as (mb & pb & Eb & Epb & Hpb).
    { right. rewrite precedence_or. lia. }
    exists ((ma ++ pa) ++ mb), (pb ++ [s "OR"]).
    rewrite <- !app_assoc in *. cbn [app] in *. split; [exact Eb|]. split.
    + cbn [postfix]. rewrite <- Epa, <- Epb, <- !app_assoc. reflexivity.
    + apply Forall_app. split.
      * apply (pending_mono _ (level b)); [cbn [level]; lia | exact Hpb].
      * constructor; [|constructor]. split; [now right | rewrite precedence_or; cbn; lia].
  - cbn [tokens_of app fold_left]. rewrite rpn_step_lparen, fold_left_app.
    destruct (IH Hg output (s "(" :: stack)) as (m & p & E & Ep & Hp); [now left|].
    rewrite E. cbn [fold_left]. rewrite rpn_step_rparen.
    rewrite (pop_to_lparen_pending p _ _ (pending_not_lparen _ _ Hp)).
    rewrite str_eqb_refl. exists (m ++ p), []. rewrite <- app_assoc.
    split; [reflexivity|]. split; [now rewrite app_nil_r | constructor].
Qed.

Lemma to_rpn_query q : grammatical q = true -> _to_rpn (tokens_of q) = postfix q.
Proof.
  intros Hg. unfold _to_rpn.
  destruct (rpn_fold_query q Hg [] []) as (m & p & E & Ep & _); [exact I|].
  rewrite E, app_nil_r. exact Ep.
Qed.

Lemma eval_postfix self q :
  grammatical q = true ->
  forall st, eval_loop self st (postfix q) = Returns (denote self q :: st).
Proof.
  induction q as [t | a IHa b IHb | a IHa b IHb | q IH]; cbn [grammatical];
    intros Hg st.
  - apply negb_true_iff in Hg. cbn [postfix eval_loop denote].
    now rewrite (eval_step_term _ _ _ Hg).
  - apply andb_true_iff in Hg as [Hg _]. apply andb_true_iff in Hg as [Hg _].
    apply andb_true_iff in Hg as [Hga Hgb].
    cbn [postfix denote]. rewrite eval_loop_app, (IHa Hga). cbn [bind].
    rewrite eval_loop_app, (IHb Hgb). reflexivity.
  - apply andb_true_iff in Hg as [Hg _]. apply andb_true_iff in Hg as [Hga Hgb].
    cbn [postfix denote]. rewrite eval_loop_app, (IHa Hga). cbn [bind].
    rewrite eval_loop_app, (IHb Hgb). reflexivity.
  - cbn [postfix denote]. now apply IH.
Qed.

(** C7. [AND] binds tighter than [OR], whichever comes first, and
    parentheses override it. For any three terms: [a AND b OR c] becomes
    the postfix sequence [a b AND c OR] and evaluates to the documents of
    [a] and [b] together with those of [c]; [a OR b AND c] becomes
    [a b c AND OR], the documents of [a] together with those of both [b]
    and [c]; [a AND ( b OR c )] becomes [a b c OR AND] and
    [( a OR b ) AND c] becomes [a b OR c AND]. With the terms found in the
    documents [{1,2,3}], [{2,3,4}], [{3,5}], the query ["a AND b OR c"]
    evaluates to [{2,3,5}] and ["a AND (b OR c)"] to [{2,3}]; and
    [a OR b AND c] evaluates to [{1,2,3}], where [( a OR b ) AND c] gives
    [{3}]. *)
Theorem and_binds_tighter (self : InformationRetriever) (a b c : str) :
  is_op a = false -> is_op b = false -> is_op c = false ->
  (_to_rpn [a; s "AND"; b; s "OR"; c] = [a; b; s "AND"; c; s "OR"] /\
   _evaluate_rpn self (_to_rpn [a; s "AND"; b; s "OR"; c])
   = Returns (doc_id_set (find (trie self) a) ∩ doc_id_set (find (trie self) b)
              ∪ doc_id_set (find (trie self) c))) /\
  (_to_rpn [a; s "OR"; b; s "AND"; c] = [a; b; c; s "AND"; s "OR"] /\
   _evaluate_rpn self (_to_rpn [a; s "OR"; b; s "AND"; c])
   = Returns (doc_id_set (find (trie self) a)
              ∪ doc_id_set (find (trie self) b) ∩ doc_id_set (find (trie self) c))) /\
  (_to_rpn [a; s "AND"; s "("; b; s "OR"; c; s ")"] = [a; b; c; s "OR"; s "AND"] /\
   _evaluate_rpn self (_to_rpn [a; s "AND"; s "("; b; s "OR"; c; s ")"])
   = Returns (doc_id_set (find (trie self) a)
              ∩ (doc_id_set (find (trie self) b) ∪ doc_id_set (find (trie self) c)))) /\
  (_to_rpn [s "("; a; s "OR"; b; s ")"; s "AND"; c] = [a; b; s "OR"; c; s "AND"] /\
   _evaluate_rpn self (_to_rpn [s "("; a; s "OR"; b; s ")"; s "AND"; c])
   = Returns ((doc_id_set (find (trie self) a) ∪ doc_id_set (find (trie self) b))
              ∩ doc_id_set (find (trie self) c))) /\
  (_tokenize_query (s "a AND b OR c") = [s "a"; s "AND"; s "b"; s "OR"; s "c"] /\
   _tokenize_query (s "a AND (b OR c)")
   = [s "a"; s "AND"; s "("; s "b"; s "OR"; s "c"; s ")"]) /\
  (doc_id_set (find (trie self) a) = {[1; 2; 3]}%Z ->
   doc_id_set (find (trie self) b) = {[2; 3; 4]}%Z ->
   doc_id_set (find (trie self) c) = {[3; 5]}%Z ->
   _evaluate_rpn self (_to_rpn [a; s "AND"; b; s "OR"; c]) = Returns {[2; 3; 5]}%Z /\
   _evaluate_rpn self (_to_rpn [a; s "AND"; s "("; b; s "OR"; c; s ")"])
   = Returns {[2; 3]}%Z /\
   _evaluate_rpn self (_to_rpn [a; s "OR"; b; s "AND"; c]) = Returns {[1; 2; 3]}%Z /\
   _evaluate_rpn self (_to_rpn [s "("; a; s "OR"; b; s ")"; s "AND"; c])
   = Returns {[3]}%Z).
Proof.
  intros Ha Hb Hc.
  assert (Hq : forall q, grammatical q = true ->
                 _to_rpn (tokens_of q) = postfix q /\
                 _evaluate_rpn self (_to_rpn (tokens_of q)) = Returns (denote self q)).
  { intros q Hg. rewrite (to_rpn_query q Hg). split; [reflexivity|].
    unfold _evaluate_rpn. now rewrite (eval_postfix self q Hg []). }
  assert (H1 := Hq (QOr (QAnd (QTerm a) (QTerm b)) (QTerm c))).
  assert (H2 := Hq (QOr (QTerm a) (QAnd (QTerm b) (QTerm c)))).
  assert (H3 := Hq (QAnd (QTerm a) (QParen (QOr (QTerm b) (QTerm c))))).
  assert (H4 := Hq (QAnd (QParen (QOr (QTerm a) (QTerm b))) (QTerm c))).
  cbn [grammatical level tokens_of postfix denote app] in H1, H2, H3, H4.
  rewrite Ha, Hb, Hc in H1, H2, H3, H4.
  specialize (H1 eq_refl). specialize (H2 eq_refl).
  specialize (H3 eq_refl). specialize (H4 eq_refl).
  split; [exact H1|]. split; [exact H2|]. split; [exact H3|]. split; [exact H4|].
  split; [split; vm_compute; reflexivity|].
  intros EA EB EC.
  destruct H1 as [_ ->], H2 as [_ ->], H3 as [_ ->], H4 as [_ ->].
  rewrite EA, EB, EC. repeat split; f_equal; vm_compute; reflexivity.
Qed.

(** C7 on an index built by [insert] calls with exactly those postings. *)
Lemma and_binds_tighter_witness :
  _to_rpn (_tokenize_query (s "a AND b OR c"))
    = [s "a"; s "b"; s "AND"; s "c"; s "OR"] /\
  _evaluate_rpn abc_index (_to_rpn (_tokenize_query (s "a AND b OR c")))
    = Returns {[2; 3; 5]}%Z /\
  _evaluate_rpn abc_index (_to_rpn (_tokenize_query (s "a AND (b OR c)")))
    = Returns {[2; 3]}%Z /\
  _to_rpn [s "a"; s "OR"; s "b"; s "AND"; s "c"]
    = [s "a"; s "b"; s "c"; s "AND"; s "OR"] /\
  _evaluate_rpn abc_index (_to_rpn [s "a"; s "OR"; s "b"; s "AND"; s "c"])
    = Returns {[1; 2; 3]}%Z.
Proof.
  destruct (and_binds_tighter abc_index (s "a") (s "b") (s "c")
              eq_refl eq_refl eq_refl)
    as ([P1 _] & [P2 _] & _ & _ & [T1 T2] & Hsets).
  destruct Hsets as (E1 & E2 & E3 & _); [vm_compute; reflexivity ..|].
  rewrite T1, T2. repeat split; assumption.
Defined.

(** X8. The boolean pipeline computes the set-theoretic meaning of a query
    of the grammar: the shunting-yard turns its tokens into its postfix
    form, with [AND] binding tighter than [OR], both associating to the
    left and parentheses grouping, and the evaluator returns the documents
    it denotes, intersection for [AND] and union for [OR]. *)
Theorem query_semantics (self : InformationRetriever) (q : query) :
  grammatical q = true ->
  _to_rpn (tokens_of q) = postfix q /\
  _evaluate_rpn self (_to_rpn (tokens_of q)) = Returns (denote self q).
Proof.
  intros Hg. split; [now apply to_rpn_query|].
  rewrite (to_rpn_query q Hg). unfold _evaluate_rpn.
  rewrite (eval_postfix self q Hg []). reflexivity.
Qed.

(** X8 on [a OR b AND (c OR a) AND c] over the three-term index. *)
Lemma query_semantics_witness :
  _to_rpn [s "a"; s "OR"; s "b"; s "AND"; s "("; s "c"; s "OR"; s "a"; s ")";
           s "AND"; s "c"] =
  [s "a"; s "b"; s "c"; s "a"; s "OR"; s "AND"; s "c"; s "AND"; s "OR"] /\
  _evaluate_rpn abc_index
    (_to_rpn [s "a"; s "OR"; s "b"; s "AND"; s "("; s "c"; s "OR"; s "a"; s ")";
              s "AND"; s "c"]) =
  Returns (doc_id_set (find (trie abc_index) (s "a")) ∪
           (doc_id_set (find (trie abc_index) (s "b")) ∩
            (doc_id_set (find (trie abc_index) (s "c")) ∪
             doc_id_set (find (trie abc_index) (s "a")))) ∩
           doc_id_set (find (trie abc_index) (s "c"))).
Proof.
  apply (query_semantics abc_index
           (QOr (QTerm (s "a"))
                (QAnd (QAnd (QTerm (s "b"))
                            (QParen (QOr (QTerm (s "c")) (QTerm (s "a")))))
                      (QTerm (s "c"))))).
  reflexivity.
Defined.


End QueryProofs.

(* ===================================================================== *)
(** * Proofs: persistence *)
(* ===================================================================== *)

Module PersistProofs.
Import Py CompactTrie TrieSpec PersistSpec TrieProofs QueryProofs.

(** ** Characters *)

Lemma digit_cases d :
  (0 <= d < 10)%Z ->
  d = 0%Z \/ d = 1%Z \/ d = 2%Z \/ d = 3%Z \/ d = 4%Z \/
  d = 5%Z \/ d = 6%Z \/ d = 7%Z \/ d = 8%Z \/ d = 9%Z.
Proof. lia. Qed.

Lemma digit_value_char d : (0 <= d < 10)%Z -> digit_value (digit_char d) = Some d.
Proof.
  intros H. destruct (digit_cases d H) as [->|[->|[->|[->|[->|[->|[->|[->|[->| ->]]]]]]]]];
    reflexivity.
Qed.

Lemma digit_char_int_char d : (0 <= d < 10)%Z -> int_char (digit_char d) = true.
Proof. intros H. unfold int_char. now rewrite digit_value_char. Qed.

Lemma digit_char_not_sign d :
  (0 <= d < 10)%Z ->
  Ascii.eqb (digit_char d) "-" = false /\ Ascii.eqb (digit_char d) "+" = false.
Proof.
  intros H. destruct (digit_cases d H) as [->|[->|[->|[->|[->|[->|[->|[->|[->| ->]]]]]]]]];
    split; reflexivity.
Qed.

(** What the characters of an int's text are not. *)
Lemma int_char_plain c :
  int_char c = true ->
  is_space c = false /\ c <> "|"%char /\ c <> ";"%char /\ c <> ","%char.
Proof.
  destruct c as [[] [] [] [] [] [] [] []]; intros H;
    try discriminate H; repeat split; discriminate.
Qed.

Lemma serializable_char_plain c :
  serializable_char c = true -> is_space c = false /\ c <> "|"%char.
Proof.
  unfold serializable_char. intros H. apply andb_true_iff in H as [H1 H2].
  apply negb_true_iff in H1, H2. split; [exact H1|].
  intros ->. discriminate H2.
Qed.

Lemma term_char_serializable c : term_char c = true -> serializable_char c = true.
Proof.
  destruct c as [[] [] [] [] [] [] [] []]; intros H;
    try discriminate H; reflexivity.
Qed.

Lemma newline_is_space : is_space newline = true.
Proof. reflexivity. Qed.

(** ** [strip] and [split] *)

Lemma lstrip_clean x :
  match x with c :: _ => is_space c = false | [] => True end -> lstrip x = x.
Proof. destruct x as [|c r]; simpl; [reflexivity|]. now intros ->. Qed.

Lemma rev_head_clean x :
  Forall (fun c => is_space c = false) x ->
  match rev x with c :: _ => is_space c = false | [] => True end.
Proof.
  intros H. destruct (rev x) as [|c r] eqn:E; [exact I|].
  rewrite List.Forall_forall in H. apply H. apply in_rev. rewrite E. now left.
Qed.

Lemma strip_clean x : Forall (fun c => is_space c = false) x -> strip x = x.
Proof.
  intros H. unfold strip, rstrip.
  rewrite (lstrip_clean x) by (destruct H; [exact I | assumption]).
  rewrite (lstrip_clean (rev x)) by (now apply rev_head_clean).
  apply rev_involutive.
Qed.

Lemma strip_clean_newline x :
  Forall (fun c => is_space c = false) x -> strip (x ++ [newline]) = x.
Proof.
  intros H. unfold strip, rstrip.
  destruct x as [|c r]; [reflexivity|].
  rewrite (lstrip_clean ((c :: r) ++ [newline])) by (simpl; now inversion H).
  rewrite rev_app_distr.
  change (rev [newline] ++ rev (c :: r)) with (newline :: rev (c :: r)).
  cbn [lstrip]. rewrite newline_is_space.
  rewrite (lstrip_clean (rev (c :: r))) by (now apply rev_head_clean).
  apply rev_involutive.
Qed.

Lemma split_on_clean sep x : ~ In sep x -> split_on sep x = [x].
Proof.
  induction x as [|c r IH]; simpl; [reflexivity|].
  intros H. destruct (Ascii.eqb c sep) eqn:E.
  - apply Ascii.eqb_eq in E. subst. tauto.
  - rewrite IH by tauto. reflexivity.
Qed.

Lemma split_on_app sep x rest :
  ~ In sep x -> split_on sep (x ++ sep :: rest) = x :: split_on sep rest.
Proof.
  induction x as [|c r IH]; simpl.
  - now rewrite Ascii.eqb_refl.
  - intros H. destruct (Ascii.eqb c sep) eqn:E.
    + apply Ascii.eqb_eq in E. subst. tauto.
    + rewrite IH by tauto. reflexivity.
Qed.

(** ** The text of an int *)

Lemma digits_onto_chars fuel n acc :
  Forall (fun c => int_char c = true) acc ->
  Forall (fun c => int_char c = true) (digits_onto fuel n acc).
Proof.
  revert n acc. induction fuel as [|fuel IH]; intros n acc Hacc; simpl; [exact Hacc|].
  assert (Hd : Forall (fun c => int_char c = true) (digit_char (n mod 10) :: acc)).
  { constructor; [|exact Hacc]. apply digit_char_int_char.
    apply Z.mod_pos_bound. lia. }
  destruct (n <? 10)%Z; [exact Hd | now apply IH].
Qed.

Lemma digits_onto_head fuel n acc :
  (match acc with
   | c :: _ => exists d, (0 <= d < 10)%Z /\ c = digit_char d
   | [] => fuel <> O
   end) ->
  exists d r, (0 <= d < 10)%Z /\ digits_onto fuel n acc = digit_char d :: r.
Proof.
  revert n acc. induction fuel as [|fuel IH]; intros n acc Hacc; simpl.
  - destruct acc as [|c r]; [contradiction|].
    destruct Hacc as (d & Hd & ->). eauto.
  - assert (Hmod : (0 <= n mod 10 < 10)%Z) by (apply Z.mod_pos_bound; lia).
    destruct (n <? 10)%Z; [eauto|].
    apply IH. eauto.
Qed.

Lemma digits_after_digit a d r :
  (0 <= d < 10)%Z ->
  digits_after a (digit_char d :: r) = digits_after (10 * a + d) r.
Proof. intros H. cbn [digits_after]. now rewrite digit_value_char. Qed.

Lemma digits_onto_value fuel :
  forall n acc, (0 <= n < 10 ^ Z.of_nat fuel)%Z ->
  exists k, (0 <= k)%Z /\
    forall a, digits_after a (digits_onto fuel n acc)
              = digits_after (a * 10 ^ k + n) acc.
Proof.
  induction fuel as [|fuel IH]; intros n acc Hn.
  - exists 0%Z. split; [lia|]. intros a. cbn [digits_onto].
    change (10 ^ Z.of_nat 0)%Z with 1%Z in Hn.
    replace (a * 10 ^ 0 + n)%Z with a by lia. reflexivity.
  - simpl digits_onto.
    assert (Hmod : (0 <= n mod 10 < 10)%Z) by (apply Z.mod_pos_bound; lia).
    destruct (n <? 10)%Z eqn:Hlt.
    + apply Z.ltb_lt in Hlt. exists 1%Z. split; [lia|]. intros a.
      rewrite digits_after_digit by exact Hmod.
      rewrite Z.mod_small by lia. f_equal. lia.
    + apply Z.ltb_ge in Hlt.
      assert (Hdiv : (0 <= n / 10 < 10 ^ Z.of_nat fuel)%Z).
      { split; [apply Z.div_pos; lia|].
        apply Z.div_lt_upper_bound; [lia|].
        rewrite Nat2Z.inj_succ, Z.pow_succ_r in Hn by lia. lia. }
      destruct (IH (n / 10)%Z (digit_char (n mod 10) :: acc) Hdiv) as (k & Hk & Heq).
      exists (k + 1)%Z. split; [lia|]. intros a.
      rewrite Heq, digits_after_digit by exact Hmod. f_equal.
      rewrite Z.pow_add_r by lia.
      pose proof (Z.div_mod n 10 ltac:(lia)). lia.
Qed.

Lemma digits_fuel_enough n :
  (0 <= n)%Z -> (0 <= n < 10 ^ Z.of_nat (S (Z.to_nat (Z.log2 n))))%Z.
Proof.
  intros Hn. split; [exact Hn|].
  rewrite Nat2Z.inj_succ, Z2Nat.id by apply Z.log2_nonneg.
  destruct (Z.eq_dec n 0%Z) as [->|Hne].
  - reflexivity.
  - pose proof (Z.log2_spec n ltac:(lia)) as [_ Hup].
    eapply Z.lt_le_trans; [exact Hup|].
    apply Z.pow_le_mono_l. lia.
Qed.

Lemma str_of_int_chars z : Forall (fun c => int_char c = true) (str_of_int z).
Proof.
  unfold str_of_int. destruct (z <? 0)%Z.
  - constructor; [reflexivity|]. apply digits_onto_chars. constructor.
  - apply digits_onto_chars. constructor.
Qed.

Lemma str_of_int_nonempty z : str_of_int z <> [].
Proof.
  unfold str_of_int. destruct (z <? 0)%Z; [discriminate|].
  destruct (digits_onto_head (S (Z.to_nat (Z.log2 (Z.abs z)))) (Z.abs z) [])
    as (d & r & _ & E); [discriminate|]. rewrite E. discriminate.
Qed.

Lemma digits_literal_digits n :
  (0 <= n)%Z ->
  digits_literal (digits_onto (S (Z.to_nat (Z.log2 n))) n []) = Some n.
Proof.
  intros Hn.
  destruct (digits_onto_head (S (Z.to_nat (Z.log2 n))) n [])
    as (d & r & Hd & E); [discriminate|].
  destruct (digits_onto_value _ n [] (digits_fuel_enough n Hn)) as (k & Hk & Hval).
  specialize (Hval 0%Z). rewrite E in Hval |- *.
  rewrite digits_after_digit in Hval by exact Hd.
  unfold digits_literal. rewrite digit_value_char by exact Hd.
  replace (10 * 0 + d)%Z with d in Hval by lia. rewrite Hval.
  cbn [digits_after]. now rewrite Z.mul_0_l.
Qed.

Lemma int_chars_clean x :
  Forall (fun c => int_char c = true) x -> Forall (fun c => is_space c = false) x.
Proof.
  intros H. eapply List.Forall_impl; [|exact H]. intros c Hc. now apply int_char_plain.
Qed.

(** [int(str(z)) == z] *)
Lemma int_of_str_of_int z : int_of_str (str_of_int z) = Returns z.
Proof.
  unfold int_of_str. rewrite strip_clean by (apply int_chars_clean, str_of_int_chars).
  unfold str_of_int. destruct (z <? 0)%Z eqn:Hz.
  - apply Z.ltb_lt in Hz. rewrite Ascii.eqb_refl.
    rewrite digits_literal_digits by lia. simpl. f_equal. lia.
  - apply Z.ltb_ge in Hz.
    destruct (digits_onto_head (S (Z.to_nat (Z.log2 (Z.abs z)))) (Z.abs z) [])
      as (d & r & Hd & E); [discriminate|].
    pose proof (digits_literal_digits (Z.abs z) ltac:(lia)) as Hlit.
    rewrite E in Hlit |- *.
    destruct (digit_char_not_sign d Hd) as [-> ->].
    rewrite Hlit. f_equal. lia.
Qed.

(** ** The inverted-index field *)

Lemma index_str_items ii : index_str ii = join (s ";") (map item_text ii).
Proof. reflexivity. Qed.

Lemma int_text_no c z :
  int_char c = false -> ~ In c (str_of_int z).
Proof.
  intros Hc Hin. pose proof (str_of_int_chars z) as H.
  rewrite List.Forall_forall in H. specialize (H c Hin). congruence.
Qed.

Lemma item_text_chars p :
  Forall (fun c => int_char c = true \/ c = ","%char) (item_text p).
Proof.
  destruct p as [d f]. unfold item_text.
  apply Forall_app. split; [|apply Forall_app; split].
  - eapply List.Forall_impl; [|apply str_of_int_chars]. intros c Hc. now left.
  - constructor; [now right | constructor].
  - eapply List.Forall_impl; [|apply str_of_int_chars]. intros c Hc. now left.
Qed.

Lemma item_text_nonempty p : item_text p <> [].
Proof.
  destruct p as [d f]. unfold item_text.
  pose proof (str_of_int_nonempty d). destruct (str_of_int d); [contradiction | discriminate].
Qed.

Lemma item_text_split d f :
  split_on "," (item_text (d, f)) = [str_of_int d; str_of_int f].
Proof.
  unfold item_text. change (s "," ++ str_of_int f) with (","%char :: str_of_int f).
  rewrite split_on_app by (now apply int_text_no).
  rewrite split_on_clean by (now apply int_text_no). reflexivity.
Qed.

Lemma parse_items_texts ii : parse_items (map item_text ii) = (ii, true).
Proof.
  induction ii as [|[d f] ii IH]; [reflexivity|].
  cbn [map parse_items]. rewrite item_text_split, !int_of_str_of_int, IH. reflexivity.
Qed.

Lemma split_join_items items :
  items <> [] -> Forall (fun x => ~ In ";"%char x) items ->
  split_on ";" (join (s ";") items) = items.
Proof.
  induction items as [|x rest IH]; intros Hne Hall; [contradiction|].
  inversion Hall as [|? ? Hx Hrest]; subst.
  destruct rest as [|y rest].
  - simpl. now apply split_on_clean.
  - change (join (s ";") (x :: y :: rest))
      with (x ++ ";"%char :: join (s ";") (y :: rest)).
    rewrite split_on_app by exact Hx. f_equal. apply IH; [discriminate | exact Hrest].
Qed.

Lemma item_text_no_semicolon p : ~ In ";"%char (item_text p).
Proof.
  intros Hin. pose proof (item_text_chars p) as H.
  rewrite List.Forall_forall in H. destruct (H _ Hin) as [Hc|Hc]; discriminate.
Qed.

Lemma join_chars (P : ascii -> Prop) sep items :
  Forall P sep -> Forall (Forall P) items -> Forall P (join sep items).
Proof.
  intros Hsep. induction items as [|x rest IH]; intros Hall; [constructor|].
  inversion Hall as [|? ? Hx Hrest]; subst.
  destruct rest as [|y rest]; [exact Hx|].
  change (join sep (x :: y :: rest)) with (x ++ sep ++ join sep (y :: rest)).
  apply Forall_app. split; [exact Hx|]. apply Forall_app. split; [exact Hsep|].
  now apply IH.
Qed.

Lemma index_str_chars ii :
  Forall (fun c => is_space c = false /\ c <> "|"%char) (index_str ii).
Proof.
  rewrite index_str_items. apply join_chars.
  - repeat constructor; discriminate.
  - apply Forall_forall. intros x Hx. apply list_elem_of_In in Hx.
    apply in_map_iff in Hx as (p & <- & _).
    eapply List.Forall_impl; [|apply item_text_chars].
    intros c [Hc | ->]; [|split; [reflexivity | discriminate]].
    destruct (int_char_plain c Hc) as (H1 & H2 & _). auto.
Qed.

Lemma parse_index_str ii : parse_index (index_str ii) = (ii, true).
Proof.
  rewrite index_str_items. destruct ii as [|p ii]; [reflexivity|].
  unfold parse_index.
  destruct (join (s ";") (map item_text (p :: ii))) as [|c r] eqn:E.
  - exfalso. cbn [map] in E. destruct (map item_text ii) as [|y rest].
    + simpl in E. now apply (item_text_nonempty p).
    + change (join (s ";") (item_text p :: y :: rest))
        with (item_text p ++ s ";" ++ join (s ";") (y :: rest)) in E.
      apply app_eq_nil in E as [E _]. now apply (item_text_nonempty p).
  - rewrite <- E. rewrite split_join_items.
    + apply parse_items_texts.
    + discriminate.
    + apply Forall_forall. intros x Hx. apply list_elem_of_In in Hx.
      apply in_map_iff in Hx as (q & <- & _). apply item_text_no_semicolon.
Qed.

(** ** One line *)

Lemma node_line_body n : node_line n = line_body n ++ [newline].
Proof.
  unfold node_line, line_body, flag_text.
  change (s "|") with ["|"%char].
  repeat (rewrite <- ?app_assoc; cbn [app]). reflexivity.
Qed.

Lemma line_body_clean n :
  serializable (label n) -> Forall (fun c => is_space c = false) (line_body n).
Proof.
  intros Hl. unfold line_body.
  apply Forall_app. split.
  { eapply List.Forall_impl; [|exact Hl]. intros c Hc. now apply serializable_char_plain. }
  constructor; [reflexivity|]. apply Forall_app. split.
  { destruct (is_terminal n); repeat constructor. }
  constructor; [reflexivity|]. apply Forall_app. split.
  { apply int_chars_clean, str_of_int_chars. }
  constructor; [reflexivity|].
  eapply List.Forall_impl; [|apply index_str_chars]. intros c Hc. apply Hc.
Qed.

Lemma line_body_no_newline n :
  serializable (label n) -> ~ In newline (line_body n).
Proof.
  intros Hl Hin. pose proof (line_body_clean n Hl) as H.
  rewrite List.Forall_forall in H. specialize (H _ Hin). discriminate.
Qed.

Lemma flag_text_terminal b : str_eqb (flag_text b) (s "1") = b.
Proof. now destruct b. Qed.

(** The four fields [load_from_file] gets back from a line. *)
Lemma node_line_fields n :
  serializable (label n) ->
  split_on "|" (strip (node_line n)) =
  [label n; flag_text (is_terminal n);
   str_of_int (Z.of_nat (length (children n))); index_str (inverted_index n)].
Proof.
  intros Hl. rewrite node_line_body, strip_clean_newline by now apply line_body_clean.
  unfold line_body.
  rewrite split_on_app.
  2:{ intros Hin. unfold serializable in Hl. rewrite List.Forall_forall in Hl.
      destruct (serializable_char_plain _ (Hl _ Hin)) as [_ H]. now apply H. }
  rewrite split_on_app by (destruct (is_terminal n); simpl; intros [H|[]]; discriminate).
  rewrite split_on_app by (now apply int_text_no).
  rewrite split_on_clean; [reflexivity|].
  intros Hin. pose proof (index_str_chars (inverted_index n)) as H.
  rewrite List.Forall_forall in H. destruct (H _ Hin) as [_ Hc]. now apply Hc.
Qed.

(** ** Lines of a file *)

Lemma read_lines_from_line cur body rest :
  ~ In newline body ->
  read_lines_from cur (body ++ newline :: rest)
  = (rev cur ++ body ++ [newline]) :: read_lines_from [] rest.
Proof.
  revert cur. induction body as [|c body IH]; intros cur Hno; simpl.
  - reflexivity.
  - destruct (Ascii.eqb c newline) eqn:E.
    + apply Ascii.eqb_eq in E. subst. simpl in Hno. tauto.
    + rewrite IH by (simpl in Hno; tauto). simpl. now rewrite <- app_assoc.
Qed.

Lemma read_lines_concat bodies :
  Forall (fun body => ~ In newline body) bodies ->
  read_lines (concat (map (fun body => body ++ [newline]) bodies))
  = map (fun body => body ++ [newline]) bodies.
Proof.
  unfold read_lines. induction bodies as [|body rest IH]; intros Hall; [reflexivity|].
  inversion Hall as [|? ? Hb Hrest]; subst. cbn [map concat].
  rewrite <- app_assoc. change ([newline] ++ ?x) with (newline :: x).
  rewrite read_lines_from_line by exact Hb. rewrite IH by exact Hrest. reflexivity.
Qed.

(** ** Objects on the heap *)

Lemma alloc_node_unfold n base :
  alloc_node n base =
  hnode n (child_refs (children n) (S base)) :: alloc_forest (children n) (S base).
Proof.
  destruct n as [l cs t ii]. reflexivity.
Qed.

Lemma alloc_forest_length cs :
  Forall (fun kc => forall base, length (alloc_node (snd kc) base) = size (snd kc)) cs ->
  forall base, length (alloc_forest cs base)
               = list_sum (map (fun kc => size (snd kc)) cs).
Proof.
  induction 1 as [|kc r Hkc Hr IH]; intros base; [reflexivity|].
  cbn [alloc_forest map list_sum]. now rewrite length_app, Hkc, IH.
Qed.

Lemma alloc_node_length n : forall base, length (alloc_node n base) = size n.
Proof.
  induction n as [l cs t ii IH] using TrieNode_children_ind. intros base.
  rewrite alloc_node_unfold. cbn [length size children]. f_equal.
  now apply alloc_forest_length.
Qed.

Lemma attach_length p k a h : length (attach p k a h) = length h.
Proof. unfold attach. destruct (h !! p); [apply length_insert | reflexivity]. Qed.

Lemma attach_app p k a h t :
  p < length h -> attach p k a (h ++ t) = attach p k a h ++ t.
Proof.
  intros Hp. unfold attach. rewrite lookup_app_l by exact Hp.
  destruct (h !! p); [|reflexivity]. now apply insert_app_l.
Qed.

Lemma attach_middle H nodeb T k a :
  attach (length H) k a (H ++ nodeb :: T)
  = H ++ with_children nodeb (dict_set k a (h_children nodeb)) :: T.
Proof.
  unfold attach. rewrite list_lookup_middle by reflexivity.
  rewrite <- (Nat.add_0_r (length H)) at 1. now rewrite insert_app_r.
Qed.

Lemma dict_set_fresh {V} k (v : V) d :
  ~ In k (dict_keys d) -> dict_set k v d = d ++ [(k, v)].
Proof.
  induction d as [|[k' v'] r IH]; simpl; [reflexivity|].
  intros Hno. destruct (Ascii.eqb k k') eqn:E.
  - apply Ascii.eqb_eq in E. subst. tauto.
  - rewrite IH by tauto. reflexivity.
Qed.

(** ** One line read *)

Lemma load_line_node m st p r stk key :
  serializable (label m) ->
  head (label m) = Some key ->
  stack st = (p, r) :: stk ->
  load_line st (node_line m) =
  Returns {| heap := attach p key (length (heap st)) (heap st ++ [hnode m []]);
             stack := if (0 <? Z.of_nat (length (children m)))%Z
                      then (length (heap st), Z.of_nat (length (children m)))
                           :: counted p r stk
                      else counted p r stk |}.
Proof.
  intros Hser Hkey Hstack. unfold load_line. rewrite Hstack.
  rewrite node_line_fields by exact Hser.
  rewrite int_of_str_of_int. cbn [bind]. rewrite parse_index_str. cbn [negb].
  destruct (label m) as [|c l] eqn:El; [discriminate|].
  injection Hkey as ->. cbn [first_char bind].
  rewrite flag_text_terminal. unfold hnode, counted. rewrite El. reflexivity.
Qed.

Lemma load_lines_cons st line rest p r stk :
  stack st = (p, r) :: stk ->
  load_lines st (line :: rest) =
  match load_line st line with
  | Returns st' => load_lines st' rest
  | _ => (false, st)
  end.
Proof. intros Hstack. cbn [load_lines]. now rewrite Hstack. Qed.

(** ** A subtree read *)

Lemma ser_node_inv n :
  ser_node n ->
  label n <> [] /\ serializable (label n) /\ ser_children (children n).
Proof. intros H. inversion H; subst. unfold ser_children. auto. Qed.

Lemma with_children_twice p x y :
  with_children (with_children p x) y = with_children p y.
Proof. reflexivity. Qed.

(** The children of the object at [length H], all still to be read. *)
Lemma load_forest cs :
  Forall (fun kc => head (label (snd kc)) = Some (fst kc) /\ loads (snd kc)) cs ->
  cs <> [] ->
  forall H nodeb T stk more,
    NoDup (dict_keys (h_children nodeb) ++ dict_keys cs) ->
    load_lines {| heap := H ++ nodeb :: T;
                  stack := (length H, Z.of_nat (length cs)) :: stk |}
      (flat_map (fun kc => preorder_lines (snd kc)) cs ++ more) =
    load_lines
      {| heap := H ++ with_children nodeb
                        (h_children nodeb
                         ++ child_refs cs (length (H ++ nodeb :: T)))
                   :: T ++ alloc_forest cs (length (H ++ nodeb :: T));
         stack := stk |} more.
Proof.
  induction 1 as [|[k c] rest [Hk Hloads] Hrest IH]; intros Hne H nodeb T stk more Hnd;
    [contradiction|]. clear Hne.
  cbn [flat_map fst snd] in *. rewrite <- app_assoc.
  rewrite (Hloads {| heap := H ++ nodeb :: T;
                     stack := (length H, Z.of_nat (length ((k, c) :: rest))) :: stk |}
             (length H) (Z.of_nat (length ((k, c) :: rest))) stk k _ Hk eq_refl).
  2:{ cbn [heap]. rewrite length_app. simpl. lia. }
  cbn [heap]. rewrite attach_middle.
  assert (Hfresh : ~ In k (dict_keys (h_children nodeb))).
  { apply NoDup_app in Hnd as (_ & Hdisj & _). intros Hin.
    apply (Hdisj k); [now apply list_elem_of_In | left]. }
  rewrite dict_set_fresh by exact Hfresh.
  rewrite <- app_assoc, <- app_comm_cons.
  set (base := length (H ++ nodeb :: T)).
  destruct rest as [|kc' rest'].
  - unfold counted. cbn [length]. replace (Z.of_nat 1 - 1 =? 0)%Z with true by reflexivity.
    cbn [flat_map app child_refs alloc_forest fst snd]. rewrite !app_nil_r.
    reflexivity.
  - unfold counted.
    replace (Z.of_nat (length ((k, c) :: kc' :: rest')) - 1)%Z
      with (Z.of_nat (length (kc' :: rest'))) by (cbn [length]; lia).
    replace (Z.of_nat (length (kc' :: rest')) =? 0)%Z with false
      by (symmetry; apply Z.eqb_neq; cbn [length]; lia).
    rewrite (IH ltac:(discriminate) H
               (with_children nodeb (h_children nodeb ++ [(k, base)]))
               (T ++ alloc_node c base) stk more).
    2:{ cbn [with_children h_children]. unfold dict_keys in *.
        rewrite map_app, <- app_assoc. exact Hnd. }
    rewrite with_children_twice. cbn [with_children h_children].
    assert (Hlen : length (H ++ with_children nodeb (h_children nodeb ++ [(k, base)])
                             :: T ++ alloc_node c base) = base + size c).
    { unfold base. rewrite !length_app. cbn [length]. rewrite length_app.
      rewrite alloc_node_length. lia. }
    rewrite Hlen. cbn [child_refs alloc_forest fst snd].
    rewrite <- !app_assoc. reflexivity.
Qed.

Lemma loads_node m : ser_node m -> loads m.
Proof.
  induction m as [l cs t ii IH] using TrieNode_children_ind.
  intros Hser st p r stk key more Hkey Hstack Hp.
  apply ser_node_inv in Hser as (Hl & Hchars & Hnd & Hall).
  cbn [preorder_lines children app] in *.
  rewrite (load_lines_cons st _ _ p r stk Hstack).
  rewrite (load_line_node _ st p r stk key Hchars Hkey Hstack).
  rewrite attach_app by exact Hp. cbn [children].
  rewrite alloc_node_unfold. cbn [children].
  destruct cs as [|kc rest].
  - reflexivity.
  - replace (0 <? Z.of_nat (length (kc :: rest)))%Z with true
      by (symmetry; apply Z.ltb_lt; cbn [length]; lia).
    assert (Hkids : Forall (fun kc => head (label (snd kc)) = Some (fst kc)
                                      /\ loads (snd kc)) (kc :: rest)).
    { rewrite List.Forall_forall in *. intros x Hx.
      destruct (Hall x Hx) as [Hhd Hs]. split; [exact Hhd|]. now apply IH. }
    rewrite <- (attach_length p key (length (heap st)) (heap st)) at 2.
    rewrite (load_forest (kc :: rest) Hkids ltac:(discriminate)
               (attach p key (length (heap st)) (heap st))
               (hnode (Node l (kc :: rest) t ii) []) [] (counted p r stk) more).
    2:{ exact Hnd. }
    cbn [hnode h_children with_children app label is_terminal inverted_index].
    rewrite length_app, attach_length. cbn [length].
    rewrite Nat.add_1_r. reflexivity.
Qed.

(** ** The tree read back from the heap *)

Lemma size_pos n : 1 <= size n.
Proof. destruct n. simpl. lia. Qed.

Lemma heap_tree_forest fuel cs :
  Forall (fun kc => forall fuel H T, size (snd kc) <= fuel ->
            heap_tree fuel (H ++ alloc_node (snd kc) (length H) ++ T) (length H)
            = snd kc) cs ->
  list_sum (map (fun kc => size (snd kc)) cs) <= fuel ->
  forall H T,
    map (fun kr => (fst kr, heap_tree fuel (H ++ alloc_forest cs (length H) ++ T)
                              (snd kr)))
        (child_refs cs (length H))
    = cs.
Proof.
  induction 1 as [|[k c] rest Hc Hrest IH]; intros Hfuel H T; [reflexivity|].
  change (size c + list_sum (map (fun kc => size (snd kc)) rest) <= fuel) in Hfuel.
  cbn [child_refs alloc_forest map fst snd]. f_equal.
  - f_equal. rewrite <- app_assoc. cbn [snd] in Hc. apply Hc. lia.
  - specialize (IH ltac:(lia) (H ++ alloc_node c (length H)) T).
    rewrite length_app, alloc_node_length in IH.
    rewrite <- !app_assoc in IH. rewrite <- app_assoc. exact IH.
Qed.

Lemma heap_tree_alloc m :
  forall fuel H T, size m <= fuel ->
    heap_tree fuel (H ++ alloc_node m (length H) ++ T) (length H) = m.
Proof.
  induction m as [l cs t ii IH] using TrieNode_children_ind.
  intros [|fuel] H T Hfuel; [pose proof (size_pos (Node l cs t ii)); lia|].
  cbn [size children] in Hfuel.
  cbn [heap_tree]. rewrite alloc_node_unfold. cbn [children].
  rewrite <- app_comm_cons.
  rewrite list_lookup_middle by reflexivity.
  cbn [hnode h_label h_children h_is_terminal h_inverted_index label is_terminal
         inverted_index]. f_equal.
  pose proof (heap_tree_forest fuel cs IH ltac:(lia)
                (H ++ [hnode (Node l cs t ii) (child_refs cs (S (length H)))]) T)
    as Hf.
  rewrite length_app in Hf. cbn [length] in Hf. rewrite Nat.add_1_r in Hf.
  rewrite <- app_assoc in Hf. exact Hf.
Qed.

(** ** A whole file read *)

Lemma preorder_lines_bodies m :
  labels_in (fun c => serializable_char c = true) m ->
  exists bodies,
    preorder_lines m = map (fun body => body ++ [newline]) bodies /\
    Forall (fun body => ~ In newline body) bodies.
Proof.
  induction m as [l cs t ii IH] using TrieNode_children_ind.
  intros Hlab. inversion Hlab as [? Hl Hkids]; subst. cbn [label children] in *.
  assert (Hcs : exists bodies,
             flat_map (fun kc => preorder_lines (snd kc)) cs
             = map (fun body => body ++ [newline]) bodies /\
             Forall (fun body => ~ In newline body) bodies).
  { clear Hlab Hl. induction cs as [|kc rest IHcs].
    - exists []. split; [reflexivity | constructor].
    - inversion IH as [|? ? Hkc Hrest]; subst.
      inversion Hkids as [|? ? Hk1 Hk2]; subst.
      destruct (Hkc Hk1) as (b1 & E1 & F1).
      destruct (IHcs Hrest Hk2) as (b2 & E2 & F2).
      exists (b1 ++ b2). cbn [flat_map]. rewrite E1, E2, map_app.
      split; [reflexivity | now apply Forall_app]. }
  destruct Hcs as (bodies & E & F).
  exists (line_body (Node l cs t ii) :: bodies). cbn [preorder_lines children map].
  rewrite E, node_line_body. split; [reflexivity|].
  constructor; [|exact F]. now apply line_body_no_newline.
Qed.

Lemma load_root_line m :
  label m = [] ->
  load_root (node_line m) =
  (true, {| heap := [hnode m []];
            stack := if (0 <? Z.of_nat (length (children m)))%Z
                     then [(0, Z.of_nat (length (children m)))] else [] |}).
Proof.
  intros Hl. unfold load_root.
  rewrite node_line_fields by (rewrite Hl; constructor).
  rewrite int_of_str_of_int, parse_index_str, flag_text_terminal.
  unfold hnode. reflexivity.
Qed.

(** Reading back what was written for a tree whose children are stored in
    the order they are written gives the tree itself. *)
Lemma load_preorder m :
  label m = [] -> ser_children (children m) ->
  labels_in (fun c => serializable_char c = true) m ->
  load_from_file (Some (concat (preorder_lines m))) = (true, {| root := m |}).
Proof.
  intros Hl [Hnd Hall] Hlab. unfold load_from_file.
  destruct (preorder_lines_bodies m Hlab) as (bodies & E & F).
  rewrite E, read_lines_concat by exact F. rewrite <- E.
  destruct m as [l cs t ii]. cbn [label children] in *. subst l.
  cbn [preorder_lines children].
  rewrite load_root_line by reflexivity. cbn [children].
  assert (Htree : heap_tree (length (alloc_node (Node [] cs t ii) 0))
                    (alloc_node (Node [] cs t ii) 0) 0 = Node [] cs t ii).
  { pose proof (heap_tree_alloc (Node [] cs t ii)
                  (length (alloc_node (Node [] cs t ii) 0)) [] []) as Ht.
    rewrite app_nil_r in Ht. apply Ht. now rewrite alloc_node_length. }
  destruct cs as [|kc rest].
  - cbn [length Z.of_nat Z.ltb Z.compare flat_map load_lines heap].
    exact (f_equal (fun r => (true, {| root := r |})) Htree).
  - replace (0 <? Z.of_nat (length (kc :: rest)))%Z with true
      by (symmetry; apply Z.ltb_lt; cbn [length]; lia).
    assert (Hkids : Forall (fun kc => head (label (snd kc)) = Some (fst kc)
                                      /\ loads (snd kc)) (kc :: rest)).
    { rewrite List.Forall_forall in *. intros x Hx.
      destruct (Hall x Hx) as [Hhd Hs]. split; [exact Hhd|]. now apply loads_node. }
    pose proof (load_forest (kc :: rest) Hkids ltac:(discriminate)
                  [] (hnode (Node [] (kc :: rest) t ii) []) [] [] []) as Hf.
    specialize (Hf Hnd). rewrite app_nil_r in Hf.
    change (length (@nil HeapNode)) with 0 in Hf.
    change ([] ++ ?x) with x in Hf.
    rewrite Hf. cbn [load_lines heap].
    rewrite alloc_node_unfold in Htree.
    cbn [hnode with_children h_label h_children h_is_terminal h_inverted_index
           label is_terminal inverted_index children app] in *.
    exact (f_equal (fun r => (true, {| root := r |})) Htree).
Qed.

(** ** Children in key order *)

Lemma sort_insert_map {A B K} (g : A -> B) (key : A -> K) (key' : B -> K) lt x l :
  (forall a, key' (g a) = key a) ->
  sort_insert key' lt (g x) (map g l) = map g (sort_insert key lt x l).
Proof.
  intros Hkey. induction l as [|y r IH]; [reflexivity|].
  cbn [map sort_insert]. rewrite !Hkey. destruct (lt (key y) (key x)).
  - cbn [map]. now rewrite IH.
  - reflexivity.
Qed.

Lemma sort_stable_map {A B K} (g : A -> B) (key : A -> K) (key' : B -> K) lt l :
  (forall a, key' (g a) = key a) ->
  sort_stable key' lt (map g l) = map g (sort_stable key lt l).
Proof.
  intros Hkey. induction l as [|x r IH]; [reflexivity|].
  cbn [map sort_stable]. rewrite IH. now apply sort_insert_map.
Qed.

Lemma dict_get_NoDup_In {V} k (v : V) d :
  NoDup (dict_keys d) -> In (k, v) d -> dict_get k d = Some v.
Proof.
  induction d as [|[k' v'] r IH]; simpl; [tauto|].
  intros Hnd [E|Hin].
  - injection E as -> ->. now rewrite Ascii.eqb_refl.
  - apply NoDup_cons in Hnd as [Hno Hnd].
    destruct (Ascii.eqb k k') eqn:E.
    + apply Ascii.eqb_eq in E. subst k'. exfalso. apply Hno.
      apply list_elem_of_In. apply in_map_iff. exists (k, v). auto.
    + now apply IH.
Qed.

Lemma dict_get_Permutation {V} k (d d' : list (ascii * V)) :
  NoDup (dict_keys d) -> Permutation d d' -> dict_get k d = dict_get k d'.
Proof.
  intros Hnd Hperm.
  assert (Hnd' : NoDup (dict_keys d')).
  { unfold dict_keys in *. now rewrite <- Hperm. }
  destruct (dict_get k d) as [v|] eqn:E.
  - symmetry. apply dict_get_NoDup_In; [exact Hnd'|].
    apply (Permutation_in _ Hperm). now apply dict_get_In.
  - destruct (dict_get k d') as [v'|] eqn:E'; [|reflexivity].
    apply dict_get_In in E'. apply Permutation_sym in Hperm.
    apply (Permutation_in _ Hperm) in E'.
    rewrite (dict_get_NoDup_In k v' d Hnd E') in E. discriminate.
Qed.

Lemma dict_get_map {V W} (g : V -> W) k (d : list (ascii * V)) :
  dict_get k (map (fun kc => (fst kc, g (snd kc))) d) = option_map g (dict_get k d).
Proof.
  induction d as [|[k' v] r IH]; [reflexivity|]. simpl.
  destruct (Ascii.eqb k k'); [reflexivity | exact IH].
Qed.

Lemma flat_map_ext_In {A B} (f g : A -> list B) l :
  (forall x, In x l -> f x = g x) -> flat_map f l = flat_map g l.
Proof.
  induction l as [|x r IH]; intros H; [reflexivity|]. simpl.
  rewrite (H x) by now left. rewrite IH; [reflexivity|].
  intros y Hy. apply H. now right.
Qed.

Lemma flat_map_map {A B C} (g : A -> B) (f : B -> list C) l :
  flat_map f (map g l) = flat_map (fun x => f (g x)) l.
Proof. induction l as [|x r IH]; [reflexivity|]. simpl. now rewrite IH. Qed.

Lemma sorted_keys_pairs {V} (cs : list (ascii * V)) :
  sorted_keys (dict_keys cs) = map fst (sort_stable fst char_lt cs).
Proof. unfold sorted_keys, dict_keys. now apply sort_stable_map. Qed.

(** Looking the sorted keys up, one by one, visits the children in key
    order. *)
Lemma sorted_lookup {V R} (f : V -> list R) (cs : list (ascii * V)) :
  NoDup (dict_keys cs) ->
  flat_map (fun char => match dict_with f char cs with
                        | Some x => x
                        | None => []
                        end) (sorted_keys (dict_keys cs))
  = flat_map (fun kc => f (snd kc)) (sort_stable fst char_lt cs).
Proof.
  intros Hnd. rewrite sorted_keys_pairs, flat_map_map.
  apply flat_map_ext_In. intros [k v] Hin.
  apply (Permutation_in _ (sort_stable_Permutation fst char_lt cs)) in Hin.
  cbn [fst snd]. rewrite dict_with_get, (dict_get_NoDup_In k v cs Hnd Hin).
  reflexivity.
Qed.

Lemma norm_unfold l cs t ii :
  norm (Node l cs t ii)
  = Node l (map (fun kc => (fst kc, norm (snd kc))) (sort_stable fst char_lt cs)) t ii.
Proof.
  cbn [norm label children is_terminal inverted_index]. f_equal.
  now apply sort_stable_map.
Qed.

Lemma node_line_norm n : node_line (norm n) = node_line n.
Proof.
  destruct n as [l cs t ii]. rewrite norm_unfold. unfold node_line.
  cbn [label children is_terminal inverted_index].
  rewrite length_map, (Permutation_length (sort_stable_Permutation fst char_lt cs)).
  reflexivity.
Qed.

Lemma pre_order_serialize_unfold n :
  pre_order_serialize n =
  node_line n ::
  flat_map (fun char => match dict_with pre_order_serialize char (children n) with
                        | Some lines => lines
                        | None => []
                        end) (sorted_keys (dict_keys (children n))).
Proof. now destruct n. Qed.

(** What is written for a tree is the pre-order of the tree with its
    children in key order. *)
Lemma serialize_norm n :
  ser_children (children n) -> pre_order_serialize n = preorder_lines (norm n).
Proof.
  induction n as [l cs t ii IH] using TrieNode_children_ind.
  intros [Hnd Hall]. cbn [children] in *.
  rewrite pre_order_serialize_unfold. cbn [children].
  rewrite sorted_lookup by exact Hnd.
  rewrite <- (node_line_norm (Node l cs t ii)), norm_unfold.
  cbn [preorder_lines children]. f_equal.
  rewrite flat_map_map. apply flat_map_ext_In. intros kc Hin.
  apply (Permutation_in _ (sort_stable_Permutation fst char_lt cs)) in Hin.
  rewrite List.Forall_forall in IH, Hall. cbn [snd].
  apply (IH kc Hin). destruct (Hall kc Hin) as [_ Hs].
  apply ser_node_inv in Hs. apply Hs.
Qed.

Lemma norm_label n : label (norm n) = label n.
Proof. now destruct n. Qed.

Lemma norm_ser_node n : ser_node n -> ser_node (norm n).
Proof.
  induction n as [l cs t ii IH] using TrieNode_children_ind.
  intros Hs. apply ser_node_inv in Hs as (Hl & Hc & Hnd & Hall).
  cbn [label children] in *. rewrite norm_unfold.
  pose proof (sort_stable_Permutation fst char_lt cs) as Hperm.
  constructor; cbn [label children].
  - exact Hl.
  - exact Hc.
  - unfold dict_keys in *. rewrite map_map. cbn [fst].
    change (map (fun x : ascii * TrieNode => fst x)) with (@map _ ascii (@fst ascii TrieNode)).
    now rewrite Hperm.
  - apply Forall_forall. intros x Hx. apply list_elem_of_In in Hx.
    apply in_map_iff in Hx as (kc & <- & Hin). apply (Permutation_in _ Hperm) in Hin.
    rewrite List.Forall_forall in IH, Hall. destruct (Hall kc Hin) as [Hhd Hs].
    cbn [fst snd]. rewrite norm_label. split; [exact Hhd | now apply IH].
Qed.

Lemma norm_ser_children cs :
  ser_children cs ->
  ser_children (map (fun kc => (fst kc, norm (snd kc))) (sort_stable fst char_lt cs)).
Proof.
  intros [Hnd Hall].
  pose proof (sort_stable_Permutation fst char_lt cs) as Hperm. split.
  - unfold dict_keys in *. rewrite map_map. cbn [fst].
    change (map (fun x : ascii * TrieNode => fst x)) with (@map _ ascii (@fst ascii TrieNode)).
    now rewrite Hperm.
  - apply Forall_forall. intros x Hx. apply list_elem_of_In in Hx.
    apply in_map_iff in Hx as (kc & <- & Hin). apply (Permutation_in _ Hperm) in Hin.
    rewrite List.Forall_forall in Hall. destruct (Hall kc Hin) as [Hhd Hs].
    cbn [fst snd]. rewrite norm_label. split; [exact Hhd | now apply norm_ser_node].
Qed.

Lemma norm_labels_in P n : labels_in P n -> labels_in P (norm n).
Proof.
  induction n as [l cs t ii IH] using TrieNode_children_ind.
  intros Hlab. inversion Hlab as [? Hl Hkids]; subst. cbn [label children] in *.
  rewrite norm_unfold. constructor; cbn [label children]; [exact Hl|].
  apply Forall_forall. intros x Hx. apply list_elem_of_In in Hx.
  apply in_map_iff in Hx as (kc & <- & Hin).
  apply (Permutation_in _ (sort_stable_Permutation fst char_lt cs)) in Hin.
  rewrite List.Forall_forall in IH, Hkids. cbn [snd]. apply (IH kc Hin), (Hkids kc Hin).
Qed.

(** [find] does not see the order of the children. *)
Lemma find_from_norm n :
  ser_children (children n) -> forall w, find_from (norm n) w = find_from n w.
Proof.
  induction n as [l cs t ii IH] using TrieNode_children_ind.
  intros [Hnd Hall] [|c w]; cbn [children] in *; rewrite norm_unfold.
  - now rewrite !find_from_unfold.
  - rewrite !find_from_step. cbn [children].
    rewrite dict_get_map.
    rewrite <- (dict_get_Permutation c cs (sort_stable fst char_lt cs) Hnd)
      by (symmetry; apply sort_stable_Permutation).
    destruct (dict_get c cs) as [child|] eqn:Hget; [|reflexivity].
    cbn [option_map]. rewrite norm_label.
    destruct (strip_prefix (label child) (c :: w)) as [rest|]; [|reflexivity].
    apply dict_get_In in Hget. rewrite List.Forall_forall in IH, Hall.
    apply (IH _ Hget). destruct (Hall _ Hget) as [_ Hs].
    apply ser_node_inv in Hs. apply Hs.
Qed.

(** ** Labels of a trie built by [insert] *)

Lemma labels_in_inv P n :
  labels_in P n ->
  Forall P (label n) /\ Forall (fun kc => labels_in P (snd kc)) (children n).
Proof. intros H. now inversion H. Qed.

Lemma insert_from_labels (P : ascii -> Prop) d f n :
  forall w n', labels_in P n -> Forall P w ->
               insert_from d f n w = Returns n' -> labels_in P n'.
Proof.
  induction n as [l cs t ii IH] using TrieNode_children_ind.
  intros [|c w] n' Hlab Hw; [rewrite insert_from_nil; now intros [= <-]|].
  apply labels_in_inv in Hlab as [Hl Hkids]. cbn [label children] in *.
  rewrite insert_from_unfold. cbn [label children is_terminal inverted_index].
  destruct (dict_get c cs) as [child|] eqn:Hget.
  - assert (Hchild : labels_in P child).
    { rewrite List.Forall_forall in Hkids. apply (Hkids _ (dict_get_In _ _ _ Hget)). }
    assert (IHc : forall w' n'', Forall P w' ->
                    insert_from d f child w' = Returns n'' -> labels_in P n'').
    { intros w' n'' Hw' E. rewrite List.Forall_forall in IH.
      apply (IH _ (dict_get_In _ _ _ Hget) w' n'' Hchild Hw' E). }
    destruct (insert_child_cases (insert_from d f) (c :: w) d f child)
      as (p & w' & l' & Ew & El & Eins & _).
    rewrite Eins. clear Eins.
    apply labels_in_inv in Hchild as [Hcl Hck].
    rewrite El in Hcl. rewrite Ew in Hw.
    apply Forall_app in Hcl as [Hp Hl'], Hw as [_ Hw'].
    assert (Hstore : forall child', labels_in P child' ->
              labels_in P (Node l (dict_set c child' cs) t ii)).
    { intros child' Hc'. constructor; cbn [label children]; [exact Hl|].
      now apply dict_set_Forall. }
    assert (Hrel : labels_in P (Node l' (children child) (is_terminal child)
                                  (inverted_index child))).
    { constructor; cbn [label children]; assumption. }
    destruct w' as [|a w'], l' as [|b l'].
    + intros [= <-]. apply Hstore. constructor; cbn [label children]; [|exact Hck].
      rewrite El, app_nil_r. exact Hp.
    + intros [= <-]. apply Hstore. constructor; cbn [label children].
      * rewrite Ew, app_nil_r. exact Hp.
      * constructor; [exact Hrel | constructor].
    + destruct (insert_from d f child (a :: w')) as [child'| |] eqn:E;
        cbn [bind]; try discriminate.
      intros [= <-]. apply Hstore. now apply (IHc (a :: w') child').
    + destruct p as [|x p]; cbn [bind]; [discriminate|].
      intros [= <-]. apply Hstore. constructor; cbn [label children]; [exact Hp|].
      constructor; [exact Hrel|]. constructor; [|constructor].
      constructor; cbn [new_terminal label children]; [exact Hw' | constructor].
  - intros [= <-]. constructor; cbn [label children]; [exact Hl|].
    apply dict_set_Forall; [exact Hkids|].
    constructor; cbn [new_terminal label children snd]; [exact Hw | constructor].
Qed.

Lemma insert_all_labels (P : ascii -> Prop) calls :
  Forall (fun call => Forall P (fst (fst call))) calls ->
  forall t t', labels_in P (root t) -> insert_all t calls = Returns t' ->
               labels_in P (root t').
Proof.
  induction 1 as [|[[w d] f] calls Hw Hcalls IH]; intros t t' Hlab.
  - now intros [= <-].
  - cbn [insert_all]. unfold insert.
    destruct (insert_from d f (root t) w) as [r| |] eqn:E; cbn [bind]; try discriminate.
    apply IH. cbn [root]. now apply (insert_from_labels P d f (root t) w r).
Qed.

Lemma wf_ser_node n :
  wf_node n -> labels_in (fun c => serializable_char c = true) n -> ser_node n.
Proof.
  induction n as [l cs t ii IH] using TrieNode_children_ind.
  intros Hwf Hlab. apply wf_node_inv in Hwf as (Hl & [Hnd Hall] & _).
  apply labels_in_inv in Hlab as [Hchars Hkids]. cbn [label children] in *.
  constructor; cbn [label children]; [exact Hl | exact Hchars | exact Hnd |].
  rewrite List.Forall_forall in *. intros kc Hin.
  destruct (Hall kc Hin) as [Hhd Hw]. split; [exact Hhd|].
  apply (IH kc Hin Hw), (Hkids kc Hin).
Qed.

Lemma wf_ser_children cs :
  wf_children cs ->
  Forall (fun kc => labels_in (fun c => serializable_char c = true) (snd kc)) cs ->
  ser_children cs.
Proof.
  intros [Hnd Hall] Hkids. split; [exact Hnd|].
  rewrite List.Forall_forall in *. intros kc Hin.
  destruct (Hall kc Hin) as [Hhd Hw]. split; [exact Hhd|].
  apply wf_ser_node; [exact Hw | apply (Hkids kc Hin)].
Qed.

(** ** Terminal nodes hold postings *)

#[local] Arguments insert_from : simpl never.

Lemma occupied_inv n :
  occupied n ->
  (is_terminal n = true -> inverted_index n <> []) /\
  Forall (fun kc => occupied (snd kc)) (children n).
Proof. intros H. now inversion H. Qed.

Lemma insert_from_occupied d f n :
  forall w n', occupied n -> insert_from d f n w = Returns n' -> occupied n'.
Proof.
  induction n as [l cs t ii IH] using TrieNode_children_ind.
  intros [|c w] n' Hocc; [rewrite insert_from_nil; now intros [= <-]|].
  apply occupied_inv in Hocc as [Ht Hkids].
  cbn [is_terminal inverted_index children] in *.
  rewrite insert_from_unfold. cbn [label children is_terminal inverted_index].
  destruct (dict_get c cs) as [child|] eqn:Hget.
  - assert (Hchild : occupied child).
    { rewrite List.Forall_forall in Hkids. apply (Hkids _ (dict_get_In _ _ _ Hget)). }
    assert (IHc : forall w' n'',
                    insert_from d f child w' = Returns n'' -> occupied n'').
    { intros w' n'' E. rewrite List.Forall_forall in IH.
      apply (IH _ (dict_get_In _ _ _ Hget) w' n'' Hchild E). }
    destruct (insert_child_cases (insert_from d f) (c :: w) d f child)
      as (p & w' & l' & Ew & El & Eins & _).
    rewrite Eins. clear Eins.
    apply occupied_inv in Hchild as [Hct Hck].
    assert (Hstore : forall child', occupied child' ->
              occupied (Node l (dict_set c child' cs) t ii)).
    { intros child' Hc'. constructor; cbn [is_terminal inverted_index children];
        [exact Ht|]. now apply dict_set_Forall. }
    assert (Hrel : occupied (Node l' (children child) (is_terminal child)
                               (inverted_index child))).
    { constructor; cbn [is_terminal inverted_index children]; assumption. }
    assert (Hnew : forall lbl, occupied (new_terminal lbl d f)).
    { intros lbl. constructor; cbn [new_terminal is_terminal inverted_index children];
        [discriminate | constructor]. }
    destruct w' as [|a w'], l' as [|b l'].
    + intros [= <-]. apply Hstore.
      constructor; cbn [is_terminal inverted_index children]; [|exact Hck].
      intros _. destruct (inverted_index child); discriminate.
    + intros [= <-]. apply Hstore.
      constructor; cbn [is_terminal inverted_index children]; [discriminate|].
      constructor; [exact Hrel | constructor].
    + destruct (insert_from d f child (a :: w')) as [child'| |] eqn:E;
        cbn [bind]; try discriminate.
      intros [= <-]. apply Hstore. now apply (IHc (a :: w') child').
    + destruct p as [|x p]; cbn [bind]; [discriminate|].
      intros [= <-]. apply Hstore.
      constructor; cbn [is_terminal inverted_index children]; [discriminate|].
      constructor; [exact Hrel|]. constructor; [apply Hnew | constructor].
  - intros [= <-]. constructor; cbn [is_terminal inverted_index children]; [exact Ht|].
    apply dict_set_Forall; [exact Hkids|].
    cbn [snd]. constructor; cbn [new_terminal is_terminal inverted_index children];
      [discriminate | constructor].
Qed.


Lemma edge_find_app child q : edge_find child (label child ++ q) = find_from child q.
Proof. unfold edge_find. now rewrite strip_prefix_app. Qed.

(** What is found below a child is found from its parent, behind the
    child's label. *)
Lemma find_from_child n k g q :
  wf_children (children n) -> In (k, g) (children n) ->
  find_from n (label g ++ q) = find_from g q.
Proof.
  intros [Hnd Hall] Hin.
  rewrite List.Forall_forall in Hall. destruct (Hall _ Hin) as [Hhd _].
  cbn [fst snd] in Hhd.
  destruct (label g) as [|k' l'] eqn:El; [discriminate|]. injection Hhd as ->.
  cbn [app]. rewrite find_from_edge, (dict_get_NoDup_In k g _ Hnd Hin).
  change (k :: l' ++ q) with ((k :: l') ++ q). rewrite <- El. apply edge_find_app.
Qed.

Lemma child_word n k g q :
  wf_children (children n) -> In (k, g) (children n) -> find_from g q <> [] ->
  exists w, find_from n (k :: w) <> [].
Proof.
  intros Hk Hin Hq. pose proof (find_from_child n k g q Hk Hin) as E.
  destruct Hk as [_ Hall]. rewrite List.Forall_forall in Hall.
  destruct (Hall _ Hin) as [Hhd _]. cbn [fst snd] in Hhd.
  destruct (label g) as [|k' l'] eqn:El; [discriminate|]. injection Hhd as ->.
  exists (l' ++ q). cbn [app] in E. now rewrite E.
Qed.

(** Some word is found in every subtree. *)
Lemma occupied_word n : wf_node n -> occupied n -> exists q, find_from n q <> [].
Proof.
  induction n as [l cs t ii IH] using TrieNode_children_ind.
  intros Hwf Hocc. apply wf_node_inv in Hwf as (_ & Hk & Hnt).
  apply occupied_inv in Hocc as [Ht Hkids].
  cbn [is_terminal inverted_index children] in *.
  destruct t.
  - exists []. rewrite find_from_unfold. unfold find_end.
    cbn [is_terminal inverted_index]. now apply Ht.
  - destruct (Hnt eq_refl) as [_ Hlen].
    destruct cs as [|[k g] r]; [cbn in Hlen; lia|].
    inversion IH as [|? ? IHg _]; subst.
    inversion Hkids as [|? ? Hg _]; subst.
    pose proof Hk as [_ Hall]. inversion Hall as [|? ? [_ Hwg] _]; subst.
    destruct (IHg Hwg Hg) as [q Hq].
    destruct (child_word (Node l ((k, g) :: r) false ii) k g q Hk
                ltac:(now left) Hq) as [w Hw].
    now exists (k :: w).
Qed.


Lemma occupied_new : occupied (root new_CompactTrie).
Proof. constructor; [discriminate | constructor]. Qed.


(** ** The depth of a trie and the depth of the recursion *)

Lemma height_unfold n :
  height n = S (list_max (map (fun kc => height (snd kc)) (children n))).
Proof. now destruct n. Qed.

Lemma height_child k g (cs : list (ascii * TrieNode)) :
  In (k, g) cs -> height g <= list_max (map (fun kc => height (snd kc)) cs).
Proof.
  intros Hin.
  pose proof (proj1 (list_max_le (map (fun kc => height (snd kc)) cs) _) (le_n _))
    as Hall.
  rewrite List.Forall_forall in Hall. apply Hall. apply in_map_iff. now exists (k, g).
Qed.

(** A trie is no deeper than its longest word is long. *)
Lemma words_bound_height n :
  forall m,
    wf_children (children n) ->
    Forall (fun kc => occupied (snd kc)) (children n) ->
    (forall q, find_from n q <> [] -> length q <= m) ->
    height n <= S m.
Proof.
  induction n as [l cs t ii IH] using TrieNode_children_ind.
  intros m Hk Hocc Hbound. rewrite height_unfold. cbn [children] in *.
  apply le_n_S, list_max_le, List.Forall_forall. intros h Hh.
  apply in_map_iff in Hh as ([k g] & <- & Hin). cbn [snd].
  pose proof Hk as [_ Hall]. rewrite List.Forall_forall in IH, Hall, Hocc.
  destruct (Hall _ Hin) as [Hhd Hwg]. cbn [fst snd] in Hhd, Hwg.
  pose proof (Hocc _ Hin) as Hog. cbn [snd] in Hog.
  assert (Hsub : forall q, find_from g q <> [] -> length (label g) + length q <= m).
  { intros q Hq. rewrite <- length_app. apply Hbound.
    now rewrite (find_from_child (Node l cs t ii) k g q Hk Hin). }
  destruct (occupied_word g Hwg Hog) as [q0 Hq0]. pose proof (Hsub _ Hq0) as H0.
  assert (Hlen : 1 <= length (label g)).
  { destruct (label g); [discriminate | cbn [length]; lia]. }
  pose proof (wf_node_inv _ Hwg) as (_ & Hkg & _).
  pose proof (occupied_inv _ Hog) as [_ Hcg].
  specialize (IH _ Hin (m - length (label g)) Hkg Hcg). cbn [snd] in IH.
  assert (Hg : height g <= S (m - length (label g))).
  { apply IH. intros q Hq. specialize (Hsub _ Hq). lia. }
  lia.
Qed.

Lemma write_loop_full {A} (round : A -> list str * bool) (full : A -> list str) items :
  (forall x, In x items -> round x = (full x, true)) ->
  write_loop round items = (flat_map full items, true).
Proof.
  induction items as [|x rest IH]; intros Hall; [reflexivity|].
  cbn [write_loop flat_map]. rewrite (Hall x) by now left.
  rewrite IH; [reflexivity|]. intros y Hy. apply Hall. now right.
Qed.

(** With room for the height of the tree the recursion completes, and the
    lines written are those of [pre_order_serialize]. *)
Lemma serialize_within_full n :
  forall depth, height n <= depth ->
    pre_order_serialize_within depth n = (pre_order_serialize n, true).
Proof.
  induction n as [l cs t ii IH] using TrieNode_children_ind.
  intros [|depth] Hh; rewrite height_unfold in Hh; [lia|]. cbn [children] in Hh.
  rewrite pre_order_serialize_unfold. cbn [pre_order_serialize_within children].
  rewrite (write_loop_full _
             (fun char => match dict_with pre_order_serialize char cs with
                          | Some lines => lines
                          | None => []
                          end)); [reflexivity|].
  intros char _. rewrite dict_with_get.
  destruct (dict_get char cs) as [child|] eqn:Hget; [|reflexivity]. cbn [option_map].
  apply dict_get_In in Hget. rewrite List.Forall_forall in IH.
  apply (IH _ Hget). pose proof (height_child _ _ _ Hget). cbn [snd]. lia.
Qed.

Lemma save_to_file_full `{Interpreter} t :
  height (root t) <= call_depth ->
  save_to_file t = concat (pre_order_serialize (root t)).
Proof. intros Hh. unfold save_to_file. now rewrite serialize_within_full. Qed.


(** Writing a trie no deeper than the recursion may go and reading the file
    back gives the trie with the children of every node in key order. *)
Lemma save_load `{Interpreter} t :
  wf_root (root t) ->
  labels_in (fun c => serializable_char c = true) (root t) ->
  height (root t) <= call_depth ->
  load_from_file (Some (save_to_file t)) = (true, {| root := norm (root t) |}).
Proof.
  intros (Hl & _ & _ & Hk) Hlab Hh.
  pose proof (labels_in_inv _ _ Hlab) as [_ Hkids].
  pose proof (wf_ser_children _ Hk Hkids) as Hser.
  rewrite save_to_file_full by exact Hh. rewrite serialize_norm by exact Hser.
  apply load_preorder.
  - now rewrite norm_label.
  - destruct (root t) as [l cs tt ii]. rewrite norm_unfold. cbn [children] in *.
    now apply norm_ser_children.
  - now apply norm_labels_in.
Qed.



(** ** Files that hold more, or less, than a tree *)






Lemma preorder_lines_node_lines m :
  ser_node m -> Forall is_node_line (preorder_lines m).
Proof.
  induction m as [l cs t ii IH] using TrieNode_children_ind.
  intros Hs. pose proof (ser_node_inv _ Hs) as (Hl & Hc & _ & Hall).
  cbn [label children preorder_lines] in *. constructor.
  - destruct l as [|c l]; [contradiction|].
    exists (Node (c :: l) cs t ii), c. auto.
  - clear Hs. induction cs as [|kc rest IHcs]; [constructor|].
    inversion IH as [|? ? Hkc Hrest]; subst.
    inversion Hall as [|? ? [_ Hk1] Hk2]; subst.
    cbn [flat_map]. apply Forall_app. split; [now apply Hkc | now apply IHcs].
Qed.

Lemma load_lines_node_lines lines :
  Forall is_node_line lines -> forall st, exists st', load_lines st lines = (true, st').
Proof.
  induction 1 as [|line rest (m & key & Hc & Hk & ->) Hrest IH]; intros st.
  - exists st. reflexivity.
  - cbn [load_lines]. destruct (stack st) as [|[p r] stk] eqn:Hs.
    + exists st. reflexivity.
    + rewrite (load_line_node m st p r stk key Hc Hk Hs). apply IH.
Qed.

(** Any number of leading lines of a tree is accepted. *)
Lemma load_prefix t k :
  wf_root (root t) ->
  labels_in (fun c => serializable_char c = true) (root t) ->
  exists t',
    load_from_file (Some (concat (firstn (S k) (pre_order_serialize (root t)))))
    = (true, t').
Proof.
  intros Hwf Hlab.
  destruct Hwf as (Hl & _ & _ & Hk).
  pose proof (labels_in_inv _ _ Hlab) as [_ Hkids].
  pose proof (wf_ser_children _ Hk Hkids) as Hsc.
  rewrite serialize_norm by exact Hsc.
  pose proof (norm_labels_in _ _ Hlab) as Hlab'.
  destruct (preorder_lines_bodies _ Hlab') as (bodies & Eb & Fb).
  assert (Hkids' : ser_children (children (norm (root t)))).
  { destruct (root t) as [l cs tt ii]. rewrite norm_unfold. cbn [children] in *.
    now apply norm_ser_children. }
  assert (Hl' : label (norm (root t)) = []) by now rewrite norm_label.
  destruct (norm (root t)) as [l cs tt ii] eqn:En. cbn [label children] in *. subst l.
  assert (Hlines : Forall is_node_line
                     (flat_map (fun kc => preorder_lines (snd kc)) cs)).
  { destruct Hkids' as [_ Hall]. clear -Hall.
    induction Hall as [|kc rest [_ Hs] _ IH]; [constructor|].
    cbn [flat_map]. apply Forall_app. split; [now apply preorder_lines_node_lines | exact IH]. }
  unfold load_from_file.
  rewrite Eb, firstn_map, read_lines_concat by (now apply Forall_take).
  rewrite <- firstn_map, <- Eb. cbn [preorder_lines children firstn].
  rewrite load_root_line by reflexivity.
  cbn [children]. cbv beta iota.
  match goal with
  | |- context [load_lines ?st0 ?lines] =>
      destruct (load_lines_node_lines lines (Forall_take _ k _ Hlines) st0)
        as (st' & Est)
  end.
  rewrite Est. eexists. reflexivity.
Qed.

(** X4. [load_from_file] does not check that the children a line announces
    follow: a file written by [save_to_file] and cut after any of its lines
    is accepted, the call returning [True]. *)
Theorem load_accepts_truncated_file (calls : list (str * Z * Z)) (k : nat) :
  Forall (fun call => serializable (fst (fst call))) calls ->
  exists t t',
    insert_all new_CompactTrie calls = Returns t /\
    load_from_file (Some (concat (firstn (S k) (pre_order_serialize (root t)))))
    = (true, t').
Proof.
  intros Hser.
  destruct (insert_all_correct calls new_CompactTrie wf_root_new)
    as (t & E & Hwf & _).
  assert (Hlab : labels_in (fun c => serializable_char c = true) (root t)).
  { apply (insert_all_labels _ calls Hser new_CompactTrie t); [|exact E].
    constructor; constructor. }
  destruct (load_prefix t k Hwf Hlab) as (t' & Eload).
  exists t, t'. split; [exact E | exact Eload].
Qed.

(** X4 on the three-term trie cut after its second line. *)
Lemma load_accepts_truncated_file_witness :
  exists t t',
    insert_all new_CompactTrie
      [(s "carro", 1, 3); (s "carga", 2, 1); (s "car", 5, 2)]%Z = Returns t /\
    load_from_file (Some (concat (firstn 2 (pre_order_serialize (root t)))))
    = (true, t').
Proof.
  apply (load_accepts_truncated_file
           [(s "carro", 1, 3); (s "carga", 2, 1); (s "car", 5, 2)]%Z 1).
  repeat constructor.
Defined.

(** ** A trie deeper than the recursion may go *)








(** ** The file written depends on the postings alone *)




(** Sorting entries with distinct keys. *)





(** The shape of a trie follows from its answers. *)




End PersistProofs.

(* ===================================================================== *)
(** * Proofs: the query pipeline from the query string to the answer *)
(* ===================================================================== *)

Module SearchProofs.
Import Py CompactTrie RI TrieSpec QuerySpec RankSpec PersistSpec Scenario.
Import TrieProofs QueryProofs PersistProofs.

(** ** The tokenizer *)

Lemma spaced_replace query :
  replace ")" (s " ) ") (replace "(" (s " ( ") query) = spaced query.
Proof.
  unfold replace, spaced. induction query as [|c query IH]; [reflexivity|].
  cbn [flat_map]. rewrite flat_map_app, IH. f_equal.
  destruct (Ascii.eqb c "(") eqn:E1; [reflexivity|].
  cbn [flat_map]. now rewrite app_nil_r.
Qed.

Lemma spaced_app a b : spaced (a ++ b) = spaced a ++ spaced b.
Proof. apply flat_map_app. Qed.

Lemma spaced_plain t : Forall (fun c => plain_char c = true) t -> spaced t = t.
Proof.
  induction 1 as [|c t Hc _ IH]; [reflexivity|].
  unfold spaced in *. cbn [flat_map]. rewrite IH. unfold plain_char in Hc.
  destruct (Ascii.eqb c "("); [discriminate|].
  destruct (Ascii.eqb c ")"); [discriminate|]. reflexivity.
Qed.

Lemma lower_char_space c : is_space (lower_char c) = is_space c.
Proof. destruct c as [[] [] [] [] [] [] [] []]; reflexivity. Qed.

Lemma lower_char_plain c : plain_char (lower_char c) = plain_char c.
Proof. destruct c as [[] [] [] [] [] [] [] []]; reflexivity. Qed.

Lemma lower_char_twice c : lower_char (lower_char c) = lower_char c.
Proof. destruct c as [[] [] [] [] [] [] [] []]; reflexivity. Qed.

Lemma lower_twice t : lower (lower t) = lower t.
Proof.
  unfold lower. rewrite map_map. apply map_ext. intros c. apply lower_char_twice.
Qed.

Lemma split_ws_from_end cur :
  split_ws_from cur [] = match cur with [] => [] | _ :: _ => [rev cur] end.
Proof. reflexivity. Qed.

Lemma split_ws_from_space cur c x :
  is_space c = true ->
  split_ws_from cur (c :: x) =
  match cur with [] => [] | _ :: _ => [rev cur] end ++ split_ws_from [] x.
Proof. intros H. cbn [split_ws_from]. rewrite H. now destruct cur. Qed.

Lemma split_ws_from_char cur c x :
  is_space c = false -> split_ws_from cur (c :: x) = split_ws_from (c :: cur) x.
Proof. intros H. cbn [split_ws_from]. now rewrite H. Qed.

Lemma split_ws_from_word w :
  Forall (fun c => is_space c = false) w ->
  forall cur x, split_ws_from cur (w ++ x) = split_ws_from (rev w ++ cur) x.
Proof.
  induction 1 as [|c w Hc _ IH]; intros cur x; [reflexivity|].
  cbn [app rev]. rewrite (split_ws_from_char _ _ _ Hc), IH, <- app_assoc.
  reflexivity.
Qed.

(** A token of a spaced query, read so far or still to be read. *)
Lemma split_spaced_tokens query :
  forall cur,
    Forall (fun c => is_space c = false /\ plain_char c = true) cur ->
    Forall split_token (split_ws_from cur (spaced query)).
Proof.
  assert (Hcur : forall cur,
             Forall (fun c => is_space c = false /\ plain_char c = true) cur ->
             Forall split_token (match cur with [] => [] | _ :: _ => [rev cur] end)).
  { intros [|c cur] Hc; constructor; [|constructor]. split; [|split].
    - intros E. apply (f_equal (@List.length _)) in E.
      rewrite length_rev in E. discriminate E.
    - apply Forall_rev. revert Hc. apply List.Forall_impl. tauto.
    - right. right. apply Forall_rev. revert Hc. apply List.Forall_impl. tauto. }
  induction query as [|c query IH]; intros cur Hc.
  - cbn [spaced flat_map]. rewrite split_ws_from_end. now apply Hcur.
  - unfold spaced. cbn [flat_map]. fold (spaced query).
    destruct (Ascii.eqb c "(") eqn:E1; [|destruct (Ascii.eqb c ")") eqn:E2].
    + cbn [s list_ascii_of_string app].
      rewrite split_ws_from_space by reflexivity.
      apply Forall_app. split; [now apply Hcur|].
      rewrite split_ws_from_char, split_ws_from_space by reflexivity.
      cbn [app rev]. constructor; [|apply IH; constructor].
      split; [discriminate|]. split; [repeat constructor | now left].
    + cbn [s list_ascii_of_string app].
      rewrite split_ws_from_space by reflexivity.
      apply Forall_app. split; [now apply Hcur|].
      rewrite split_ws_from_char, split_ws_from_space by reflexivity.
      cbn [app rev]. constructor; [|apply IH; constructor].
      split; [discriminate|]. split; [repeat constructor | right; now left].
    + cbn [app]. destruct (is_space c) eqn:Es.
      * rewrite split_ws_from_space by exact Es.
        apply Forall_app. split; [now apply Hcur | apply IH; constructor].
      * rewrite split_ws_from_char by exact Es. apply IH. constructor; [|exact Hc].
        split; [exact Es|]. unfold plain_char. now rewrite E1, E2.
Qed.

Lemma is_op_lower_fixed t :
  is_op t = true -> lower t = t -> t = s "(" \/ t = s ")".
Proof.
  intros Hop Hl.
  destruct (op_cases t Hop) as [-> | [-> | [-> | ->]]]; auto; discriminate Hl.
Qed.

(** X9. Every token [_tokenize_query] returns is non-empty and holds no
    blank; a parenthesis is always a token of its own, wherever it stands in
    the query; and a token is [AND], [OR] or a parenthesis exactly as
    written, or a term in lower case. *)
Theorem tokenize_query_tokens (query : str) :
  Forall query_token (_tokenize_query query).
Proof.
  unfold _tokenize_query. rewrite spaced_replace.
  apply Forall_flat_map.
  pose proof (split_spaced_tokens query [] ltac:(constructor)) as Htok.
  fold (split_ws (spaced query)) in Htok. revert Htok.
  apply List.Forall_impl. intros t Ht.
  destruct (strip t) as [|c r]; [constructor|].
  destruct (is_op t) eqn:Eop; (constructor; [|constructor]).
  - split; [exact Ht | now left].
  - destruct Ht as (Hne & Hsp & Hpar). split; [|right; apply lower_twice].
    split; [|split].
    + destruct t; [congruence | discriminate].
    + unfold lower. apply Forall_map. revert Hsp. apply List.Forall_impl.
      intros x Hx. now rewrite lower_char_space.
    + destruct Hpar as [-> | [-> | Hpl]]; [discriminate Eop | discriminate Eop |].
      right. right. unfold lower. apply Forall_map. revert Hpl.
      apply List.Forall_impl. intros x Hx. now rewrite lower_char_plain.
Qed.

Lemma split_ws_spaced_token t :
  split_token t ->
  split_ws (spaced t) = [t] /\
  forall x, split_ws (spaced t ++ " "%char :: x) = t :: split_ws x.
Proof.
  intros (Hne & Hsp & [-> | [-> | Hpl]]); [split; [reflexivity | intros x; reflexivity]..|].
  rewrite (spaced_plain t Hpl). unfold split_ws.
  assert (Hrev : rev t <> []).
  { intros E. apply Hne. apply (f_equal (@rev _)) in E. now rewrite rev_involutive in E. }
  split.
  - rewrite <- (app_nil_r t) at 1. rewrite (split_ws_from_word t Hsp), app_nil_r.
    rewrite split_ws_from_end. destruct (rev t) eqn:E; [congruence|].
    rewrite <- E, rev_involutive. reflexivity.
  - intros x. rewrite (split_ws_from_word t Hsp), app_nil_r.
    rewrite split_ws_from_space by reflexivity.
    destruct (rev t) eqn:E; [congruence|]. rewrite <- E, rev_involutive. reflexivity.
Qed.

Lemma join_cons_cons sep x y rest :
  join sep (x :: y :: rest) = x ++ sep ++ join sep (y :: rest).
Proof. reflexivity. Qed.

Lemma split_ws_join toks :
  Forall split_token toks -> split_ws (spaced (join (s " ") toks)) = toks.
Proof.
  induction 1 as [|t rest Ht Hrest IH]; [reflexivity|].
  destruct (split_ws_spaced_token t Ht) as [Hone Hmore].
  destruct rest as [|t' rest]; [exact Hone|].
  rewrite join_cons_cons, !spaced_app.
  change (spaced (s " ")) with [" "%char]. cbn [app].
  rewrite Hmore. f_equal. exact IH.
Qed.

(** X10. A sequence of tokens written with one blank between them is read
    back by [_tokenize_query] as that sequence: any sequence of parentheses,
    [AND], [OR] and lower-case terms without blanks and parentheses is the
    tokenization of a query. *)
Theorem tokenize_query_join (toks : list str) :
  Forall query_token toks -> _tokenize_query (join (s " ") toks) = toks.
Proof.
  intros Htoks. unfold _tokenize_query. rewrite spaced_replace, split_ws_join.
  - induction Htoks as [|t rest [(Hne & Hsp & _) Hcase] _ IH]; [reflexivity|].
    cbn [flat_map]. rewrite IH, (strip_clean t Hsp).
    destruct t as [|c r]; [congruence|].
    destruct Hcase as [-> | Hl]; [reflexivity|].
    destruct (is_op (c :: r)); [reflexivity | now rewrite Hl].
  - revert Htoks. apply List.Forall_impl. now intros t [Ht _].
Qed.

(** X10 on the tokens of [(rock OR jazz) AND 2005]. *)
Lemma tokenize_query_join_witness :
  _tokenize_query
    (join (s " ") [s "("; s "rock"; s "OR"; s "jazz"; s ")"; s "AND"; s "2005"])
  = [s "("; s "rock"; s "OR"; s "jazz"; s ")"; s "AND"; s "2005"].
Proof.
  apply (tokenize_query_join
           [s "("; s "rock"; s "OR"; s "jazz"; s ")"; s "AND"; s "2005"]).
  repeat (constructor;
          [split;
           [split; [discriminate | split; [repeat constructor|]];
            first [now left | right; now left | right; right; repeat constructor]
           | first [left; reflexivity | right; reflexivity]] |]).
  constructor.
Defined.

(** ** Words without an operator *)

Lemma rpn_fold_terms tokens :
  Forall (fun t => is_op t = false) tokens ->
  forall output stack,
    fold_left rpn_step tokens (output, stack) = (output ++ tokens, stack).
Proof.
  induction 1 as [|t tokens Ht _ IH]; intros output stack; cbn [fold_left].
  - now rewrite app_nil_r.
  - rewrite (rpn_step_term _ _ _ Ht), IH, <- app_assoc. reflexivity.
Qed.

Lemma eval_loop_terms self tokens :
  Forall (fun t => is_op t = false) tokens ->
  forall st,
    eval_loop self st tokens =
    Returns (rev (map (fun t => doc_id_set (find (trie self) t)) tokens) ++ st).
Proof.
  induction 1 as [|t tokens Ht _ IH]; intros st; cbn [eval_loop]; [reflexivity|].
  rewrite (eval_step_term _ _ _ Ht). cbn [bind]. rewrite IH. cbn [map rev].
  rewrite <- app_assoc. reflexivity.
Qed.

(** X11. Terms are not joined by an implicit operator: a query of two or
    more tokens none of which is [AND], [OR] or a parenthesis, such as two
    words, or two words joined by a lower-case [and], leaves more than one
    set on the operand stack; [_evaluate_rpn] raises [ValueError] and
    [search] returns the empty list, whatever the index holds. *)
Theorem words_without_operator `{SetIteration} (self : InformationRetriever)
    (query : str) :
  Forall (fun t => is_op t = false) (_tokenize_query query) ->
  2 <= length (_tokenize_query query) ->
  _evaluate_rpn self (_to_rpn (_tokenize_query query))
  = Raises (ValueError invalid_query_message) /\
  search self query = Returns [].
Proof.
  intros Hterms Hlen.
  assert (Heval : _evaluate_rpn self (_to_rpn (_tokenize_query query))
                  = Raises (ValueError invalid_query_message)).
  { unfold _to_rpn. rewrite (rpn_fold_terms _ Hterms), app_nil_r. cbn [app].
    unfold _evaluate_rpn. rewrite (eval_loop_terms self _ Hterms), app_nil_r.
    cbn [bind].
    assert (Hl : 2 <= length (rev (map (fun t => doc_id_set (find (trie self) t))
                                       (_tokenize_query query))))
      by now rewrite length_rev, length_map.
    destruct (rev _) as [|a [|b l]]; cbn [length] in Hl; [lia | lia | reflexivity]. }
  split; [exact Heval|]. now apply search_of_ValueError with (msg := invalid_query_message).
Qed.

(** X11 on the query ["rock and roll"]. *)
Lemma words_without_operator_witness :
  _evaluate_rpn abc_index (_to_rpn (_tokenize_query (s "rock and roll")))
  = Raises (ValueError invalid_query_message) /\
  @search SlotIteration abc_index (s "rock and roll") = Returns [].
Proof.
  apply (@words_without_operator SlotIteration abc_index (s "rock and roll")).
  - repeat constructor.
  - vm_compute. lia.
Defined.

(** ** The answer of [search] as a set *)

Lemma bind_no_ValueError {A B} (m : outcome A) (k : A -> outcome B) :
  no_ValueError m -> (forall a, no_ValueError (k a)) -> no_ValueError (bind m k).
Proof. destruct m as [a|e|]; cbn; auto. Qed.

Lemma except_no_ValueError {A} (m handler : outcome A) :
  no_ValueError m -> except_ValueError m handler = m.
Proof. destruct m as [a|[]|]; cbn; tauto. Qed.

Lemma float_of_int_no_ValueError z : no_ValueError (float_of_int z).
Proof. unfold float_of_int. destruct (binary_normalize _ _ _ _ _); exact I. Qed.

Lemma float_div_no_ValueError x y : no_ValueError (float_div x y).
Proof. unfold float_div. destruct y; exact I. Qed.

Lemma z_score_no_ValueError self tf term :
  no_ValueError (_calculate_z_score self tf term).
Proof.
  unfold _calculate_z_score. destruct (global_stats self !! term) as [stats|]; [|exact I].
  destruct (float_le_int _ _); [exact I|].
  apply bind_no_ValueError.
  - unfold int_sub_float. apply bind_no_ValueError; [apply float_of_int_no_ValueError|].
    intros a. exact I.
  - intros a. apply float_div_no_ValueError.
Qed.

Lemma sum_z_scores_no_ValueError self d terms :
  forall total count, no_ValueError (sum_z_scores self d terms total count).
Proof.
  induction terms as [|term rest IH]; intros total count; cbn [sum_z_scores]; [exact I|].
  destruct (0 <? _)%Z; [|apply IH].
  apply bind_no_ValueError; [apply z_score_no_ValueError | intros a; apply IH].
Qed.

Lemma doc_relevance_no_ValueError self terms d :
  no_ValueError (doc_relevance self terms d).
Proof.
  unfold doc_relevance. apply bind_no_ValueError; [apply sum_z_scores_no_ValueError|].
  intros [total count]. destruct (0 <? count)%Z; [|exact I].
  apply bind_no_ValueError; [|intros a; exact I].
  unfold float_div_int. apply bind_no_ValueError; [apply float_of_int_no_ValueError|].
  intros a. apply float_div_no_ValueError.
Qed.

Lemma ranked_docs_no_ValueError self terms ids :
  no_ValueError (ranked_docs self terms ids).
Proof.
  induction ids as [|d ids IH]; cbn [ranked_docs]; [exact I|].
  apply bind_no_ValueError; [apply doc_relevance_no_ValueError|]. intros r.
  apply bind_no_ValueError; [exact IH|]. intros tail. exact I.
Qed.

Lemma rank_results_no_ValueError `{SetIteration} self docs terms :
  no_ValueError (_rank_results self docs terms).
Proof.
  unfold _rank_results. apply bind_no_ValueError; [apply ranked_docs_no_ValueError|].
  intros a. exact I.
Qed.

Lemma existsb_filter_length {A} (f : A -> bool) l :
  existsb f l = (0 <? Z.of_nat (length (List.filter f l)))%Z.
Proof.
  induction l as [|x l IH]; [reflexivity|]. cbn [existsb List.filter].
  destruct (f x); cbn [orb length]; [|exact IH].
  symmetry. apply Z.ltb_lt. lia.
Qed.

Lemma sum_z_scores_count self d terms :
  forall total count total' count',
    sum_z_scores self d terms total count = Returns (total', count') ->
    count' =
    (count + Z.of_nat (length (List.filter
                (fun term => (0 <? tf_of (find (trie self) term) d)%Z) terms)))%Z.
Proof.
  induction terms as [|term rest IH]; intros total count total' count';
    cbn [sum_z_scores List.filter].
  - intros [= _ <-]. cbn [length]. lia.
  - destruct (0 <? tf_of (find (trie self) term) d)%Z.
    + destruct (_calculate_z_score self _ term) as [z| |]; cbn [bind]; try discriminate.
      intros Hs. apply IH in Hs. cbn [length]. lia.
    + apply IH.
Qed.

Lemma doc_relevance_has_term self terms d r :
  doc_relevance self terms d = Returns r ->
  has_query_term self terms d = match r with Some _ => true | None => false end.
Proof.
  unfold doc_relevance, has_query_term.
  destruct (sum_z_scores self d terms float_zero 0) as [[total count]| |] eqn:E;
    cbn [bind]; try discriminate.
  apply sum_z_scores_count in E. rewrite Z.add_0_l in E.
  rewrite existsb_filter_length, <- E.
  destruct (0 <? count)%Z.
  - destruct (float_div_int total count); cbn [bind]; try discriminate.
    now intros [= <-].
  - now intros [= <-].
Qed.

Lemma ranked_docs_members self terms ids :
  forall ranked,
    ranked_docs self terms ids = Returns ranked ->
    map snd ranked = List.filter (has_query_term self terms) ids.
Proof.
  induction ids as [|d ids IH]; intros ranked; cbn [ranked_docs List.filter].
  - now intros [= <-].
  - destruct (doc_relevance self terms d) as [r| |] eqn:Er; cbn [bind]; try discriminate.
    destruct (ranked_docs self terms ids) as [tail| |]; cbn [bind]; try discriminate.
    intros [= <-]. rewrite (doc_relevance_has_term _ _ _ _ Er).
    destruct r; cbn [map snd]; now rewrite (IH tail eq_refl).
Qed.

Lemma has_query_term_tokens `{SetIteration} self tokens d :
  has_query_term self (iter_strs (query_terms_of tokens)) d = true <->
  term_in_doc self tokens d.
Proof.
  unfold has_query_term, term_in_doc. rewrite existsb_exists. split.
  - intros (term & Hin & Htf). apply list_elem_of_In, iter_strs_elem in Hin.
    unfold query_terms_of in Hin.
    apply elem_of_list_to_set, list_elem_of_filter in Hin as [Hop Hin].
    exists term. split; [now apply list_elem_of_In|]. split; [exact Hop|].
    now apply Z.ltb_lt.
  - intros (term & Hin & Hop & Htf). exists term. split; [|now apply Z.ltb_lt].
    apply list_elem_of_In, iter_strs_elem. unfold query_terms_of.
    apply elem_of_list_to_set, list_elem_of_filter. split; [exact Hop|].
    now apply list_elem_of_In.
Qed.

Lemma iter_ints_empty `{SetIteration} : iter_ints ∅ = [].
Proof.
  destruct (iter_ints ∅) as [|z l] eqn:E; [reflexivity|].
  assert (Hz : z ∈ iter_ints ∅) by (rewrite E; left).
  apply iter_ints_elem in Hz. set_solver.
Qed.

(** The list [search] returns is, up to its order, the candidates in which
    a query term occurs. *)
Lemma search_result_perm `{SetIteration} self query docs result :
  is_ready self = true ->
  _evaluate_rpn self (_to_rpn (_tokenize_query query)) = Returns docs ->
  search self query = Returns result ->
  Permutation result
    (List.filter
       (has_query_term self (iter_strs (query_terms_of (_tokenize_query query))))
       (iter_ints docs)).
Proof.
  intros Hready Heval Hsearch.
  rewrite search_unfold, Heval in Hsearch by exact Hready. cbn [bind] in Hsearch.
  destruct (bool_decide (docs = ∅)) eqn:Ee.
  - apply bool_decide_eq_true in Ee. subst docs. cbn in Hsearch.
    injection Hsearch as <-. now rewrite iter_ints_empty.
  - rewrite except_no_ValueError in Hsearch by apply rank_results_no_ValueError.
    unfold _rank_results in Hsearch.
    destruct (ranked_docs self _ _) as [ranked| |] eqn:Er; cbn [bind] in Hsearch;
      try discriminate.
    injection Hsearch as <-.
    rewrite <- (ranked_docs_members _ _ _ _ Er).
    apply Permutation_map, sort_reverse_Permutation.
Qed.

(** X12. What [search] returns, as a set: when the boolean filter yields
    the documents [docs] and the ranking does not raise, the list returned
    holds no document twice, and holds exactly the documents of [docs] in
    which some term of the query occurs with a positive frequency; the
    empty list for an empty [docs]. *)
Theorem search_members `{SetIteration} (self : InformationRetriever)
    (query : str) (docs : gset Z) (result : list Z) :
  is_ready self = true ->
  _evaluate_rpn self (_to_rpn (_tokenize_query query)) = Returns docs ->
  search self query = Returns result ->
  NoDup result /\
  forall d, In d result <-> d ∈ docs /\ term_in_doc self (_tokenize_query query) d.
Proof.
  intros Hready Heval Hsearch.
  pose proof (search_result_perm self query docs result Hready Heval Hsearch) as Hperm.
  split.
  - apply NoDup_ListNoDup, (Permutation_NoDup (Permutation_sym Hperm)).
    apply List.NoDup_filter, NoDup_ListNoDup, iter_ints_NoDup.
  - intros d. split.
    + intros Hd. apply (Permutation_in _ Hperm), filter_In in Hd as [Hd Hhas].
      split; [now apply iter_ints_elem, list_elem_of_In|].
      now apply has_query_term_tokens.
    + intros [Hd Hhas]. apply (Permutation_in _ (Permutation_sym Hperm)), filter_In.
      split; [now apply list_elem_of_In, iter_ints_elem|].
      now apply has_query_term_tokens.
Qed.

(** X12 on the query ["a AND b"] over the three-term index, which returns
    the documents 2 and 3. *)
Lemma search_members_witness :
  NoDup [2; 3]%Z /\
  forall d, In d [2; 3]%Z <->
            d ∈ ({[2; 3]}%Z : gset Z) /\
            term_in_doc abc_index (_tokenize_query (s "a AND b")) d.
Proof.
  apply (@search_members SlotIteration abc_index (s "a AND b") {[2; 3]}%Z [2; 3]%Z).
  - reflexivity.
  - vm_compute. reflexivity.
  - vm_compute. reflexivity.
Defined.


(** ** From the query as written to the documents it denotes *)

Lemma tf_of_positive index_list d :
  Forall (fun p => (0 < snd p)%Z) index_list ->
  d ∈ doc_id_set index_list -> (0 < tf_of index_list d)%Z.
Proof.
  intros Hpos Hd. unfold doc_id_set in Hd.
  apply elem_of_list_to_set, list_elem_of_In, in_map_iff in Hd as ([d' f] & Hfst & Hin).
  cbn [fst] in Hfst. subst d'. unfold tf_of.
  destruct (List.find (fun dt => (fst dt =? d)%Z) index_list) as [dt|] eqn:E.
  - apply find_some in E as [Hdt _]. rewrite List.Forall_forall in Hpos.
    now apply Hpos.
  - apply (find_none _ _ E) in Hin. cbn [fst] in Hin.
    rewrite Z.eqb_refl in Hin. discriminate Hin.
Qed.

Lemma denote_term_in_doc self q d :
  (forall term, Forall (fun p => (0 < snd p)%Z) (find (trie self) term)) ->
  grammatical q = true ->
  d ∈ denote self q -> term_in_doc self (tokens_of q) d.
Proof.
  intros Hpos. unfold term_in_doc.
  induction q as [t | a IHa b IHb | a IHa b IHb | q IH]; cbn [grammatical denote tokens_of];
    intros Hg Hd.
  - apply negb_true_iff in Hg. exists t. split; [now left|]. split; [exact Hg|].
    now apply tf_of_positive.
  - apply andb_true_iff in Hg as [Hg _]. apply andb_true_iff in Hg as [Hg _].
    apply andb_true_iff in Hg as [Hga _]. apply elem_of_intersection in Hd as [Hd _].
    destruct (IHa Hga Hd) as (term & Hin & H1 & H2). exists term.
    split; [|auto]. apply in_or_app. now left.
  - apply andb_true_iff in Hg as [Hg _]. apply andb_true_iff in Hg as [Hga Hgb].
    apply elem_of_union in Hd as [Hd | Hd].
    + destruct (IHa Hga Hd) as (term & Hin & H1 & H2). exists term.
      split; [|auto]. apply in_or_app. now left.
    + destruct (IHb Hgb Hd) as (term & Hin & H1 & H2). exists term.
      split; [|auto]. apply in_or_app. right. now right.
  - destruct (IH Hg Hd) as (term & Hin & H1 & H2). exists term.
    split; [|auto]. apply in_or_app. right. apply in_or_app. now left.
Qed.

Lemma trie_of_find calls term :
  find (trie_of calls) term = match term with [] => [] | _ :: _ => postings_of term calls end.
Proof.
  unfold trie_of.
  destruct (insert_all_correct calls new_CompactTrie wf_root_new)
    as (t & E & Hwf & Hfind).
  rewrite E. destruct term as [|c r]; [now apply find_nil_root|].
  rewrite Hfind by discriminate. now rewrite find_new.
Qed.

Lemma postings_of_Forall (P : Z * Z -> Prop) term calls :
  Forall (fun call => P (snd (fst call), snd call)) calls ->
  Forall P (postings_of term calls).
Proof.
  induction 1 as [|[[w d] f] calls Hc _ IH]; [constructor|].
  cbn [postings_of]. destruct (str_eqb w term); [constructor|]; assumption.
Qed.

Lemma trie_of_positive calls :
  Forall (fun call => (0 < snd call)%Z) calls ->
  forall term, Forall (fun p => (0 < snd p)%Z) (find (trie_of calls) term).
Proof.
  intros Hpos term. rewrite trie_of_find. destruct term; [constructor|].
  apply postings_of_Forall. revert Hpos. apply List.Forall_impl. now intros [[w d] f].
Qed.

Lemma tokenize_join_eq toks :
  Forall query_token toks -> _tokenize_query (join (s " ") toks) = toks.
Proof.
  intros Htoks. unfold _tokenize_query. rewrite spaced_replace, split_ws_join.
  - induction Htoks as [|t rest [(Hne & Hsp & _) Hcase] _ IH]; [reflexivity|].
    cbn [flat_map]. rewrite IH, (strip_clean t Hsp).
    destruct t as [|c r]; [congruence|].
    destruct Hcase as [-> | Hl]; [reflexivity|].
    destruct (is_op (c :: r)); [reflexivity | now rewrite Hl].
  - revert Htoks. apply List.Forall_impl. now intros t [Ht _].
Qed.

Lemma evaluate_query_text self q :
  grammatical q = true ->
  Forall query_token (tokens_of q) ->
  _evaluate_rpn self (_to_rpn (_tokenize_query (join (s " ") (tokens_of q))))
  = Returns (denote self q).
Proof.
  intros Hg Htoks. rewrite (tokenize_join_eq _ Htoks), (to_rpn_query q Hg).
  unfold _evaluate_rpn. now rewrite (eval_postfix self q Hg []).
Qed.

(** X13. From the query as written to its answer. A query of the grammar,
    its tokens written with blanks between them and its terms in lower case,
    over a loaded index whose postings all have a positive frequency, as the
    indexer writes them: the list [search] returns, when the ranking does
    not raise, holds each document at most once and holds exactly the
    documents the query denotes. *)
Theorem search_semantics `{SetIteration} (self : InformationRetriever)
    (q : query) (result : list Z) :
  is_ready self = true ->
  grammatical q = true ->
  Forall query_token (tokens_of q) ->
  (forall term, Forall (fun p => (0 < snd p)%Z) (find (trie self) term)) ->
  search self (join (s " ") (tokens_of q)) = Returns result ->
  NoDup result /\ forall d, In d result <-> d ∈ denote self q.
Proof.
  intros Hready Hg Htoks Hpos Hsearch.
  pose proof (tokenize_join_eq _ Htoks) as Htok.
  pose proof (evaluate_query_text self q Hg Htoks) as Heval.
  pose proof (search_result_perm self _ _ _ Hready Heval Hsearch) as Hperm.
  rewrite Htok in Hperm. split.
  - apply NoDup_ListNoDup, (Permutation_NoDup (Permutation_sym Hperm)).
    apply List.NoDup_filter, NoDup_ListNoDup, iter_ints_NoDup.
  - intros d. split.
    + intros Hd. apply (Permutation_in _ Hperm), filter_In in Hd as [Hd _].
      now apply iter_ints_elem, list_elem_of_In.
    + intros Hd. apply (Permutation_in _ (Permutation_sym Hperm)), filter_In.
      split; [now apply list_elem_of_In, iter_ints_elem|].
      apply has_query_term_tokens. now apply denote_term_in_doc.
Qed.

(** X13 on the query ["a AND ( b OR c )"] over the three-term index. *)
Lemma search_semantics_witness :
  NoDup [2; 3]%Z /\
  forall d, In d [2; 3]%Z <->
            d ∈ denote abc_index
                  (QAnd (QTerm (s "a")) (QParen (QOr (QTerm (s "b")) (QTerm (s "c"))))).
Proof.
  apply (@search_semantics SlotIteration abc_index
           (QAnd (QTerm (s "a")) (QParen (QOr (QTerm (s "b")) (QTerm (s "c")))))
           [2; 3]%Z).
  - reflexivity.
  - reflexivity.
  - repeat (constructor;
            [split;
             [split; [discriminate | split; [repeat constructor|]];
              first [now left | right; now left | right; right; repeat constructor]
             | first [left; reflexivity | right; reflexivity]] |]).
    constructor.
  - apply trie_of_positive. repeat constructor.
  - vm_compute. reflexivity.
Defined.


(** ** A retriever loaded from the files of an index *)

Section FindExt.
Context (self self' : InformationRetriever).
Hypothesis same_find : forall w, find (trie self) w = find (trie self') w.
Hypothesis same_stats : global_stats self = global_stats self'.







End FindExt.





End SearchProofs.

(* ===================================================================== *)
(** * Proofs: the indexer *)
(* ===================================================================== *)

Module IndexerProofs.
Import Py CompactTrie TrieSpec PersistSpec LoadSpec.
Import TrieProofs QueryProofs PersistProofs.
Import Indexer IndexSpec.

(** ** Dicts in insertion order *)

Section ItemsFacts.
Context {K V : Type} `{EqDecision K}.
Implicit Types (d : list (K * V)).

Lemma item_get_set_eq k (v : V) d : item_get k (item_set k v d) = Some v.
Proof.
  induction d as [|[k' v'] d IH]; cbn [item_set item_get].
  - now rewrite decide_True.
  - destruct (decide (k = k')) as [->|Hne]; cbn [item_get].
    + now rewrite decide_True.
    + now rewrite decide_False.
Qed.

Lemma item_get_set_ne k k' (v : V) d :
  k' <> k -> item_get k' (item_set k v d) = item_get k' d.
Proof.
  intros Hne. induction d as [|[k0 v0] d IH]; cbn [item_set item_get].
  - now rewrite decide_False.
  - destruct (decide (k = k0)) as [->|Hk]; cbn [item_get].
    + now rewrite !decide_False.
    + destruct (decide (k' = k0)); [reflexivity | exact IH].
Qed.

Lemma item_get_None k d : item_get k d = None -> ~ In k (map fst d).
Proof.
  induction d as [|[k' v'] d IH]; cbn [item_get map fst]; [auto|].
  destruct (decide (k = k')); [discriminate|].
  intros Hd [Hk | Hin]; [congruence | now apply IH].
Qed.

Lemma item_set_keys_old k (v v0 : V) d :
  item_get k d = Some v0 -> map fst (item_set k v d) = map fst d.
Proof.
  induction d as [|[k' v'] d IH]; cbn [item_get item_set map fst]; [discriminate|].
  destruct (decide (k = k')); cbn [map fst]; [reflexivity|].
  intros Hd. now rewrite IH.
Qed.

Lemma item_set_keys_new k (v : V) d :
  item_get k d = None -> map fst (item_set k v d) = map fst d ++ [k].
Proof.
  induction d as [|[k' v'] d IH]; cbn [item_get item_set map fst app]; [reflexivity|].
  destruct (decide (k = k')); [discriminate|]. cbn [map fst].
  intros Hd. now rewrite IH.
Qed.

Lemma item_set_NoDup k (v : V) d :
  NoDup (map fst d) -> NoDup (map fst (item_set k v d)).
Proof.
  intros Hnd. destruct (item_get k d) as [v0|] eqn:E.
  - now rewrite (item_set_keys_old k v v0 d E).
  - rewrite (item_set_keys_new k v d E). apply NoDup_app.
    split; [exact Hnd|]. split; [|apply NoDup_singleton].
    intros x Hx Hk. apply list_elem_of_singleton in Hk. subst x.
    apply (item_get_None k d E). now apply list_elem_of_In.
Qed.

Lemma item_get_In k (v : V) d : item_get k d = Some v -> In (k, v) d.
Proof.
  induction d as [|[k' v'] d IH]; cbn [item_get]; [discriminate|].
  destruct (decide (k = k')) as [->|Hne]; [intros [= ->]; now left | right; auto].
Qed.

Lemma item_get_NoDup_In k (v : V) d :
  NoDup (map fst d) -> In (k, v) d -> item_get k d = Some v.
Proof.
  induction d as [|[k' v'] d IH]; cbn [item_get map fst]; [intros _ []|].
  intros Hnd. apply NoDup_cons in Hnd as [Hk Hnd].
  intros [[= -> ->] | Hin].
  - now rewrite decide_True.
  - destruct (decide (k = k')) as [->|Hne]; [|now apply IH].
    exfalso. apply Hk. apply list_elem_of_In. apply in_map_iff. now exists (k', v).
Qed.

End ItemsFacts.

Lemma item_get_absent {V} (k : str) (d : list (str * V)) :
  ~ In k (map fst d) -> item_get k d = None.
Proof.
  induction d as [|[k' v'] d IH]; cbn [item_get map fst]; [reflexivity|].
  intros Hk. destruct (decide (k = k')) as [->|Hne]; [exfalso; apply Hk; now left|].
  apply IH. intros Hin. apply Hk. now right.
Qed.

(** ** The terms of a text *)

Lemma in_class_term_char c : in_class c = term_char c.
Proof. reflexivity. Qed.

Lemma findall_from_tokens text :
  forall cur,
    Forall (fun c => in_class c = true) cur ->
    Forall (fun t => t <> [] /\ Forall (fun c => in_class c = true) t)
           (findall_from cur text).
Proof.
  assert (Hcur : forall cur,
             Forall (fun c => in_class c = true) cur -> cur <> [] ->
             rev cur <> [] /\ Forall (fun c => in_class c = true) (rev cur)).
  { intros cur Hc Hne. split; [|now apply Forall_rev].
    intros E. apply Hne. apply (f_equal (@rev _)) in E.
    now rewrite rev_involutive in E. }
  induction text as [|c r IH]; intros cur Hc; cbn [findall_from].
  - destruct cur as [|c' cur']; constructor; [|constructor].
    now apply Hcur.
  - destruct (in_class c) eqn:E.
    + apply IH. now constructor.
    + destruct cur as [|c' cur']; [apply IH; constructor|].
      constructor; [now apply Hcur | apply IH; constructor].
Qed.

Lemma occ_nonneg term tokens : (0 <= occ term tokens)%Z.
Proof. unfold occ. lia. Qed.

Lemma occ_snoc term seen token :
  occ term (seen ++ [token]) =
  (occ term seen + if bool_decide (token = term) then 1 else 0)%Z.
Proof.
  unfold occ. rewrite List.filter_app, length_app. cbn [List.filter].
  destruct (bool_decide (token = term)); cbn [length]; lia.
Qed.

Lemma occ_pos_In term tokens : (0 < occ term tokens)%Z -> In term tokens.
Proof.
  unfold occ. intros Hpos.
  destruct (List.filter (fun t => bool_decide (t = term)) tokens) as [|x l] eqn:E;
    [cbn [length] in Hpos; lia|].
  assert (Hx : In x (List.filter (fun t => bool_decide (t = term)) tokens))
    by (rewrite E; now left).
  apply filter_In in Hx as [Hin Hx]. apply bool_decide_eq_true in Hx. now subst.
Qed.

Lemma counts_step tf seen token :
  counts tf seen -> counts (count_token tf token) (seen ++ [token]).
Proof.
  intros [Hnd Hget]. unfold count_token. split; [now apply item_set_NoDup|].
  intros term. rewrite occ_snoc. pose proof (occ_nonneg term seen) as Hocc.
  destruct (decide (term = token)) as [->|Hne].
  - rewrite item_get_set_eq, bool_decide_eq_true_2 by reflexivity.
    rewrite Hget.
    replace (0 <? occ token seen + 1)%Z with true by (symmetry; apply Z.ltb_lt; lia).
    destruct (0 <? occ token seen)%Z eqn:E; [reflexivity|].
    apply Z.ltb_ge in E. f_equal. lia.
  - rewrite item_get_set_ne by exact Hne.
    rewrite bool_decide_eq_false_2 by congruence. rewrite Z.add_0_r. apply Hget.
Qed.

Lemma counts_fold tokens :
  forall tf seen,
    counts tf seen -> counts (fold_left count_token tokens tf) (seen ++ tokens).
Proof.
  induction tokens as [|t tokens IH]; intros tf seen Hc; cbn [fold_left].
  - now rewrite app_nil_r.
  - replace (seen ++ t :: tokens) with ((seen ++ [t]) ++ tokens)
      by (now rewrite <- app_assoc).
    apply IH, counts_step, Hc.
Qed.

Lemma tokenize_counts text :
  counts (_tokenize_and_calculate_tf text) (findall (lower text)).
Proof.
  unfold _tokenize_and_calculate_tf. apply (counts_fold _ [] []).
  split; [constructor | reflexivity].
Qed.

Lemma tokenize_items text :
  Forall (fun kv => fst kv <> [] /\ Forall (fun c => in_class c = true) (fst kv) /\
                    snd kv = occurrences (fst kv) text /\ (1 <= snd kv)%Z)
         (_tokenize_and_calculate_tf text).
Proof.
  destruct (tokenize_counts text) as [Hnd Hget].
  apply List.Forall_forall. intros [k v] Hin.
  pose proof (item_get_NoDup_In k v _ Hnd Hin) as Hk. rewrite Hget in Hk.
  fold (occurrences k text) in Hk.
  destruct (0 <? occurrences k text)%Z eqn:E; [|discriminate].
  injection Hk as <-. apply Z.ltb_lt in E. cbn [fst snd].
  pose proof (findall_from_tokens (lower text) [] ltac:(constructor)) as Htok.
  rewrite List.Forall_forall in Htok.
  destruct (Htok k (occ_pos_In _ _ E)) as [Hne Hcl].
  repeat split; [exact Hne | exact Hcl | lia].
Qed.

(** X15. The dict [_tokenize_and_calculate_tf] returns: its keys are
    pairwise distinct, non-empty and made of characters of [[a-z0-9&-]];
    a term is a key exactly when it is one of the maximal runs of such
    characters in the lower-cased text, and its value is the number of
    those runs that are the term, at least 1. *)
Theorem tokenize_tf_counts (text : str) :
  NoDup (map fst (_tokenize_and_calculate_tf text)) /\
  (forall term,
     item_get term (_tokenize_and_calculate_tf text) =
     if (0 <? occurrences term text)%Z then Some (occurrences term text) else None) /\
  Forall (fun kv => fst kv <> [] /\ Forall (fun c => in_class c = true) (fst kv) /\
                    snd kv = occurrences (fst kv) text /\ (1 <= snd kv)%Z)
         (_tokenize_and_calculate_tf text).
Proof.
  destruct (tokenize_counts text) as [Hnd Hget].
  split; [exact Hnd|]. split; [exact Hget | apply tokenize_items].
Qed.

(** ** One document *)

Lemma postings_of_items doc_id items q :
  NoDup (map fst items) ->
  postings_of q (calls_of doc_id items) =
  match item_get q items with Some tf => [(doc_id, tf)] | None => [] end.
Proof.
  induction items as [|[k v] items IH]; cbn [map fst]; intros Hnd; [reflexivity|].
  apply NoDup_cons in Hnd as [Hk Hnd]. cbn [calls_of map postings_of item_get fst snd].
  fold (calls_of doc_id items). rewrite (IH Hnd).
  destruct (decide (q = k)) as [->|Hne].
  - rewrite str_eqb_refl, item_get_absent; [reflexivity|].
    intros Hin. apply Hk. now apply list_elem_of_In.
  - rewrite str_eqb_neq by congruence. reflexivity.
Qed.

Lemma raw_fold_get items :
  NoDup (map fst items) ->
  forall raw q,
    item_get q (fold_left (fun r kv => raw_update r (fst kv) (snd kv)) items raw) =
    match item_get q items with
    | Some tf => Some (bump (item_get q raw) tf)
    | None => item_get q raw
    end.
Proof.
  induction items as [|[k v] items IH]; cbn [map fst]; intros Hnd raw q; [reflexivity|].
  apply NoDup_cons in Hnd as [Hk Hnd]. cbn [fold_left item_get fst snd].
  rewrite (IH Hnd). unfold raw_update.
  destruct (decide (q = k)) as [->|Hne].
  - rewrite item_get_absent by (intros Hin; apply Hk; now apply list_elem_of_In).
    now rewrite item_get_set_eq.
  - now rewrite item_get_set_ne by exact Hne.
Qed.

Lemma raw_fold_NoDup items :
  forall raw,
    NoDup (map fst raw) ->
    NoDup (map fst (fold_left (fun r kv => raw_update r (fst kv) (snd kv)) items raw)).
Proof.
  induction items as [|[k v] items IH]; intros raw Hnd; cbn [fold_left]; [exact Hnd|].
  apply IH. unfold raw_update. now apply item_set_NoDup.
Qed.

(** The loop over the terms of one document returns, every term being
    non-empty, and is the sequence of its [insert] calls. *)
Lemma index_terms_returns doc_id items :
  Forall (fun kv => fst kv <> [] /\
                    Forall (fun c => serializable_char c = true) (fst kv)) items ->
  forall trie raw,
    wf_root (root trie) ->
    labels_in (fun c => serializable_char c = true) (root trie) ->
    exists trie',
      index_terms doc_id items trie raw =
      Returns (true, trie',
               fold_left (fun r kv => raw_update r (fst kv) (snd kv)) items raw) /\
      wf_root (root trie') /\
      labels_in (fun c => serializable_char c = true) (root trie') /\
      forall q, find trie' q = find trie q ++ postings_of q (calls_of doc_id items).
Proof.
  induction 1 as [|[term tf] items [Hne Hser] _ IH]; intros trie raw Hwf Hlab.
  - exists trie. cbn [index_terms fold_left calls_of map postings_of].
    split; [reflexivity|]. split; [exact Hwf|]. split; [exact Hlab|].
    intros q. now rewrite app_nil_r.
  - cbn [fst] in Hne, Hser.
    destruct (insert_correct trie term doc_id tf Hwf Hne) as (t1 & E1 & Hwf1 & Hfind1).
    assert (Hlab1 : labels_in (fun c => serializable_char c = true) (root t1)).
    { unfold insert in E1.
      destruct (insert_from doc_id tf (root trie) term) as [r| |] eqn:Er;
        cbn [bind] in E1; try discriminate.
      injection E1 as <-. cbn [root].
      apply (insert_from_labels _ doc_id tf (root trie) term r Hlab Hser Er). }
    destruct (IH t1 (raw_update raw term tf) Hwf1 Hlab1) as (t' & E & Hwf' & Hlab' & Hfind).
    exists t'. cbn [index_terms fold_left fst snd]. rewrite E1.
    split; [exact E|]. split; [exact Hwf'|]. split; [exact Hlab'|].
    intros q. rewrite Hfind, Hfind1, <- app_assoc. f_equal.
    cbn [calls_of map postings_of fst snd]. fold (calls_of doc_id items).
    unfold gained. destruct (decide (q = term)) as [->|Hq].
    + now rewrite !str_eqb_refl.
    + rewrite (str_eqb_neq q) by exact Hq.
      rewrite (str_eqb_neq term) by congruence. reflexivity.
Qed.

Lemma sum_snoc l x :
  fold_right Z.add 0%Z (l ++ [x]) = (fold_right Z.add 0 l + x)%Z.
Proof. induction l as [|y l IH]; cbn [app fold_right]; lia. Qed.

Lemma stats_of_snoc postings d tf :
  stats_of (postings ++ [(d, tf)]) = Some (bump (stats_of postings) tf).
Proof.
  unfold stats_of, bump.
  destruct postings as [|p postings]; [cbn; f_equal; f_equal; lia|].
  cbn [app]. rewrite !app_comm_cons, !map_app. cbn [map].
  rewrite !sum_snoc, length_app.
  cbn [snd length sum_tf sum_tf2 df fold_right]. f_equal. f_equal; lia.
Qed.

Lemma doc_posting_items term doc_id text :
  doc_posting term (doc_id, Some text) =
  match item_get term (_tokenize_and_calculate_tf text) with
  | Some tf => [(doc_id, tf)]
  | None => []
  end.
Proof.
  destruct (tokenize_counts text) as [_ Hget]. rewrite Hget.
  unfold doc_posting. cbn [fst snd]. fold (occurrences term text).
  now destruct (0 <? occurrences term text)%Z.
Qed.


(** ** The first pass *)

Lemma numbered_one first file :
  numbered first [file] =
  if endswith (file_name file) (s ".txt") then [(first, content file)] else [].
Proof. cbn [numbered]. now destruct (endswith _ _). Qed.

Lemma numbered_cons first file rest :
  numbered first (file :: rest) =
  numbered first [file]
  ++ numbered (first + Z.of_nat (length (numbered first [file]))) rest.
Proof.
  cbn [numbered]. destruct (endswith _ _); cbn [length app Z.of_nat].
  - reflexivity.
  - now rewrite Z.add_0_r.
Qed.

Lemma numbered_paths_cons first file rest :
  numbered_paths first (file :: rest) =
  numbered_paths first [file]
  ++ numbered_paths (first + Z.of_nat (length (numbered first [file]))) rest.
Proof.
  cbn [numbered numbered_paths]. destruct (endswith _ _); cbn [length app Z.of_nat].
  - reflexivity.
  - now rewrite Z.add_0_r.
Qed.

Lemma corpus_postings_app term a b :
  corpus_postings term (a ++ b) = corpus_postings term a ++ corpus_postings term b.
Proof. apply flat_map_app. Qed.

Lemma corpus_postings_one term doc : corpus_postings term [doc] = doc_posting term doc.
Proof. unfold corpus_postings. cbn [flat_map]. apply app_nil_r. Qed.

Lemma tokenize_items_serializable text :
  Forall (fun kv => fst kv <> [] /\
                    Forall (fun c => serializable_char c = true) (fst kv))
         (_tokenize_and_calculate_tf text).
Proof.
  pose proof (tokenize_items text) as Hitems. revert Hitems.
  apply List.Forall_impl. intros kv (Hne & Hcl & _). split; [exact Hne|].
  revert Hcl. apply List.Forall_impl. intros c Hc. now apply term_char_serializable.
Qed.

(** One file: the round of the loop returns and keeps what the pass has
    reached, with the document added when the file is one. *)
Lemma index_file_indexed trie0 docs st file :
  indexed trie0 docs st ->
  exists st',
    index_file st file = Returns st' /\
    indexed trie0 (docs ++ numbered (doc_id_counter st) [file]) st' /\
    doc_id_counter st' =
    (doc_id_counter st + Z.of_nat (length (numbered (doc_id_counter st) [file])))%Z /\
    doc_map (self st') =
    fold_left (fun m kv => item_set (fst kv) (snd kv) m)
      (numbered_paths (doc_id_counter st) [file]) (doc_map (self st)).
Proof.
  intros (Hwf & Hlab & Hfind & Hnd & Hraw). unfold index_file.
  rewrite numbered_one. cbn [numbered_paths].
  destruct (endswith (file_name file) (s ".txt")); cbn [negb].
  - destruct (content file) as [text|].
    + destruct (tokenize_counts text) as [Hkeys _].
      destruct (index_terms_returns (doc_id_counter st) _
                  (tokenize_items_serializable text)
                  (trie (self st)) (raw_stats st) Hwf Hlab)
        as (t' & Eidx & Hwf' & Hlab' & Hf').
      rewrite Eidx. cbn [bind]. eexists. split; [reflexivity|].
      cbn [doc_id_counter self doc_map fold_left fst snd length Z.of_nat].
      split; [|split; [lia | reflexivity]].
      unfold indexed. cbn [self trie raw_stats].
      split; [exact Hwf'|]. split; [exact Hlab'|]. split; [|split].
      * intros term. rewrite Hf', Hfind, corpus_postings_app, <- app_assoc.
        rewrite corpus_postings_one, doc_posting_items.
        now rewrite (postings_of_items _ _ _ Hkeys).
      * now apply raw_fold_NoDup.
      * intros term. rewrite (raw_fold_get _ Hkeys).
        rewrite corpus_postings_app, corpus_postings_one, doc_posting_items.
        destruct (item_get term (_tokenize_and_calculate_tf text)) as [tf|].
        -- now rewrite Hraw, stats_of_snoc.
        -- now rewrite app_nil_r.
    + eexists. split; [reflexivity|].
      cbn [doc_id_counter self doc_map fold_left fst snd length Z.of_nat].
      split; [|split; [lia | reflexivity]].
      unfold indexed. cbn [self trie raw_stats].
      split; [exact Hwf|]. split; [exact Hlab|].
      split; [|split; [exact Hnd|]]; intros term;
        rewrite corpus_postings_app, corpus_postings_one; unfold doc_posting;
        cbn [snd]; rewrite app_nil_r; auto.
  - exists st. split; [reflexivity|]. cbn [length Z.of_nat fold_left].
    rewrite app_nil_r, Z.add_0_r. split; [|split; reflexivity].
    unfold indexed. auto.
Qed.

Lemma index_files_indexed files :
  forall trie0 docs st,
    indexed trie0 docs st ->
    exists st',
      index_files st files = Returns st' /\
      indexed trie0 (docs ++ numbered (doc_id_counter st) files) st' /\
      doc_map (self st') =
      fold_left (fun m kv => item_set (fst kv) (snd kv) m)
        (numbered_paths (doc_id_counter st) files) (doc_map (self st)).
Proof.
  induction files as [|file rest IH]; intros trie0 docs st Hst.
  - exists st. cbn [index_files numbered numbered_paths fold_left].
    rewrite app_nil_r. auto.
  - destruct (index_file_indexed trie0 docs st file Hst) as (st1 & E1 & H1 & Hc & Hm).
    destruct (IH trie0 _ st1 H1) as (st' & E & H' & Hm').
    exists st'. cbn [index_files]. rewrite E1. cbn [bind].
    split; [exact E|].
    rewrite numbered_cons, numbered_paths_cons, fold_left_app, app_assoc, <- Hc, <- Hm.
    split; [exact H' | exact Hm'].
Qed.

Lemma item_set_fresh {K V} `{EqDecision K} (k : K) (v : V) (d : list (K * V)) :
  ~ In k (map fst d) -> item_set k v d = d ++ [(k, v)].
Proof.
  induction d as [|[k' v'] d IH]; cbn [item_set map fst app]; [reflexivity|].
  intros Hk. destruct (decide (k = k')) as [->|Hne]; [exfalso; apply Hk; now left|].
  rewrite IH; [reflexivity|]. intros Hin. apply Hk. now right.
Qed.

Lemma fold_item_set_fresh {K V} `{EqDecision K} (l : list (K * V)) :
  forall d,
    NoDup (map fst (d ++ l)) ->
    fold_left (fun m kv => item_set (fst kv) (snd kv) m) l d = d ++ l.
Proof.
  induction l as [|[k v] l IH]; intros d Hnd; cbn [fold_left fst snd].
  - now rewrite app_nil_r.
  - rewrite item_set_fresh.
    + rewrite IH; rewrite <- app_assoc; [reflexivity | exact Hnd].
    + rewrite map_app in Hnd. apply NoDup_app in Hnd as (_ & Hdisj & _).
      intros Hin. apply (Hdisj k); [now apply list_elem_of_In | left].
Qed.

Lemma numbered_paths_keys files :
  forall first,
    Forall (fun kv => (first <= fst kv)%Z) (numbered_paths first files) /\
    NoDup (map fst (numbered_paths first files)).
Proof.
  induction files as [|file rest IH]; intros first; cbn [numbered_paths].
  - split; constructor.
  - destruct (endswith _ _); [|apply IH].
    destruct (IH (first + 1)%Z) as [Hle Hnd]. split.
    + constructor; [cbn; lia|]. revert Hle. apply List.Forall_impl. intros kv. lia.
    + cbn [map fst]. apply NoDup_cons. split; [|exact Hnd].
      intros Hin. apply list_elem_of_In, in_map_iff in Hin as (kv & Hk & Hin).
      rewrite List.Forall_forall in Hle. specialize (Hle kv Hin). lia.
Qed.

Lemma indexed_start trie0 doc_map0 stats0 total0 :
  wf_root (root trie0) ->
  labels_in (fun c => serializable_char c = true) (root trie0) ->
  indexed trie0 []
    {| self := {| trie := trie0; doc_map := doc_map0; global_stats := stats0;
                  total_docs := total0 |};
       doc_id_counter := 1; raw_stats := [] |}.
Proof.
  intros Hwf Hlab. unfold indexed. cbn [self trie raw_stats].
  split; [exact Hwf|]. split; [exact Hlab|]. split; [|split].
  - intros term. cbn. now rewrite app_nil_r.
  - constructor.
  - reflexivity.
Qed.

Lemma labels_in_new (P : ascii -> Prop) : labels_in P (root new_CompactTrie).
Proof. constructor; constructor. Qed.

(** X16. The first pass of [index_corpus] over any corpus returns, on an
    indexer just constructed, and leaves an inverted index that is right:
    the files whose name ends in [.txt] are numbered from 1 in the order of
    the walk, whether they can be read or not; [find] of a term lists, in
    that order, each readable document that holds the term, once, with the
    number of times it holds it; the entry of [raw_stats] for the term
    holds the number of those documents and the sums of their frequencies
    and squared frequencies, and a term that occurs nowhere has no entry. *)
Theorem first_pass_postings (files : list CorpusFile) :
  exists st,
    index_files {| self := new_Indexer; doc_id_counter := 1; raw_stats := [] |} files
    = Returns st /\
    doc_map (self st) = numbered_paths 1 files /\
    (forall term,
       find (trie (self st)) term = corpus_postings term (numbered 1 files)) /\
    (forall term,
       item_get term (raw_stats st) = stats_of (corpus_postings term (numbered 1 files))).
Proof.
  destruct (index_files_indexed files new_CompactTrie [] _
              (indexed_start new_CompactTrie [] ∅ 0 wf_root_new (labels_in_new _)))
    as (st & E & (_ & _ & Hfind & _ & Hraw) & Hmap).
  exists st. split; [exact E|]. cbn [doc_id_counter self doc_map app] in *.
  split; [|split].
  - rewrite Hmap. apply (fold_item_set_fresh _ []). apply numbered_paths_keys.
  - intros term. now rewrite Hfind, find_new.
  - exact Hraw.
Qed.


(** ** The second pass and the files *)

(** ** The postings of a corpus *)

Lemma corpus_postings_In term docs d n :
  In (d, n) (corpus_postings term docs) <->
  exists text,
    In (d, Some text) docs /\ n = occurrences term text /\ (0 < n)%Z.
Proof.
  unfold corpus_postings. rewrite in_flat_map. split.
  - intros ([d' [text|]] & Hin & Hp); unfold doc_posting in Hp; cbn [fst snd] in Hp;
      [|destruct Hp].
    destruct (0 <? occurrences term text)%Z eqn:E; [|destruct Hp].
    destruct Hp as [[= <- <-] | []]. apply Z.ltb_lt in E. now exists text.
  - intros (text & Hin & -> & Hpos). exists (d, Some text). split; [exact Hin|].
    unfold doc_posting. cbn [fst snd].
    replace (0 <? occurrences term text)%Z with true
      by (symmetry; now apply Z.ltb_lt).
    now left.
Qed.

Lemma numbered_ids files :
  forall first,
    Forall (fun doc => (first <= fst doc)%Z) (numbered first files) /\
    StronglySorted Z.lt (map fst (numbered first files)).
Proof.
  induction files as [|file rest IH]; intros first; cbn [numbered].
  - split; constructor.
  - destruct (endswith _ _); [|apply IH].
    destruct (IH (first + 1)%Z) as [Hle Hs]. split.
    + constructor; [cbn; lia|]. revert Hle. apply List.Forall_impl. intros doc. lia.
    + cbn [map fst]. constructor; [exact Hs|].
      apply Forall_map. revert Hle. apply List.Forall_impl. intros doc. cbn. lia.
Qed.

Lemma corpus_postings_sorted term docs :
  StronglySorted Z.lt (map fst docs) ->
  StronglySorted Z.lt (map fst (corpus_postings term docs)).
Proof.
  induction docs as [|doc docs IH]; cbn [map]; intros Hs; [constructor|].
  apply StronglySorted_inv in Hs as [Hs Hlt].
  unfold corpus_postings. cbn [flat_map]. fold (corpus_postings term docs).
  unfold doc_posting at 1. destruct (snd doc) as [text|]; [|now apply IH].
  destruct (0 <? occurrences term text)%Z; [|now apply IH].
  cbn [app map fst]. constructor; [now apply IH|].
  apply List.Forall_forall. intros d Hd. apply in_map_iff in Hd as ([d' n] & <- & Hin).
  apply corpus_postings_In in Hin as (text' & Hin & _).
  rewrite List.Forall_forall in Hlt. apply Hlt.
  apply in_map_iff. now exists (d', Some text').
Qed.

(** ** The depth of the trie of a corpus *)

Lemma index_terms_occupied doc_id items :
  forall trie raw completed trie' raw',
    occupied (root trie) ->
    index_terms doc_id items trie raw = Returns (completed, trie', raw') ->
    occupied (root trie').
Proof.
  induction items as [|[term tf] items IH]; intros trie raw completed trie' raw' Hocc;
    cbn [index_terms].
  - now intros [= _ <- _].
  - unfold insert.
    destruct (insert_from doc_id tf (root trie) term) as [r| |] eqn:E; cbn [bind].
    + apply IH. cbn [root]. now apply (insert_from_occupied doc_id tf (root trie) term r).
    + now intros [= _ <- _].
    + discriminate.
Qed.

Lemma index_files_occupied files :
  forall st st',
    occupied (root (trie (self st))) ->
    index_files st files = Returns st' ->
    occupied (root (trie (self st'))).
Proof.
  induction files as [|file rest IH]; intros st st' Hocc; cbn [index_files].
  - now intros [= <-].
  - unfold index_file. destruct (endswith _ _); cbn [negb bind]; [|now apply IH].
    destruct (content file) as [text|]; cbn [bind]; [|now apply IH].
    destruct (index_terms (doc_id_counter st) (_tokenize_and_calculate_tf text)
                (trie (self st)) (raw_stats st)) as [[[completed t'] raw']| |] eqn:E;
      cbn [bind]; try discriminate.
    apply IH. cbn [self trie]. now apply (index_terms_occupied _ _ _ _ _ _ _ Hocc E).
Qed.

Lemma terms_shorter_postings n files term :
  terms_shorter n files = true ->
  corpus_postings term (numbered 1 files) <> [] -> length term < n.
Proof.
  unfold terms_shorter. intros Hall Hne.
  destruct (corpus_postings term (numbered 1 files)) as [|[d k] rest] eqn:E;
    [contradiction|].
  assert (Hin : In (d, k) (corpus_postings term (numbered 1 files)))
    by (rewrite E; now left).
  apply corpus_postings_In in Hin as (text & Hdoc & -> & Hpos).
  rewrite forallb_forall in Hall. specialize (Hall _ Hdoc). cbn [snd] in Hall.
  rewrite forallb_forall in Hall. apply Nat.ltb_lt, Hall.
  now apply occ_pos_In.
Qed.

(** The trie of the first pass is no deeper than the longest term of the
    corpus is long, plus the root. *)
Lemma first_pass_height n files st :
  0 < n -> terms_shorter n files = true ->
  index_files {| self := new_Indexer; doc_id_counter := 1; raw_stats := [] |} files
  = Returns st ->
  height (root (trie (self st))) <= n.
Proof.
  intros Hpos Hshort Est.
  destruct (index_files_indexed files new_CompactTrie [] _
              (indexed_start new_CompactTrie [] ∅ 0 wf_root_new (labels_in_new _)))
    as (st0 & E & (Hwf & _ & Hfind & _) & _).
  change {| trie := new_CompactTrie; doc_map := []; global_stats := ∅; total_docs := 0 |}
    with new_Indexer in E.
  rewrite Est in E. injection E as <-. cbn [doc_id_counter app] in Hfind.
  pose proof (index_files_occupied files
                {| self := new_Indexer; doc_id_counter := 1; raw_stats := [] |} st
                occupied_new Est) as Hocc.
  destruct Hwf as (_ & Hnt & _ & Hk). apply occupied_inv in Hocc as [_ Hkids].
  replace n with (S (n - 1)) by lia.
  apply words_bound_height; [exact Hk | exact Hkids|].
  intros q Hq.
  assert (Hq' : find (trie (self st)) q <> []) by exact Hq.
  rewrite Hfind, find_new in Hq'. cbn [app] in Hq'.
  pose proof (terms_shorter_postings n files q Hshort Hq'). lia.
Qed.

Section SecondPass.
Context `{FloatArith} `{Interpreter}.

Lemma final_entry_df data entry :
  final_entry data = Returns entry -> RI.df entry = df data.
Proof.
  unfold final_entry. destruct (0 <? df data)%Z; [|now intros [= <-]].
  destruct (int_truediv (sum_tf data) (df data)) as [mu| |]; cbn [bind]; try discriminate.
  destruct (int_truediv (sum_tf2 data) (df data)) as [m2| |]; cbn [bind]; try discriminate.
  destruct (float_square mu) as [mu2| |]; cbn [bind]; try discriminate.
  now intros [= <-].
Qed.

Lemma final_stats_get raw :
  NoDup (map fst raw) ->
  forall acc stats,
    final_stats raw acc = Returns stats ->
    forall term,
      match item_get term raw with
      | Some data => exists entry, stats !! term = Some entry /\ RI.df entry = df data
      | None => stats !! term = acc !! term
      end.
Proof.
  induction raw as [|[k data] raw IH]; cbn [map fst]; intros Hnd acc stats.
  - intros [= <-] term. reflexivity.
  - apply NoDup_cons in Hnd as [Hk Hnd]. cbn [final_stats].
    destruct (final_entry data) as [entry| |] eqn:Ee; cbn [bind]; try discriminate.
    intros Hrest term. specialize (IH Hnd _ _ Hrest term). cbn [item_get].
    destruct (decide (term = k)) as [->|Hne].
    + rewrite item_get_absent in IH
        by (intros Hin; apply Hk; now apply list_elem_of_In).
      exists entry. rewrite IH, lookup_insert_eq. split; [reflexivity|].
      now apply final_entry_df.
    + destruct (item_get term raw); [exact IH|].
      now rewrite IH, lookup_insert_ne by congruence.
Qed.

(** What a run of [index_corpus] from no trie file goes through. *)
Lemma index_corpus_run disk files self' disk' :
  trie_file disk = None ->
  index_corpus new_Indexer disk files = Returns (self', disk') ->
  exists st,
    index_files {| self := new_Indexer; doc_id_counter := 1; raw_stats := [] |} files
    = Returns st /\
    final_stats (raw_stats st) ∅ = Returns (global_stats self') /\
    trie self' = trie (self st) /\
    doc_map self' = doc_map (self st) /\
    disk' = {| trie_file := Some (save_to_file (trie self'));
               map_file := Some (str_keys (doc_map self'));
               stats_file := Some (global_stats self') |}.
Proof.
  intros Hnone. unfold index_corpus, _load_or_create_index_data.
  rewrite Hnone. cbn [load_from_file].
  change {| trie := new_CompactTrie; doc_map := doc_map new_Indexer;
            global_stats := global_stats new_Indexer;
            total_docs := total_docs new_Indexer |} with new_Indexer.
  destruct (index_files _ files) as [st| |] eqn:Est; cbn [bind]; try discriminate.
  unfold _calculate_and_save_stats.
  destruct (final_stats (raw_stats st) ∅) as [stats| |] eqn:Es; cbn [bind];
    try discriminate.
  intros [= <- <-]. exists st. cbn [trie doc_map global_stats].
  split; [reflexivity|]. split; [exact Es|]. split; [reflexivity|].
  split; reflexivity.
Qed.

(** X17. What [index_corpus] leaves when it starts without a trie file and
    returns: the document map numbers the [.txt] files from 1 in the order
    of the walk; [global_stats] has an entry exactly for the terms that
    occur in a readable document, and its [df] is the number of those
    documents, which is also the length of the list [find] returns for the
    term; the map and the statistics are written to their files, and the
    trie file holds what [save_to_file] leaves: every line of the trie
    when the terms of the corpus are shorter than the depth of recursion
    the interpreter allows, and the lines written before [RecursionError]
    otherwise. *)
Theorem index_corpus_result (disk : Disk) (files : list CorpusFile)
    (self' : Indexer) (disk' : Disk) :
  trie_file disk = None ->
  index_corpus new_Indexer disk files = Returns (self', disk') ->
  doc_map self' = numbered_paths 1 files /\
  (forall term,
     match global_stats self' !! term with
     | Some entry =>
         corpus_postings term (numbered 1 files) <> [] /\
         RI.df entry = Z.of_nat (length (corpus_postings term (numbered 1 files))) /\
         RI.df entry = Z.of_nat (length (find (trie self') term))
     | None => corpus_postings term (numbered 1 files) = []
     end) /\
  disk' = {| trie_file := Some (save_to_file (trie self'));
             map_file := Some (str_keys (doc_map self'));
             stats_file := Some (global_stats self') |} /\
  (0 < call_depth -> terms_shorter call_depth files = true ->
   save_to_file (trie self') = concat (pre_order_serialize (root (trie self')))).
Proof.
  intros Hnone Hrun.
  destruct (index_corpus_run _ _ _ _ Hnone Hrun) as (st & Est & Hstats & Ht & Hm & Hd).
  assert (Hfull : 0 < call_depth -> terms_shorter call_depth files = true ->
                  save_to_file (trie self')
                  = concat (pre_order_serialize (root (trie self')))).
  { intros Hpos Hshort. apply save_to_file_full. rewrite Ht.
    now apply (first_pass_height call_depth files st). }
  destruct (index_files_indexed files new_CompactTrie [] _
              (indexed_start new_CompactTrie [] ∅ 0 wf_root_new (labels_in_new _)))
    as (st0 & E & (_ & _ & Hfind & Hnd & Hraw) & Hmap).
  change {| trie := new_CompactTrie; doc_map := []; global_stats := ∅; total_docs := 0 |}
    with new_Indexer in E.
  rewrite Est in E. injection E as <-.
  cbn [doc_id_counter self doc_map app] in *.
  split; [|split; [|split; [exact Hd | exact Hfull]]].
  - rewrite Hm, Hmap. apply (fold_item_set_fresh _ []). apply numbered_paths_keys.
  - intros term. pose proof (final_stats_get _ Hnd _ _ Hstats term) as Hget.
    rewrite Hraw in Hget. rewrite Ht, Hfind, find_new. cbn [app].
    destruct (corpus_postings term (numbered 1 files)) as [|p ps] eqn:Ep;
      cbn [stats_of] in Hget.
    + now rewrite Hget, lookup_empty.
    + destruct Hget as (entry & -> & Hdf). cbn [df] in Hdf.
      split; [discriminate|]. split; exact Hdf.
Qed.

End SecondPass.

Lemma small_run_returns :
  @index_corpus DoubleArith PersistSpec.ThousandCalls new_Indexer empty_disk small_corpus
  = Returns (small_indexer, small_disk).
Proof. vm_compute. reflexivity. Qed.

(** X17 on a corpus of two documents and a file that is none. *)
Lemma index_corpus_result_witness :
  doc_map small_indexer = numbered_paths 1 small_corpus /\
  (forall term,
     match global_stats small_indexer !! term with
     | Some entry =>
         corpus_postings term (numbered 1 small_corpus) <> [] /\
         RI.df entry
         = Z.of_nat (length (corpus_postings term (numbered 1 small_corpus))) /\
         RI.df entry = Z.of_nat (length (find (trie small_indexer) term))
     | None => corpus_postings term (numbered 1 small_corpus) = []
     end) /\
  small_disk = {| trie_file := Some (@save_to_file ThousandCalls (trie small_indexer));
                  map_file := Some (str_keys (doc_map small_indexer));
                  stats_file := Some (global_stats small_indexer) |} /\
  terms_shorter 1000 small_corpus = true /\
  @save_to_file ThousandCalls (trie small_indexer)
  = concat (pre_order_serialize (root (trie small_indexer))).
Proof.
  destruct (@index_corpus_result DoubleArith ThousandCalls empty_disk small_corpus
              small_indexer small_disk eq_refl small_run_returns)
    as (Hmap & Hstats & Hdisk & Hfull).
  split; [exact Hmap|]. split; [exact Hstats|]. split; [exact Hdisk|].
  split; [vm_compute; reflexivity|].
  apply Hfull; [vm_compute; lia | vm_compute; reflexivity].
Defined.


(** ** From the files of the indexer to the retriever *)

Section Files.
Context `{FloatArith} `{Interpreter}.

Lemma retriever_of_index disk files self' disk' :
  0 < call_depth -> terms_shorter call_depth files = true ->
  trie_file disk = None ->
  index_corpus new_Indexer disk files = Returns (self', disk') ->
  RI.is_ready (RI.new_InformationRetriever (trie_file disk') (stats_file disk')) = true /\
  forall term,
    find (RI.trie (RI.new_InformationRetriever (trie_file disk') (stats_file disk')))
      term
    = corpus_postings term (numbered 1 files).
Proof.
  intros Hpos Hshort Hnone Hrun.
  destruct (index_corpus_run _ _ _ _ Hnone Hrun) as (st & Est & _ & Ht & _ & ->).
  pose proof (first_pass_height call_depth files st Hpos Hshort Est) as Hh.
  destruct (index_files_indexed files new_CompactTrie [] _
              (indexed_start new_CompactTrie [] ∅ 0 wf_root_new (labels_in_new _)))
    as (st0 & E & (Hwf & Hlab & Hfind & _) & _).
  change {| trie := new_CompactTrie; doc_map := []; global_stats := ∅; total_docs := 0 |}
    with new_Indexer in E.
  rewrite Est in E. injection E as <-.
  cbn [doc_id_counter app trie_file stats_file] in *.
  unfold RI.new_InformationRetriever, RI._load_data. rewrite Ht.
  rewrite (save_load _ Hwf Hlab Hh). cbn [negb RI.is_ready RI.trie].
  split; [reflexivity|]. intros term.
  unfold find at 1. cbn [root]. rewrite find_from_norm.
  - fold (find (trie (self st)) term). now rewrite Hfind, find_new.
  - destruct Hwf as (_ & _ & _ & Hk).
    apply wf_ser_children; [exact Hk|]. now apply labels_in_inv in Hlab.
Qed.

Lemma corpus_postings_positive term docs :
  Forall (fun p => (0 < snd p)%Z) (corpus_postings term docs).
Proof.
  apply List.Forall_forall. intros [d n] Hin.
  apply corpus_postings_In in Hin as (text & _ & _ & Hpos). exact Hpos.
Qed.

(** X18. The retriever reads what the indexer wrote. After a run of
    [index_corpus] that starts without a trie file and returns, on a corpus
    whose terms are shorter than the depth of recursion the interpreter
    allows, a retriever constructed from the trie file and the statistics
    file it wrote is ready, holds the statistics of the indexer, and its
    [find] returns for every term the postings of the corpus: each readable
    document that holds the term once, in increasing order of its number,
    with its positive number of occurrences. *)
Theorem retriever_reads_index (disk : Disk) (files : list CorpusFile)
    (self' : Indexer) (disk' : Disk) :
  0 < call_depth -> terms_shorter call_depth files = true ->
  trie_file disk = None ->
  index_corpus new_Indexer disk files = Returns (self', disk') ->
  RI.is_ready (RI.new_InformationRetriever (trie_file disk') (stats_file disk')) = true /\
  RI.global_stats (RI.new_InformationRetriever (trie_file disk') (stats_file disk'))
  = global_stats self' /\
  forall term,
    find (RI.trie (RI.new_InformationRetriever (trie_file disk') (stats_file disk')))
      term
    = corpus_postings term (numbered 1 files) /\
    StronglySorted Z.lt (map fst (corpus_postings term (numbered 1 files))) /\
    Forall (fun p => (0 < snd p)%Z) (corpus_postings term (numbered 1 files)).
Proof.
  intros Hpos Hshort Hnone Hrun.
  destruct (index_corpus_run _ _ _ _ Hnone Hrun) as (st & Est & _ & Ht & _ & ->).
  pose proof (first_pass_height call_depth files st Hpos Hshort Est) as Hh.
  destruct (index_files_indexed files new_CompactTrie [] _
              (indexed_start new_CompactTrie [] ∅ 0 wf_root_new (labels_in_new _)))
    as (st0 & E & (Hwf & Hlab & Hfind & _) & _).
  change {| trie := new_CompactTrie; doc_map := []; global_stats := ∅; total_docs := 0 |}
    with new_Indexer in E.
  rewrite Est in E. injection E as <-.
  cbn [doc_id_counter app trie_file stats_file] in *.
  unfold RI.new_InformationRetriever, RI._load_data. rewrite Ht.
  rewrite (save_load _ Hwf Hlab Hh). cbn [negb RI.is_ready RI.global_stats RI.trie].
  split; [reflexivity|]. split; [reflexivity|]. intros term. split; [|split].
  - unfold find at 1. cbn [root]. rewrite find_from_norm.
    + fold (find (trie (self st)) term). now rewrite Hfind, find_new.
    + destruct Hwf as (_ & _ & _ & Hk).
      apply wf_ser_children; [exact Hk|]. now apply labels_in_inv in Hlab.
  - apply corpus_postings_sorted, numbered_ids.
  - apply List.Forall_forall. intros [d n] Hin.
    apply corpus_postings_In in Hin as (text & _ & _ & Hn). exact Hn.
Qed.

End Files.

(** X18 on a corpus of two documents and a file that is none. *)
Lemma retriever_reads_index_witness :
  RI.is_ready (RI.new_InformationRetriever (trie_file small_disk)
                 (stats_file small_disk)) = true /\
  RI.global_stats (RI.new_InformationRetriever (trie_file small_disk)
                     (stats_file small_disk))
  = global_stats small_indexer /\
  forall term,
    find (RI.trie (RI.new_InformationRetriever (trie_file small_disk)
                     (stats_file small_disk))) term
    = corpus_postings term (numbered 1 small_corpus) /\
    StronglySorted Z.lt (map fst (corpus_postings term (numbered 1 small_corpus))) /\
    Forall (fun p => (0 < snd p)%Z) (corpus_postings term (numbered 1 small_corpus)).
Proof.
  apply (@retriever_reads_index DoubleArith ThousandCalls empty_disk small_corpus
           small_indexer small_disk).
  - vm_compute. lia.
  - vm_compute. reflexivity.
  - reflexivity.
  - exact small_run_returns.
Defined.


(** ** [insert] on any trie *)

Lemma insert_from_no_raise d f n :
  forall w,
    (exists n', insert_from d f n w = Returns n') \/ insert_from d f n w = Loops.
Proof.
  induction n as [l cs t ii IH] using TrieNode_children_ind.
  intros [|c w]; [left; eexists; apply insert_from_nil|].
  rewrite insert_from_unfold. cbn [children label is_terminal inverted_index].
  destruct (dict_get c cs) as [child|] eqn:Hget; [|left; eexists; reflexivity].
  destruct (insert_child_cases (insert_from d f) (c :: w) d f child)
    as (p & w' & l' & _ & _ & -> & _).
  apply dict_get_In in Hget. rewrite List.Forall_forall in IH.
  specialize (IH _ Hget). cbn [snd] in IH.
  destruct w' as [|a w'], l' as [|b l'].
  - left. eexists. reflexivity.
  - left. eexists. reflexivity.
  - destruct (IH (a :: w')) as [[n' ->] | ->]; [left; eexists; reflexivity | now right].
  - destruct p; [now right | left; eexists; reflexivity].
Qed.

(** X24. [insert] never raises, on any trie, well formed or not: each
    indexing of a string by [[0]] is reached only when the string is not
    empty. The call returns, or it repeats its loop for ever; so the
    [except] clause of [index_corpus] never sees an exception of [insert],
    and a file is never given up half indexed. *)
Theorem insert_never_raises (t : CompactTrie) (word : str) (doc_id frequency : Z) :
  ((exists t', insert t word doc_id frequency = Returns t')
   \/ insert t word doc_id frequency = Loops) /\
  forall items raw_stats completed t' raw_stats',
    index_terms doc_id items t raw_stats = Returns (completed, t', raw_stats') ->
    completed = true.
Proof.
  split.
  - unfold insert.
    destruct (insert_from_no_raise doc_id frequency (root t) word) as [[r ->] | ->];
      [left; eexists; reflexivity | now right].
  - intros items. revert t. induction items as [|[term tf] items IH];
      intros t raw completed t' raw'; cbn [index_terms].
    + now intros [= <- _ _].
    + unfold insert.
      destruct (insert_from_no_raise doc_id tf (root t) term) as [[r ->] | ->];
        cbn [bind]; [apply IH | discriminate].
Qed.


(** ** Tries read from any file *)

Lemma keyed_inv n :
  keyed n ->
  Forall (fun kc => (label (snd kc) = [] \/ head (label (snd kc)) = Some (fst kc))
                    /\ keyed (snd kc))
         (children n).
Proof. intros Hk. now inversion Hk. Qed.

(** On a keyed trie the loop of [insert] always finds a case that applies. *)
Lemma insert_from_keyed d f n :
  keyed n ->
  forall w, exists n',
    insert_from d f n w = Returns n' /\ keyed n' /\ label n' = label n.
Proof.
  induction n as [l cs t ii IH] using TrieNode_children_ind.
  intros Hk [|c w]; [exists (Node l cs t ii); rewrite insert_from_nil; auto|].
  apply keyed_inv in Hk. cbn [children] in Hk.
  rewrite insert_from_unfold. cbn [children label is_terminal inverted_index].
  destruct (dict_get c cs) as [child|] eqn:Hget.
  - pose proof (dict_get_In _ _ _ Hget) as Hin.
    rewrite List.Forall_forall in IH, Hk.
    destruct (Hk _ Hin) as [Hhead Hchild]. cbn [fst snd] in Hhead, Hchild.
    pose proof (keyed_inv _ Hchild) as Hkids.
    destruct (insert_child_cases (insert_from d f) (c :: w) d f child)
      as (p & w' & l' & Hw & Hl & -> & Hdiff).
    assert (Hstore : forall child',
               (label child' = [] \/ head (label child') = Some c) ->
               keyed child' ->
               exists n',
                 bind (Returns child') (fun child' =>
                   Returns (Node l (dict_set c child' cs) t ii)) = Returns n' /\
                 keyed n' /\ label n' = l).
    { intros child' Hh Hk'. eexists. split; [reflexivity|]. split; [|reflexivity].
      constructor. cbn [children]. apply dict_set_Forall.
      - apply List.Forall_forall. exact Hk.
      - cbn [fst snd]. auto. }
    destruct w' as [|a w'], l' as [|b l'].
    + apply Hstore; [cbn [label]; exact Hhead|]. constructor. exact Hkids.
    + apply Hstore; [right; reflexivity|].
      constructor. cbn [children]. constructor; [|constructor].
      cbn [fst snd label]. split; [now right|]. constructor. exact Hkids.
    + pose proof (IH _ Hin Hchild (a :: w')) as Hrec. cbn [snd] in Hrec.
      destruct Hrec as (n'' & -> & Hk'' & Hl'').
      apply Hstore; [rewrite Hl''; exact Hhead | exact Hk''].
    + destruct p as [|x p].
      * exfalso. cbn [app] in Hw, Hl. injection Hw as <- _. rewrite Hl in Hhead.
        destruct Hhead as [Hh | Hh]; [discriminate|]. cbn in Hh. congruence.
      * cbn [app] in Hw. injection Hw as <- _.
        apply Hstore; [now right|]. constructor. cbn [children].
        constructor; [|constructor; [|constructor]]; cbn [fst snd label new_terminal].
        -- split; [now right|]. constructor. exact Hkids.
        -- split; [now right|]. constructor. constructor.
  - eexists. split; [reflexivity|]. split; [|reflexivity].
    constructor. cbn [children]. apply dict_set_Forall; [exact Hk|].
    cbn [fst snd new_terminal label]. split; [now right|]. constructor. constructor.
Qed.

Lemma index_terms_keyed doc_id items :
  forall trie raw,
    keyed (root trie) ->
    exists trie' raw',
      index_terms doc_id items trie raw = Returns (true, trie', raw') /\
      keyed (root trie').
Proof.
  induction items as [|[term tf] items IH]; intros trie raw Hk; cbn [index_terms].
  - now exists trie, raw.
  - unfold insert.
    destruct (insert_from_keyed doc_id tf (root trie) Hk term) as (r & -> & Hr & _).
    cbn [bind]. now apply IH.
Qed.

Lemma index_files_keyed files :
  forall st,
    keyed (root (trie (self st))) ->
    exists st', index_files st files = Returns st' /\ keyed (root (trie (self st'))).
Proof.
  induction files as [|file rest IH]; intros st Hk; cbn [index_files].
  - now exists st.
  - unfold index_file. destruct (endswith _ _); cbn [negb bind]; [|now apply IH].
    destruct (content file) as [text|]; cbn [bind]; [|now apply IH].
    destruct (index_terms_keyed (doc_id_counter st) (_tokenize_and_calculate_tf text)
                (trie (self st)) (raw_stats st) Hk) as (t' & raw' & -> & Hk').
    cbn [bind]. now apply IH.
Qed.

Lemma heap_tree_keyed h :
  heap_ok h -> forall fuel a, keyed (heap_tree fuel h a).
Proof.
  intros Hok. induction fuel as [|fuel IH]; intros a; cbn [heap_tree].
  - constructor. constructor.
  - destruct (h !! a) as [n|] eqn:Ea; [|constructor; constructor].
    constructor. cbn [children]. apply Forall_map.
    specialize (Hok a n Ea). revert Hok. apply List.Forall_impl.
    intros [k c] (_ & m & Hm & Hhead). cbn [fst snd] in *. split; [|apply IH].
    destruct fuel as [|fuel']; cbn [heap_tree]; [now left|].
    rewrite Hm. cbn [label]. now right.
Qed.

Lemma loader_ok_root node stk :
  h_children node = [] ->
  Forall (fun pr => fst pr < 1) stk ->
  loader_ok {| heap := [node]; stack := stk |}.
Proof.
  intros Hc Hstk. split; [|exact Hstk]. intros a n Ha. cbn [heap] in Ha.
  destruct a as [|a]; [|destruct a; discriminate Ha].
  injection Ha as <-. rewrite Hc. constructor.
Qed.

Lemma load_root_ok first_line : loader_ok (snd (load_root first_line)).
Proof.
  unfold load_root.
  destruct (split_on "|" (strip first_line)) as [|f1 [|f2 [|f3 [|f4 [|f5 fs]]]]];
    try (apply loader_ok_root; [reflexivity | constructor]).
  destruct (int_of_str f3) as [num| |];
    try (apply loader_ok_root; [reflexivity | constructor]).
  destruct (parse_index f4) as [postings ok]. cbn [snd].
  apply loader_ok_root; [reflexivity|].
  destruct (ok && (0 <? num)%Z); repeat constructor.
Qed.

Lemma load_line_ok st line st' :
  loader_ok st -> load_line st line = Returns st' -> loader_ok st'.
Proof.
  intros [Hheap Hstack]. unfold load_line.
  destruct (stack st) as [|[p r] stk] eqn:Estk;
    [intros [= <-]; split; [exact Hheap | rewrite Estk; constructor]|].
  apply Forall_cons_1 in Hstack as [Hp Hstk]. cbn [fst] in Hp.
  destruct (split_on "|" (strip line)) as [|lbl [|f2 [|f3 [|f4 [|f5 fs]]]]];
    try discriminate.
  destruct (int_of_str f3) as [num| |]; cbn [bind]; try discriminate.
  destruct (parse_index f4) as [postings ok].
  destruct ok; cbn [negb]; [|discriminate].
  destruct lbl as [|key lbl]; cbn [first_char bind]; [discriminate|].
  intros [= <-]. unfold loader_ok. cbn [heap stack]. set (h0 := heap st) in *.
  match goal with |- context [h0 ++ [?nd]] => set (node := nd) in * end.
  assert (Hnode : h_label node = key :: lbl /\ h_children node = []) by now split.
  destruct Hnode as [Hnl Hnc].
  destruct (lookup_lt_is_Some_2 h0 p Hp) as [pn Hpn].
  assert (Hattach : attach p key (length h0) (h0 ++ [node])
                    = <[p := {| h_label := h_label pn;
                                h_children := dict_set key (length h0) (h_children pn);
                                h_is_terminal := h_is_terminal pn;
                                h_inverted_index := h_inverted_index pn |}]>
                        (h0 ++ [node])).
  { unfold attach. now rewrite lookup_app_l, Hpn by exact Hp. }
  assert (Hlabel : forall c m k,
             c <> length h0 -> h0 !! c = Some m -> head (h_label m) = Some k ->
             exists m', attach p key (length h0) (h0 ++ [node]) !! c = Some m' /\
                        head (h_label m') = Some k).
  { intros c m k Hc Hm Hk. rewrite Hattach.
    pose proof (lookup_lt_Some _ _ _ Hm) as Hlt.
    destruct (decide (c = p)) as [->|Hne].
    - rewrite list_lookup_insert_eq by (rewrite length_app; cbn; lia).
      eexists. split; [reflexivity|]. cbn [h_label]. congruence.
    - rewrite list_lookup_insert_ne by congruence.
      rewrite lookup_app_l by exact Hlt. now exists m. }
  split.
  - intros a n Ha. rewrite Hattach in Ha.
    destruct (decide (a = p)) as [->|Hne].
    + rewrite list_lookup_insert_eq in Ha by (rewrite length_app; cbn; lia).
      injection Ha as <-. cbn [h_children]. apply dict_set_Forall.
      * specialize (Hheap p pn Hpn). revert Hheap. apply List.Forall_impl.
        intros [k c] (Hlt & m & Hm & Hk). cbn [fst snd] in *. split; [exact Hlt|].
        apply (Hlabel c m k); [|exact Hm | exact Hk].
        apply lookup_lt_Some in Hm. lia.
      * cbn [fst snd]. split; [exact Hp|]. exists node. split; [|now rewrite Hnl].
        rewrite Hattach, list_lookup_insert_ne by lia.
        now rewrite list_lookup_middle.
    + rewrite list_lookup_insert_ne in Ha by congruence.
      destruct (decide (a < length h0)) as [Hlt | Hge].
      * rewrite lookup_app_l in Ha by exact Hlt.
        specialize (Hheap a n Ha). revert Hheap. apply List.Forall_impl.
        intros [k c] (Hac & m & Hm & Hk). cbn [fst snd] in *. split; [exact Hac|].
        apply (Hlabel c m k); [|exact Hm | exact Hk].
        apply lookup_lt_Some in Hm. lia.
      * assert (a = length h0) as ->.
        { apply lookup_lt_Some in Ha. rewrite length_app in Ha. cbn in Ha. lia. }
        rewrite list_lookup_middle in Ha by reflexivity. injection Ha as <-.
        rewrite Hnc. constructor.
  - rewrite attach_length, length_app. cbn [length].
    assert (Hrest : Forall (fun pr : nat * Z => fst pr < length h0 + 1) stk).
    { revert Hstk. apply List.Forall_impl. intros pr. lia. }
    assert (Hcount : Forall (fun pr : nat * Z => fst pr < length h0 + 1)
                       (if (r - 1 =? 0)%Z then stk else (p, (r - 1)%Z) :: stk)).
    { destruct (r - 1 =? 0)%Z; [exact Hrest|]. constructor; [cbn; lia | exact Hrest]. }
    destruct (0 <? num)%Z; [|exact Hcount]. constructor; [cbn; lia | exact Hcount].
Qed.

Lemma load_lines_ok lines :
  forall st, loader_ok st -> loader_ok (snd (load_lines st lines)).
Proof.
  induction lines as [|line rest IH]; intros st Hst; cbn [load_lines]; [exact Hst|].
  destruct (stack st) as [|pr stk] eqn:Estk; [exact Hst|].
  destruct (load_line st line) as [st'| |] eqn:El; [|exact Hst..].
  apply IH. now apply (load_line_ok st line).
Qed.

Lemma load_from_file_keyed content : keyed (root (snd (load_from_file content))).
Proof.
  unfold load_from_file.
  destruct content as [text|]; [|constructor; constructor].
  destruct (read_lines text) as [|first_line rest]; [constructor; constructor|].
  pose proof (load_root_ok first_line) as Hroot.
  destruct (load_root first_line) as [ok st]. cbn [snd] in Hroot.
  assert (Hst : loader_ok (snd (if ok then load_lines st rest else (false, st)))).
  { destruct ok; [now apply load_lines_ok | exact Hroot]. }
  destruct (if ok then load_lines st rest else (false, st)) as [ok' st'].
  cbn [snd root] in *. apply heap_tree_keyed, Hst.
Qed.

(** X25. Whatever the trie file holds, [insert] and the first pass of
    [index_corpus] return. On the trie [load_from_file] leaves, be the
    file one it wrote, one it refused half way, or any text, every
    [insert] returns: no child can be stored under a character that does
    not begin its label, so the loop of [insert] always finds a case that
    applies; and the loop of [index_corpus] over the files of any corpus,
    started from that trie, returns. *)
Theorem indexing_returns_on_any_trie_file :
  (forall content word doc_id frequency,
     exists t', insert (snd (load_from_file content)) word doc_id frequency
                = Returns t') /\
  (forall disk files,
     exists st,
       index_files {| self := snd (_load_or_create_index_data new_Indexer disk);
                      doc_id_counter := 1; raw_stats := [] |} files
       = Returns st).
Proof.
  split.
  - intros content word doc_id frequency. unfold insert.
    destruct (insert_from_keyed doc_id frequency _
                (load_from_file_keyed content) word) as (r & -> & _).
    eexists. reflexivity.
  - intros disk files.
    destruct (index_files_keyed files
                {| self := snd (_load_or_create_index_data new_Indexer disk);
                   doc_id_counter := 1; raw_stats := [] |}) as (st & E & _).
    + cbn [self]. unfold _load_or_create_index_data.
      pose proof (load_from_file_keyed (trie_file disk)) as Hk.
      destruct (load_from_file (trie_file disk)) as [loaded t]. cbn [snd] in Hk.
      destruct loaded; [|exact Hk].
      destruct (match map_file disk with
                | Some items =>
                    match int_keys items [] with
                    | Some doc_map => (doc_map, Z.of_nat (length doc_map))
                    | None => (doc_map new_Indexer, total_docs new_Indexer)
                    end
                | None => (doc_map new_Indexer, total_docs new_Indexer)
                end) as [dm td].
      exact Hk.
    + now exists st.
Qed.


(** ** Running the indexer on the files of an earlier run *)

Lemma norm_wf_node n : wf_node n -> wf_node (norm n).
Proof.
  induction n as [l cs t ii IH] using TrieNode_children_ind.
  intros Hwf. apply wf_node_inv in Hwf as (Hl & [Hnd Hall] & Ht).
  cbn [label children is_terminal inverted_index] in *. rewrite norm_unfold.
  pose proof (sort_stable_Permutation fst char_lt cs) as Hperm.
  constructor; cbn [label children is_terminal inverted_index].
  - exact Hl.
  - unfold dict_keys in *. rewrite map_map. cbn [fst].
    change (map (fun x : ascii * TrieNode => fst x)) with (@map _ ascii (@fst ascii TrieNode)).
    now rewrite Hperm.
  - apply List.Forall_forall. intros x Hx.
    apply in_map_iff in Hx as (kc & <- & Hin). apply (Permutation_in _ Hperm) in Hin.
    rewrite List.Forall_forall in IH, Hall. destruct (Hall kc Hin) as [Hhd Hs].
    cbn [fst snd]. rewrite norm_label. split; [exact Hhd | now apply IH].
  - intros Hterm. destruct (Ht Hterm) as [Hii Hlen]. split; [exact Hii|].
    now rewrite length_map, (Permutation_length Hperm).
Qed.

Lemma norm_wf_root r : wf_root r -> wf_root (norm r).
Proof.
  destruct r as [l cs t ii]. intros (Hl & Ht & Hi & [Hnd Hall]).
  cbn [label children is_terminal inverted_index] in *. rewrite norm_unfold.
  pose proof (sort_stable_Permutation fst char_lt cs) as Hperm.
  unfold wf_root, wf_children. cbn [label children is_terminal inverted_index].
  split; [exact Hl|]. split; [exact Ht|]. split; [exact Hi|]. split.
  - unfold dict_keys in *. rewrite map_map. cbn [fst].
    change (map (fun x : ascii * TrieNode => fst x)) with (@map _ ascii (@fst ascii TrieNode)).
    now rewrite Hperm.
  - apply List.Forall_forall. intros x Hx.
    apply in_map_iff in Hx as (kc & <- & Hin). apply (Permutation_in _ Hperm) in Hin.
    rewrite List.Forall_forall in Hall. destruct (Hall kc Hin) as [Hhd Hs].
    cbn [fst snd]. rewrite norm_label. split; [exact Hhd | now apply norm_wf_node].
Qed.

Lemma str_of_int_inj a b : str_of_int a = str_of_int b -> a = b.
Proof.
  intros E. apply (f_equal int_of_str) in E.
  rewrite !int_of_str_of_int in E. now injection E.
Qed.

Lemma str_keys_fresh (doc_map : list (Z * str)) :
  forall acc,
    NoDup (map fst acc ++ map (fun kv => str_of_int (fst kv)) doc_map) ->
    fold_left (fun acc kv => item_set (str_of_int (fst kv)) (snd kv) acc) doc_map acc
    = acc ++ map (fun kv => (str_of_int (fst kv), snd kv)) doc_map.
Proof.
  induction doc_map as [|[k v] doc_map IH]; intros acc Hnd; cbn [fold_left map fst snd].
  - now rewrite app_nil_r.
  - cbn [map fst] in Hnd. rewrite item_set_fresh.
    + rewrite IH; rewrite ?map_app; cbn [map fst app]; rewrite <- app_assoc;
        [reflexivity | exact Hnd].
    + apply NoDup_app in Hnd as (_ & Hdisj & _).
      intros Hin. apply (Hdisj (str_of_int k)); [now apply list_elem_of_In | left].
Qed.

Lemma int_keys_texts (doc_map : list (Z * str)) :
  forall acc,
    NoDup (map fst acc ++ map fst doc_map) ->
    int_keys (map (fun kv => (str_of_int (fst kv), snd kv)) doc_map) acc
    = Some (acc ++ doc_map).
Proof.
  induction doc_map as [|[k v] doc_map IH]; intros acc Hnd; cbn [int_keys map fst snd].
  - now rewrite app_nil_r.
  - cbn [map fst] in Hnd. rewrite int_of_str_of_int, item_set_fresh.
    + rewrite IH; rewrite ?map_app; cbn [map fst app]; rewrite <- app_assoc;
        [reflexivity | exact Hnd].
    + apply NoDup_app in Hnd as (_ & Hdisj & _).
      intros Hin. apply (Hdisj k); [now apply list_elem_of_In | left].
Qed.

Lemma int_keys_str_keys (doc_map : list (Z * str)) :
  NoDup (map fst doc_map) -> int_keys (str_keys doc_map) [] = Some doc_map.
Proof.
  intros Hnd. unfold str_keys. rewrite (str_keys_fresh doc_map []).
  - apply (int_keys_texts doc_map []). exact Hnd.
  - cbn [map app]. clear -Hnd.
    induction doc_map as [|[k v] doc_map IH]; cbn [map fst] in *; [constructor|].
    apply NoDup_cons in Hnd as [Hk Hnd]. apply NoDup_cons. split; [|now apply IH].
    intros Hin. apply Hk. apply list_elem_of_In, in_map_iff in Hin as ([k' v'] & E & Hin).
    cbn [fst] in E. apply str_of_int_inj in E. subst k'.
    apply list_elem_of_In, in_map_iff. now exists (k, v').
Qed.

Section Rerun.
Context `{FloatArith} `{Interpreter}.

(** What a first run leaves, for a second one to start from. *)
Lemma first_run_leaves disk files self1 disk1 :
  0 < call_depth -> terms_shorter call_depth files = true ->
  trie_file disk = None ->
  index_corpus new_Indexer disk files = Returns (self1, disk1) ->
  wf_root (root (trie self1)) /\
  labels_in (fun c => serializable_char c = true) (root (trie self1)) /\
  height (root (trie self1)) <= call_depth /\
  (forall term, find (trie self1) term = corpus_postings term (numbered 1 files)) /\
  doc_map self1 = numbered_paths 1 files /\
  disk1 = {| trie_file := Some (save_to_file (trie self1));
             map_file := Some (str_keys (doc_map self1));
             stats_file := Some (global_stats self1) |}.
Proof.
  intros Hpos Hshort Hnone Hrun.
  destruct (index_corpus_run _ _ _ _ Hnone Hrun) as (st & Est & _ & Ht & Hm & Hd).
  pose proof (first_pass_height call_depth files st Hpos Hshort Est) as Hh.
  destruct (index_files_indexed files new_CompactTrie [] _
              (indexed_start new_CompactTrie [] ∅ 0 wf_root_new (labels_in_new _)))
    as (st0 & E & (Hwf & Hlab & Hfind & _) & Hmap).
  change {| trie := new_CompactTrie; doc_map := []; global_stats := ∅; total_docs := 0 |}
    with new_Indexer in E.
  rewrite Est in E. injection E as <-.
  cbn [doc_id_counter self doc_map app] in *. rewrite Ht, Hm.
  split; [exact Hwf|]. split; [exact Hlab|]. split; [exact Hh|]. split; [|split].
  - intros term. now rewrite Hfind, find_new.
  - rewrite Hmap. apply (fold_item_set_fresh _ []). apply numbered_paths_keys.
  - rewrite <- Ht, <- Hm. exact Hd.
Qed.

(** X20. An index on disk is never brought up to date. When the three
    files an earlier run of [index_corpus] wrote are there, the corpus
    having held a [.txt] file and a term and its terms being shorter than
    the depth of recursion the interpreter allows, a later run on a new
    indexer returns at once, whatever the corpus holds by then: it writes
    nothing, and the indexer holds the document map and the statistics of
    the earlier run and a trie on which [find] returns what it returned
    then. *)
Theorem index_corpus_skips_indexed (disk : Disk) (files later : list CorpusFile)
    (self1 : Indexer) (disk1 : Disk) :
  0 < call_depth -> terms_shorter call_depth files = true ->
  trie_file disk = None ->
  index_corpus new_Indexer disk files = Returns (self1, disk1) ->
  doc_map self1 <> [] ->
  global_stats self1 <> ∅ ->
  exists self2,
    index_corpus new_Indexer disk1 later = Returns (self2, disk1) /\
    doc_map self2 = doc_map self1 /\
    global_stats self2 = global_stats self1 /\
    total_docs self2 = Z.of_nat (length (doc_map self1)) /\
    forall term, find (trie self2) term = find (trie self1) term.
Proof.
  intros Hpos Hshort Hnone Hrun Hdocs Hstats.
  destruct (first_run_leaves _ _ _ _ Hpos Hshort Hnone Hrun)
    as (Hwf & Hlab & Hh & _ & Hmap & ->).
  unfold index_corpus, _load_or_create_index_data.
  cbn [trie_file map_file stats_file].
  rewrite (save_load _ Hwf Hlab Hh), int_keys_str_keys
    by (rewrite Hmap; apply numbered_paths_keys).
  rewrite !bool_decide_eq_false_2 by assumption. cbn [negb andb].
  eexists. split; [reflexivity|]. cbn [doc_map global_stats total_docs trie].
  split; [reflexivity|]. split; [reflexivity|]. split; [reflexivity|].
  intros term. unfold find. cbn [root]. apply find_from_norm.
  destruct Hwf as (_ & _ & _ & Hk).
  apply wf_ser_children; [exact Hk|]. now apply labels_in_inv in Hlab.
Qed.

(** X21. A run that finds the trie file of an earlier run but not the
    document map, or not the statistics, indexes the corpus again into the
    trie it has just loaded. When the terms of the earlier corpus were
    shorter than the depth of recursion the interpreter allows, so that
    the trie file holds the whole trie, [find] returns afterwards, for
    every term, the postings of the earlier run followed by those of the
    corpus as it is now: indexing the same corpus twice lists every
    document twice. *)
Theorem reindex_appends_postings (disk : Disk) (files later : list CorpusFile)
    (self1 : Indexer) (disk1 partial : Disk) (self2 : Indexer) (disk2 : Disk) :
  0 < call_depth -> terms_shorter call_depth files = true ->
  trie_file disk = None ->
  index_corpus new_Indexer disk files = Returns (self1, disk1) ->
  trie_file partial = trie_file disk1 ->
  map_file partial = None \/ stats_file partial = None ->
  index_corpus new_Indexer partial later = Returns (self2, disk2) ->
  forall term,
    find (trie self2) term =
    corpus_postings term (numbered 1 files) ++ corpus_postings term (numbered 1 later).
Proof.
  intros Hpos Hshort Hnone Hrun Htrie Hmissing Hagain term.
  destruct (first_run_leaves _ _ _ _ Hpos Hshort Hnone Hrun)
    as (Hwf & Hlab & Hh & Hfind & _ & ->).
  cbn [trie_file] in Htrie.
  unfold index_corpus, _load_or_create_index_data in Hagain.
  rewrite Htrie, (save_load _ Hwf Hlab Hh) in Hagain.
  assert (Hready :
            negb (bool_decide
                    ((match map_file partial with
                      | Some items =>
                          match int_keys items [] with
                          | Some doc_map => (doc_map, Z.of_nat (length doc_map))
                          | None => (doc_map new_Indexer, total_docs new_Indexer)
                          end
                      | None => (doc_map new_Indexer, total_docs new_Indexer)
                      end).1 = []))
            && negb (bool_decide
                       (match stats_file partial with
                        | Some stats => stats
                        | None => global_stats new_Indexer
                        end = ∅)) = false).
  { destruct Hmissing as [-> | ->]; cbn [fst doc_map global_stats new_Indexer].
    - reflexivity.
    - rewrite (bool_decide_eq_true_2 (∅ = ∅)) by reflexivity. apply andb_false_r. }
  destruct (match map_file partial with
            | Some items =>
                match int_keys items [] with
                | Some doc_map => (doc_map, Z.of_nat (length doc_map))
                | None => (doc_map new_Indexer, total_docs new_Indexer)
                end
            | None => (doc_map new_Indexer, total_docs new_Indexer)
            end) as [dm td].
  cbn [fst] in Hready. rewrite Hready in Hagain.
  match type of Hagain with
  | bind (index_files ?st0 later) _ = _ =>
      destruct (index_files_indexed later {| root := norm (root (trie self1)) |} [] st0)
        as (st & E & (_ & _ & Hf & _) & _)
  end.
  { apply indexed_start; cbn [root]; [now apply norm_wf_root | now apply norm_labels_in]. }
  rewrite E in Hagain. cbn [bind] in Hagain. unfold _calculate_and_save_stats in Hagain.
  destruct (final_stats (raw_stats st) ∅) as [stats| |]; cbn [bind] in Hagain;
    try discriminate.
  injection Hagain as <- _. cbn [trie]. rewrite Hf. cbn [doc_id_counter app].
  f_equal. rewrite <- Hfind. unfold find. cbn [root]. apply find_from_norm.
  destruct Hwf as (_ & _ & _ & Hk).
  apply wf_ser_children; [exact Hk|]. now apply labels_in_inv in Hlab.
Qed.

End Rerun.


(** X20 on the corpus of two documents, run again when the corpus is empty. *)
Lemma index_corpus_skips_indexed_witness :
  exists self2,
    @index_corpus DoubleArith PersistSpec.ThousandCalls new_Indexer small_disk [] = Returns (self2, small_disk) /\
    doc_map self2 = doc_map small_indexer /\
    global_stats self2 = global_stats small_indexer /\
    total_docs self2 = Z.of_nat (length (doc_map small_indexer)) /\
    forall term, find (trie self2) term = find (trie small_indexer) term.
Proof.
  apply (@index_corpus_skips_indexed DoubleArith ThousandCalls empty_disk
           small_corpus [] small_indexer small_disk).
  - vm_compute. lia.
  - vm_compute. reflexivity.
  - reflexivity.
  - exact small_run_returns.
  - discriminate.
  - intros Heq. apply (f_equal (fun m => m !! s "rock")) in Heq.
    vm_compute in Heq. discriminate Heq.
Defined.

Lemma small_rerun_returns :
  @index_corpus DoubleArith PersistSpec.ThousandCalls new_Indexer small_disk_without_map small_corpus
  = Returns (small_reindexer, small_redisk).
Proof. vm_compute. reflexivity. Qed.

(** X21 on the corpus of two documents, indexed again after the document
    map was removed. *)
Lemma reindex_appends_postings_witness :
  @index_corpus DoubleArith PersistSpec.ThousandCalls new_Indexer small_disk_without_map small_corpus
  = Returns (small_reindexer, small_redisk) /\
  forall term,
    find (trie small_reindexer) term =
    corpus_postings term (numbered 1 small_corpus)
    ++ corpus_postings term (numbered 1 small_corpus).
Proof.
  split; [exact small_rerun_returns|].
  apply (@reindex_appends_postings DoubleArith ThousandCalls empty_disk
           small_corpus small_corpus small_indexer small_disk small_disk_without_map
           small_reindexer small_redisk).
  - vm_compute. lia.
  - vm_compute. reflexivity.
  - reflexivity.
  - exact small_run_returns.
  - reflexivity.
  - left. reflexivity.
  - exact small_rerun_returns.
Defined.

End IndexerProofs.

(* ===================================================================== *)
(** * Proofs: from the corpus to the answer of a query *)
(* ===================================================================== *)

Module SystemProofs.
Import Py CompactTrie RI QuerySpec IndexSpec SystemSpec.
Import TrieProofs QueryProofs PersistProofs SearchProofs IndexerProofs.

Lemma sorted_ids_unique (docs : list (Z * option str)) d x y :
  StronglySorted Z.lt (map fst docs) -> In (d, x) docs -> In (d, y) docs -> x = y.
Proof.
  induction docs as [|doc docs IH]; cbn [map]; intros Hs; [intros []|].
  apply StronglySorted_inv in Hs as [Hs Hlt]. rewrite List.Forall_forall in Hlt.
  assert (Hfar : forall z, In (d, z) docs -> (fst doc < d)%Z).
  { intros z Hz. apply Hlt. apply in_map_iff. now exists (d, z). }
  intros [-> | Hx] [Hy | Hy].
  - congruence.
  - specialize (Hfar y Hy). cbn in Hfar. lia.
  - subst doc. specialize (Hfar x Hx). cbn in Hfar. lia.
  - now apply IH.
Qed.

Lemma doc_id_set_postings term docs d :
  d ∈ doc_id_set (corpus_postings term docs) <->
  exists text, In (d, Some text) docs /\ (0 < occurrences term text)%Z.
Proof.
  unfold doc_id_set. rewrite elem_of_list_to_set, list_elem_of_In, in_map_iff. split.
  - intros ([d' n] & <- & Hin). apply corpus_postings_In in Hin as (text & Hin & -> & Hpos).
    now exists text.
  - intros (text & Hin & Hpos). exists (d, occurrences term text). split; [reflexivity|].
    apply corpus_postings_In. now exists text.
Qed.

(** Over an index whose postings are those of the documents, a query
    denotes the documents whose text satisfies it. *)
Lemma denote_satisfies self docs q d :
  (forall term, find (trie self) term = corpus_postings term docs) ->
  StronglySorted Z.lt (map fst docs) ->
  d ∈ denote self q <->
  exists text, In (d, Some text) docs /\ satisfies q text = true.
Proof.
  intros Hfind Hs.
  induction q as [t | a IHa b IHb | a IHa b IHb | q IH]; cbn [denote satisfies].
  - rewrite Hfind, doc_id_set_postings. split; intros (text & Hin & Hpos);
      exists text; (split; [exact Hin|]); now apply Z.ltb_lt.
  - rewrite elem_of_intersection, IHa, IHb. split.
    + intros [(x & Hx & Ha) (y & Hy & Hb)].
      assert (Some x = Some y) as [= ->] by exact (sorted_ids_unique _ _ _ _ Hs Hx Hy).
      exists y. split; [exact Hy|]. now rewrite Ha, Hb.
    + intros (text & Hin & Hsat). apply andb_true_iff in Hsat as [Ha Hb].
      split; now exists text.
  - rewrite elem_of_union, IHa, IHb. split.
    + intros [(text & Hin & Ha) | (text & Hin & Hb)]; exists text;
        (split; [exact Hin|]); apply orb_true_iff; auto.
    + intros (text & Hin & Hsat). apply orb_true_iff in Hsat as [Ha | Hb];
        [left | right]; now exists text.
  - exact IH.
Qed.

(** X19. From the corpus to the answer. A corpus whose terms are shorter
    than the depth of recursion the interpreter allows, indexed by
    [index_corpus] from no trie file, a retriever constructed from the files
    written, and a query of the grammar written with blanks between its
    tokens and its terms in lower case: the list [search] returns, when the
    ranking does not raise, holds no document twice and holds exactly the
    numbers of the readable documents whose text satisfies the query, a term
    being satisfied by a text in which it occurs as a maximal run of
    [[a-z0-9&-]] once the text is lower-cased. *)
Theorem search_finds_documents `{SetIteration} `{Indexer.FloatArith} `{Interpreter}
    (disk : Indexer.Disk) (files : list Indexer.CorpusFile)
    (self' : Indexer.Indexer) (disk' : Indexer.Disk)
    (q : query) (result : list Z) :
  0 < call_depth -> terms_shorter call_depth files = true ->
  Indexer.trie_file disk = None ->
  Indexer.index_corpus Indexer.new_Indexer disk files = Returns (self', disk') ->
  grammatical q = true ->
  Forall query_token (tokens_of q) ->
  search (new_InformationRetriever (Indexer.trie_file disk') (Indexer.stats_file disk'))
    (join (s " ") (tokens_of q)) = Returns result ->
  NoDup result /\
  forall d,
    In d result <->
    exists text, In (d, Some text) (numbered 1 files) /\ satisfies q text = true.
Proof.
  intros Hpos Hshort Hnone Hrun Hg Htoks Hsearch.
  destruct (retriever_of_index disk files self' disk' Hpos Hshort Hnone Hrun)
    as [Hready Hfind].
  set (retriever := new_InformationRetriever (Indexer.trie_file disk')
                      (Indexer.stats_file disk')) in *.
  pose proof (search_result_perm retriever _ _ _ Hready
                (evaluate_query_text retriever q Hg Htoks) Hsearch) as Hperm.
  rewrite (tokenize_join_eq _ Htoks) in Hperm.
  destruct (numbered_ids files 1) as [_ Hsorted]. split.
  - apply NoDup_ListNoDup, (Permutation_NoDup (Permutation_sym Hperm)).
    apply List.NoDup_filter, NoDup_ListNoDup, iter_ints_NoDup.
  - intros d. rewrite <- (denote_satisfies retriever _ q d Hfind Hsorted). split.
    + intros Hd. apply (Permutation_in _ Hperm), filter_In in Hd as [Hd _].
      now apply iter_ints_elem, list_elem_of_In.
    + intros Hd. apply (Permutation_in _ (Permutation_sym Hperm)), filter_In.
      split; [now apply list_elem_of_In, iter_ints_elem|].
      apply has_query_term_tokens. apply denote_term_in_doc; [|exact Hg | exact Hd].
      intros term. rewrite Hfind. apply corpus_postings_positive.
Qed.

(** X19 on the query ["rock AND ( jazz OR roll )"] over the corpus of two
    documents, both of which are the answer. *)
Lemma search_finds_documents_witness :
  NoDup [1; 2]%Z /\
  forall d,
    In d [1; 2]%Z <->
    exists text,
      In (d, Some text) (numbered 1 small_corpus) /\
      satisfies (QAnd (QTerm (s "rock"))
                      (QParen (QOr (QTerm (s "jazz")) (QTerm (s "roll"))))) text
      = true.
Proof.
  apply (@search_finds_documents Scenario.SlotIteration DoubleArith
           PersistSpec.ThousandCalls empty_disk
           small_corpus small_indexer small_disk
           (QAnd (QTerm (s "rock")) (QParen (QOr (QTerm (s "jazz")) (QTerm (s "roll")))))
           [1; 2]%Z).
  - vm_compute. lia.
  - vm_compute. reflexivity.
  - reflexivity.
  - exact small_run_returns.
  - reflexivity.
  - repeat (constructor;
            [split;
             [split; [discriminate | split; [repeat constructor|]];
              first [now left | right; now left | right; right; repeat constructor]
             | first [left; reflexivity | right; reflexivity]] |]).
    constructor.
  - vm_compute. reflexivity.
Defined.

End SystemProofs.

(* ===================================================================== *)
(** * Proofs: the pages of the web application *)
(* ===================================================================== *)

Module AppProofs.
Import Py App.

(** ** Ranges *)

Lemma range_In a b p : In p (range a b) <-> (a <= p < b)%Z.
Proof.
  unfold range. rewrite in_map_iff. split.
  - intros (i & <- & Hi). apply in_seq in Hi. lia.
  - intros Hp. exists (Z.to_nat (p - a)). split; [lia|]. apply in_seq. lia.
Qed.

Lemma range_sorted a b : StronglySorted Z.lt (range a b).
Proof.
  unfold range. generalize (Z.to_nat (b - a)) as n. intros n.
  generalize 0%nat as k. induction n as [|n IH]; intros k; cbn [seq map].
  - constructor.
  - constructor; [apply IH|]. apply List.Forall_forall. intros x Hx.
    apply in_map_iff in Hx as (i & <- & Hi). apply in_seq in Hi. lia.
Qed.

Lemma range_length a b : length (range a b) = Z.to_nat (b - a).
Proof. unfold range. now rewrite length_map, length_seq. Qed.

(** ** The page links *)

Lemma page_in_numbers i pages : page_in i pages = true <-> In i (numbers pages).
Proof.
  unfold page_in, numbers. rewrite existsb_exists, in_flat_map. split.
  - intros ([n|] & Hin & Hp); [|discriminate]. apply Z.eqb_eq in Hp. subst.
    exists (Page i). split; [exact Hin | now left].
  - intros ([n|] & Hin & Hp); [|destruct Hp]. destruct Hp as [-> | []].
    exists (Page i). split; [exact Hin | apply Z.eqb_refl].
Qed.

Lemma numbers_app a b : numbers (a ++ b) = numbers a ++ numbers b.
Proof. apply flat_map_app. Qed.

Lemma numbers_pages l : numbers (map Page l) = l.
Proof.
  unfold numbers. induction l as [|x l IH]; [reflexivity|].
  cbn [map flat_map app]. now rewrite IH.
Qed.

Lemma dots_app a b : dots (a ++ b) = dots a + dots b.
Proof. unfold dots. now rewrite List.filter_app, length_app. Qed.

Lemma dots_pages l : dots (map Page l) = 0.
Proof. unfold dots. induction l as [|x l IH]; [reflexivity | exact IH]. Qed.

Lemma dots_in_pages l : dots_in (map Page l) = false.
Proof. unfold dots_in. induction l as [|x l IH]; [reflexivity | exact IH]. Qed.

Lemma dots_in_app a b : dots_in (a ++ b) = dots_in a || dots_in b.
Proof. apply existsb_app. Qed.

(** The loop that appends the pages around the current one appends them
    all, none of them being in the list yet. *)
Lemma window_loop l :
  forall pages,
    NoDup l ->
    (forall i, In i l -> ~ In i (numbers pages)) ->
    fold_left (fun pages i => if negb (page_in i pages) then pages ++ [Page i]
                              else pages) l pages
    = pages ++ map Page l.
Proof.
  induction l as [|x l IH]; intros pages Hnd Hfresh; cbn [fold_left map].
  - now rewrite app_nil_r.
  - apply NoDup_cons in Hnd as [Hx Hnd].
    replace (page_in x pages) with false.
    + cbn [negb]. rewrite IH; [now rewrite <- app_assoc | exact Hnd |].
      intros i Hi. rewrite numbers_app, in_app_iff. cbn. intros [Hin | [-> | []]].
      * apply (Hfresh i); [now right | exact Hin].
      * apply Hx. now apply list_elem_of_In.
    + symmetry. apply not_true_is_false. rewrite page_in_numbers.
      apply Hfresh. now left.
Qed.

Lemma range_NoDup a b : NoDup (range a b).
Proof.
  unfold range. apply NoDup_fmap_2; [|apply NoDup_ListNoDup, seq_NoDup].
  intros i j Hij. lia.
Qed.

(** The range in closed form, whatever the current page. *)
Lemma pagination_range_closed current total window :
  (0 <= window)%Z -> (2 * window + 5 < total)%Z ->
  get_pagination_range current total window =
  (if (window + 2 <? current)%Z then [Page 1; Dots] else [])
  ++ map Page (range (Z.max 1 (current - window))
                     (Z.min total (current + window) + 1))
  ++ (if (current <? total - window - 1)%Z
      then if (window + 2 <? current)%Z then [Page total] else [Dots; Page total]
      else []).
Proof.
  intros Hw Htotal. unfold get_pagination_range.
  replace (total <=? 2 * window + 5)%Z with false by (symmetry; apply Z.leb_gt; lia).
  rewrite window_loop; [|apply range_NoDup|].
  - destruct (current <? total - window - 1)%Z eqn:Ehigh;
      destruct (window + 2 <? current)%Z eqn:Elow;
      rewrite ?app_nil_r; cbn [app]; try reflexivity.
    + apply Z.ltb_lt in Ehigh, Elow.
      replace (page_in total _) with false; [reflexivity|].
      symmetry. apply not_true_is_false. rewrite page_in_numbers.
      cbn [numbers flat_map app]. fold (numbers (map Page (range (Z.max 1 (current - window))
                  (Z.min total (current + window) + 1)))).
      rewrite numbers_pages. intros [H1 | Hin]; [lia|]. apply range_In in Hin. lia.
    + rewrite dots_in_pages. cbn [negb]. reflexivity.
  - intros i Hi. apply range_In in Hi.
    destruct (window + 2 <? current)%Z eqn:Elow; cbn; [|tauto].
    apply Z.ltb_lt in Elow. intros [H1 | []]. lia.
Qed.

Lemma numbers_closed current total window :
  (0 <= window)%Z -> (2 * window + 5 < total)%Z ->
  numbers (get_pagination_range current total window) =
  (if (window + 2 <? current)%Z then [1%Z] else [])
  ++ range (Z.max 1 (current - window)) (Z.min total (current + window) + 1)
  ++ (if (current <? total - window - 1)%Z then [total] else []).
Proof.
  intros Hw Htotal. rewrite pagination_range_closed by assumption.
  rewrite !numbers_app, numbers_pages.
  destruct (window + 2 <? current)%Z; destruct (current <? total - window - 1)%Z;
    reflexivity.
Qed.

(** X22. The page links when there are more than [2 * window + 5] pages
    and the current page is one of them. The page numbers shown are in
    strictly increasing order, all between 1 and the last page, and hold
    every page within [window] of the current one; there is exactly one
    ['...'], even when pages are left out on both sides; the first page is
    missing exactly when the current page is [window + 2], and the last
    page exactly when it is [total_pages - window - 1]. *)
Theorem pagination_range_shape (current total window : Z) :
  (0 <= window)%Z -> (2 * window + 5 < total)%Z -> (1 <= current <= total)%Z ->
  StronglySorted Z.lt (numbers (get_pagination_range current total window)) /\
  (forall p, In p (numbers (get_pagination_range current total window)) ->
             (1 <= p <= total)%Z) /\
  (forall p, (1 <= p <= total)%Z -> (current - window <= p <= current + window)%Z ->
             In p (numbers (get_pagination_range current total window))) /\
  dots (get_pagination_range current total window) = 1 /\
  (In 1%Z (numbers (get_pagination_range current total window))
   <-> current <> (window + 2)%Z) /\
  (In total (numbers (get_pagination_range current total window))
   <-> current <> (total - window - 1)%Z).
Proof.
  intros Hw Htotal Hcur.
  assert (Hin : forall p,
             In p (numbers (get_pagination_range current total window)) <->
             ((window + 2 < current)%Z /\ p = 1%Z) \/
             (Z.max 1 (current - window) <= p <= Z.min total (current + window))%Z \/
             ((current < total - window - 1)%Z /\ p = total)).
  { intros p. rewrite numbers_closed, !in_app_iff, range_In by assumption.
    destruct (window + 2 <? current)%Z eqn:Elow;
      destruct (current <? total - window - 1)%Z eqn:Ehigh;
      rewrite ?Z.ltb_lt, ?Z.ltb_ge in *; cbn [In]; lia. }
  split; [|split; [|split; [|split; [|split]]]].
  - rewrite numbers_closed by assumption.
    apply StronglySorted_app_2; [| |apply StronglySorted_app_2].
    + intros x y Hx Hy. apply list_elem_of_In in Hx, Hy.
      destruct (window + 2 <? current)%Z eqn:Elow; [|destruct Hx].
      destruct Hx as [<- | []]. apply Z.ltb_lt in Elow.
      apply in_app_iff in Hy as [Hy | Hy].
      * apply range_In in Hy. lia.
      * destruct (current <? total - window - 1)%Z; [|destruct Hy].
        destruct Hy as [<- | []]. lia.
    + destruct (window + 2 <? current)%Z; repeat constructor.
    + intros x y Hx Hy. apply list_elem_of_In in Hx, Hy. apply range_In in Hx.
      destruct (current <? total - window - 1)%Z eqn:Ehigh; [|destruct Hy].
      destruct Hy as [<- | []]. apply Z.ltb_lt in Ehigh. lia.
    + apply range_sorted.
    + destruct (current <? total - window - 1)%Z; repeat constructor.
  - intros p Hp. apply Hin in Hp. lia.
  - intros p Hp Hnear. apply Hin. lia.
  - rewrite pagination_range_closed, !dots_app, dots_pages by assumption.
    destruct (window + 2 <? current)%Z eqn:Elow;
      destruct (current <? total - window - 1)%Z eqn:Ehigh;
      rewrite ?Z.ltb_lt, ?Z.ltb_ge in *; cbn; lia.
  - rewrite Hin. lia.
  - rewrite Hin. lia.
Qed.

(** X22 on page 6 of 10 with the window of the route: the links are
    [1 ... 4 5 6 7 8 10]. *)
Lemma pagination_range_shape_witness :
  get_pagination_range 6 10 2
  = [Page 1; Dots; Page 4; Page 5; Page 6; Page 7; Page 8; Page 10] /\
  StronglySorted Z.lt (numbers (get_pagination_range 6 10 2)) /\
  (forall p, In p (numbers (get_pagination_range 6 10 2)) -> (1 <= p <= 10)%Z) /\
  (forall p, (1 <= p <= 10)%Z -> (6 - 2 <= p <= 6 + 2)%Z ->
             In p (numbers (get_pagination_range 6 10 2))) /\
  dots (get_pagination_range 6 10 2) = 1 /\
  (In 1%Z (numbers (get_pagination_range 6 10 2)) <-> 6%Z <> (2 + 2)%Z) /\
  (In 10%Z (numbers (get_pagination_range 6 10 2)) <-> 6%Z <> (10 - 2 - 1)%Z).
Proof.
  split; [reflexivity|]. apply (pagination_range_shape 6 10 2); lia.
Defined.

(** ** The results of a page *)

Lemma take_short {A} (l : list A) n m :
  (n = m \/ (length l <= n /\ length l <= m)) -> take n l = take m l.
Proof.
  intros [-> | [Hn Hm]]; [reflexivity|].
  now rewrite !firstn_all2 by lia.
Qed.

(** A page from 1 on holds the ten results that follow those of the pages
    before it, or those that are left. *)
Lemma slice_page {A} (l : list A) page :
  (1 <= page)%Z ->
  slice l ((page - 1) * RESULTS_PER_PAGE)
          ((page - 1) * RESULTS_PER_PAGE + RESULTS_PER_PAGE)
  = take 10 (drop (10 * Z.to_nat (page - 1)) l).
Proof.
  intros Hp. unfold slice, RESULTS_PER_PAGE.
  replace ((page - 1) * 10 <? 0)%Z with false by (symmetry; apply Z.ltb_ge; lia).
  replace ((page - 1) * 10 + 10 <? 0)%Z with false by (symmetry; apply Z.ltb_ge; lia).
  set (n := length l).
  destruct (Z.le_gt_cases ((page - 1) * 10) (Z.of_nat n)) as [Hle | Hgt].
  - replace (Z.to_nat (Z.min ((page - 1) * 10) (Z.of_nat n)))
      with (10 * Z.to_nat (page - 1)) by lia.
    apply take_short. rewrite length_skipn. fold n. lia.
  - rewrite !skipn_all2 by (fold n; lia). now rewrite !firstn_nil.
Qed.

Lemma chunks_concat {A} (l : list A) k :
  concat (map (fun i => take 10 (drop (10 * i) l)) (seq 0 k)) = take (10 * k) l.
Proof.
  induction k as [|k IH]; [reflexivity|].
  rewrite seq_S, map_app, concat_app, IH. cbn [map concat plus].
  rewrite app_nil_r, take_take_drop. f_equal. lia.
Qed.

(** X23. The pages the route [search] shows lose no result. With
    [total_pages] the number of pages it computes, the results of the pages
    1 to [total_pages], one after the other, are the results; each of those
    pages holds between 1 and 10 results; every page after them is empty,
    and so is page 0. *)
Theorem pages_hold_all_results {A} (valid_results : list A) :
  concat (map (fun page => fst (fst (paginate valid_results page)))
              (range 1 (snd (fst (paginate valid_results 1)) + 1)))
  = valid_results /\
  (forall page,
     (1 <= page <= snd (fst (paginate valid_results 1)))%Z ->
     1 <= length (fst (fst (paginate valid_results page))) <= 10) /\
  (forall page,
     (snd (fst (paginate valid_results 1)) < page)%Z \/ page = 0%Z ->
     fst (fst (paginate valid_results page)) = []).
Proof.
  unfold paginate, RESULTS_PER_PAGE. cbn [fst snd].
  set (n := length valid_results).
  assert (Hdiv : (Z.of_nat n <= 10 * ((Z.of_nat n + 10 - 1) / 10))%Z
                 /\ (10 * ((Z.of_nat n + 10 - 1) / 10) < Z.of_nat n + 10)%Z).
  { pose proof (Z.div_mod (Z.of_nat n + 10 - 1) 10 ltac:(lia)) as Hdm.
    pose proof (Z.mod_pos_bound (Z.of_nat n + 10 - 1) 10 ltac:(lia)) as Hmod. lia. }
  set (total := ((Z.of_nat n + 10 - 1) / 10)%Z) in *.
  split; [|split].
  - unfold range. rewrite map_map.
    rewrite (map_ext_in _ (fun i => take 10 (drop (10 * i) valid_results))).
    + rewrite chunks_concat. apply firstn_all2. fold n. lia.
    + intros i Hi. apply in_seq in Hi.
      change 10%Z with RESULTS_PER_PAGE. rewrite slice_page by lia.
      do 2 f_equal. lia.
  - intros page Hpage. change 10%Z with RESULTS_PER_PAGE.
    rewrite slice_page by lia.
    rewrite length_firstn, length_skipn. fold n. lia.
  - intros page [Hpage | ->].
    + change 10%Z with RESULTS_PER_PAGE. rewrite slice_page by lia.
      rewrite skipn_all2 by (fold n; lia). apply firstn_nil.
    + unfold slice. fold n.
      replace ((0 - 1) * 10 + 10 <? 0)%Z with false by reflexivity.
      replace ((0 - 1) * 10 <? 0)%Z with true by reflexivity.
      match goal with |- take ?k _ = [] => replace k with 0 by lia end.
      reflexivity.
Qed.


End AppProofs.
